(** * BECMI world generator: hex-grid terrain synthesis

    A shallow embedding of [becmi_world_gen.py]: the [WorldGenerator] class
    with its three passes ([generate_base_layers], [generate_rivers],
    [assign_biomes]) and the hex topology ([get_neighbors]).

    Python [float] is IEEE-754 binary64: it is rendered by Rocq's primitive
    floats, whose [+ - * /], [sqrt] and comparisons are the same correctly
    rounded operations.  Python [int] is [Z].  A raised exception is the
    [Raise] branch of [result]. *)

From Stdlib Require Import ZArith Floats Lia Bool.
From stdpp Require Import base option list strings pretty.

Local Open Scope Z_scope.
Set Warnings "-inexact-float".

(** ** Exceptions and the error monad *)

Inductive exn : Type :=
| IndexError          (* list index out of range *)
| AttributeError      (* attribute access on [None] *)
| ZeroDivisionError   (* division by zero *)
| TypeError           (* ordering a complex number *)
| ValueError          (* [min] of an empty list, [int] of a NaN *)
| OverflowError.      (* [int] of an infinity, [float] of a huge [int] *)

Inductive result (A : Type) : Type :=
| Ok (a : A)
| Raise (e : exn).
Arguments Ok {A} a.
Arguments Raise {A} e.

Definition bind {A B} (m : result A) (k : A -> result B) : result B :=
  match m with
  | Ok a => k a
  | Raise e => Raise e
  end.

Notation "'let*' x ':=' m 'in' k" := (bind m (fun x => k))
  (at level 10, x pattern, m at level 100, k at level 200).

(** ** Python floats *)

Module PyFloat.
Local Open Scope float_scope.

(** [min(a, b)] keeps its first argument unless the second is strictly
    smaller; [max(a, b)] keeps its first unless the second is strictly
    greater.  A NaN second argument therefore never wins. *)
Definition py_min (a b : float) : float := if b <? a then b else a.
Definition py_max (a b : float) : float := if a <? b then b else a.

(** [max(0.0, min(1.0, v))], the clamp written all over the generator. *)
Definition clamp01 (v : float) : float := py_max 0 (py_min 1 v).

(** [a > b], [a >= b] *)
Definition gtb (a b : float) : bool := b <? a.
Definition geb (a b : float) : bool := b <=? a.

(** The closed unit interval, as Python's comparisons see it. *)
Definition in_unit (v : float) : Prop := (0 <=? v) = true /\ (v <=? 1) = true.
End PyFloat.
Import PyFloat.

(** ** Python list indexing: a negative index counts from the end *)

Definition py_norm_index (len i : Z) : Z := if i <? 0 then i + len else i.

Definition py_getitem {A} (l : list A) (i : Z) : result A :=
  let j := py_norm_index (Z.of_nat (length l)) i in
  if 0 <=? j then
    match l !! Z.to_nat j with
    | Some a => Ok a
    | None => Raise IndexError
    end
  else Raise IndexError.

Definition py_setitem {A} (l : list A) (i : Z) (a : A) : result (list A) :=
  let j := py_norm_index (Z.of_nat (length l)) i in
  if (0 <=? j) && (j <? Z.of_nat (length l)) then Ok (<[Z.to_nat j := a]> l)
  else Raise IndexError.

(** [range(n)]: empty when [n <= 0]. *)
Definition py_range (n : Z) : list Z := map Z.of_nat (seq 0 (Z.to_nat n)).

(** ** Data structures *)

Inductive TerrainType : Type :=
| DEEP_SEA | SEA | COAST | SWAMP | DESERT | PLAINS
| FOREST | HILLS | MOUNTAINS | JUNGLE | GLACIER | BADLANDS.

Record HexData : Type := mkHexData {
  x : Z;
  y : Z;
  elevation : float;
  moisture : float;
  temperature : float;
  terrain : TerrainType;
  is_river : bool;
  is_lake : bool;
  road_level : Z;
  dominion_id : option Z
}.

(** [HexData(x, y, elevation, moisture, temperature, terrain)]: the other
    fields take their declared defaults. *)
Definition new_HexData (cx cy : Z) (e m t : float) (tt : TerrainType) : HexData :=
  mkHexData cx cy e m t tt false false 0 None.

Definition set_is_river (c : HexData) : HexData :=
  mkHexData (x c) (y c) (elevation c) (moisture c) (temperature c) (terrain c)
            true (is_lake c) (road_level c) (dominion_id c).
Definition set_is_lake (c : HexData) : HexData :=
  mkHexData (x c) (y c) (elevation c) (moisture c) (temperature c) (terrain c)
            (is_river c) true (road_level c) (dominion_id c).
Definition set_terrain (tt : TerrainType) (c : HexData) : HexData :=
  mkHexData (x c) (y c) (elevation c) (moisture c) (temperature c) tt
            (is_river c) (is_lake c) (road_level c) (dominion_id c).
Definition set_layers (e m t : float) (c : HexData) : HexData :=
  mkHexData (x c) (y c) e m t (terrain c)
            (is_river c) (is_lake c) (road_level c) (dominion_id c).

(** The grid is [width] columns of [height] slots, indexed [grid[x][y]];
    a slot is [None] from construction until pass 1 stores its cell. *)
Abbreviation Grid := (list (list (option HexData))).

Record WorldGenerator : Type := mkWorld {
  width : Z;
  height : Z;
  grid : Grid
}.

(** [WorldGenerator.__init__]: no check on the dimensions. *)
Definition WorldGenerator_init (w h : Z) : result WorldGenerator :=
  Ok (mkWorld w h (map (fun _ => map (fun _ => None) (py_range h)) (py_range w))).

(** A reference to a cell object is the slot that holds it: every slot gets
    its own object in pass 1 and no slot is reassigned afterwards, so two
    references alias exactly when they name the same slot. *)
Definition CellRef : Type := (Z * Z)%type.

(** [self.grid[cx][cy]] *)
Definition grid_slot (g : Grid) (cx cy : Z) : result (option HexData) :=
  let* col := py_getitem g cx in py_getitem col cy.

(** [self.grid[cx][cy].<field>]: the slot must hold a cell. *)
Definition get_cell (g : Grid) (cx cy : Z) : result HexData :=
  let* slot := grid_slot g cx cy in
  match slot with
  | Some c => Ok c
  | None => Raise AttributeError
  end.

(** Reading a field through a reference. *)
Definition deref (g : Grid) (r : CellRef) : result HexData :=
  get_cell g (fst r) (snd r).

(** [self.grid[cx][cy] = c] *)
Definition store_cell (g : Grid) (cx cy : Z) (c : HexData) : result Grid :=
  let* col := py_getitem g cx in
  let* col' := py_setitem col cy (Some c) in
  py_setitem g cx col'.

(** In-place field update [ref.<field> = v] of the object behind a reference. *)
Definition update_cell (g : Grid) (r : CellRef) (f : HexData -> HexData) : result Grid :=
  let* c := deref g r in store_cell g (fst r) (snd r) (f c).

(** ** Topology *)

Definition directions_even : list (Z * Z) :=
  [(0, -1); (1, -1); (1, 0); (0, 1); (-1, 0); (-1, -1)].
Definition directions_odd : list (Z * Z) :=
  [(0, -1); (1, 0); (1, 1); (0, 1); (-1, 1); (-1, 0)].

Definition directions (cx : Z) : list (Z * Z) :=
  if negb (cx mod 2 =? 0) then directions_odd else directions_even.

Definition in_bounds (w h nx ny : Z) : bool :=
  (0 <=? nx) && (nx <? w) && (0 <=? ny) && (ny <? h).

(** The slots [get_neighbors] looks at, in the order it appends them. *)
Definition neighbor_refs (w h cx cy : Z) : list CellRef :=
  filter (fun p => in_bounds w h (fst p) (snd p) = true)
         (map (fun d => (cx + fst d, cy + snd d)) (directions cx)).

(** [WorldGenerator.get_neighbors]: the returned list holds the objects found
    in those slots; reading a slot may raise. *)
Fixpoint fetch_all (g : Grid) (rs : list CellRef) : result (list CellRef) :=
  match rs with
  | [] => Ok []
  | r :: rs' =>
      let* _ := grid_slot g (fst r) (snd r) in
      let* tl := fetch_all g rs' in
      Ok (r :: tl)
  end.

Definition get_neighbors (w : WorldGenerator) (cx cy : Z) : result (list CellRef) :=
  fetch_all (grid w) (neighbor_refs (width w) (height w) cx cy).

(** A cell is interior when all six of its parity-dependent offsets stay in
    bounds. *)
Definition interior (w h cx cy : Z) : Prop :=
  Forall (fun d => in_bounds w h (cx + fst d) (cy + snd d) = true) (directions cx).


(** ** The process-global random generator

    [random.shuffle] draws from the one generator of the [random] module,
    which nothing in the program seeds.  Its hidden state is rendered by the
    tape of raw draws it is going to deliver; [randbelow n] reduces the next
    draw into [range(n)]. *)

Abbreviation Rng := (list nat).

Definition randbelow (g : Rng) (n : nat) : nat * Rng :=
  match g with
  | [] => (O, [])
  | r :: g' => ((r mod n)%nat, g')
  end.

(** [x[i], x[j] = x[j], x[i]] *)
Definition swap {A} (l : list A) (i j : nat) : list A :=
  match l !! i, l !! j with
  | Some a, Some b => <[j := a]> (<[i := b]> l)
  | _, _ => l
  end.

(** [random.shuffle]: for [i] from [len(x) - 1] down to [1], swap [x[i]]
    with [x[randbelow(i + 1)]]. *)
Fixpoint shuffle_from {A} (i : nat) (g : Rng) (l : list A) : list A * Rng :=
  match i with
  | O => (l, g)
  | S i' =>
      let '(j, g') := randbelow g (S i) in
      shuffle_from i' g' (swap l i j)
  end.

Definition shuffle {A} (g : Rng) (l : list A) : list A * Rng :=
  shuffle_from (length l - 1) g l.

(** ** Hydrology *)

Definition SPRING_MIN_ELEVATION : float := 0.7%float.
Definition SPRING_DENSITY : float := 0.004%float.
Definition RIVER_MAX_STEPS : nat := 1000.
Arguments RIVER_MAX_STEPS : simpl never.

(** [float(n)] for an [int]: the nearest double, ties to even. *)
Definition float_of_Z (n : Z) : result float :=
  let f := SF2Prim (binary_normalize prec emax n 0 false) in
  if is_infinity f then Raise OverflowError else Ok f.

(** [int(f)]: truncation towards zero. *)
Definition py_int (f : float) : result Z :=
  match Prim2SF f with
  | S754_zero _ => Ok 0
  | S754_finite s m e =>
      let v := Z.shiftl (Z.pos m) e in
      Ok (if s then - v else v)
  | S754_infinity _ => Raise OverflowError
  | S754_nan => Raise ValueError
  end.

(** [max(1, int(self.width * self.height * SPRING_DENSITY))] *)
Definition target_springs (w h : Z) : result Z :=
  let* cells := float_of_Z (w * h) in
  let* n := py_int (cells * SPRING_DENSITY)%float in
  Ok (if 1 <? n then n else 1).

(** Every slot, in the order of [for x in range(width) for y in range(height)]. *)
Definition all_refs (w h : Z) : list CellRef :=
  flat_map (fun cx => map (fun cy => (cx, cy)) (py_range h)) (py_range w).

(** The list comprehension of [generate_rivers]. *)
Fixpoint candidate_springs (g : Grid) (rs : list CellRef) : result (list CellRef) :=
  match rs with
  | [] => Ok []
  | r :: rs' =>
      let* c := deref g r in
      let* tl := candidate_springs g rs' in
      Ok (if geb (elevation c) SPRING_MIN_ELEVATION then r :: tl else tl)
  end.

(** [min(neighbors, key=lambda h: h.elevation)]: the first of the smallest. *)
Fixpoint min_by_elevation_from (g : Grid) (best : CellRef) (bestv : float)
    (rs : list CellRef) : result CellRef :=
  match rs with
  | [] => Ok best
  | r :: rs' =>
      let* c := deref g r in
      if (elevation c <? bestv)%float
      then min_by_elevation_from g r (elevation c) rs'
      else min_by_elevation_from g best bestv rs'
  end.

Definition min_by_elevation (g : Grid) (rs : list CellRef) : result CellRef :=
  match rs with
  | [] => Raise ValueError
  | r :: rs' =>
      let* c := deref g r in
      min_by_elevation_from g r (elevation c) rs'
  end.

(** How the [while] loop of one walk was left. *)
Inductive WalkEnd : Type :=
| NoNeighbors     (* [if not neighbors: break] *)
| LocalMinimum    (* lake flagged, [break] *)
| ReachedSea      (* mouth flagged, [break] *)
| StepCap.        (* [steps < RIVER_MAX_STEPS] became false *)

Record WalkResult : Type := mkWalk {
  walk_grid : Grid;
  walk_rng : Rng;
  walk_steps : nat;
  walk_end : WalkEnd;
  walk_at : CellRef;         (* [current_x, current_y] when the loop was left *)
  walk_path : list CellRef   (* the cells the walk flagged as river, in order *)
}.

(** The [while steps < RIVER_MAX_STEPS] loop; [fuel] is
    [RIVER_MAX_STEPS - steps]. *)
Fixpoint river_walk (fuel : nat) (w h : Z) (g : Grid) (rng : Rng)
    (cur : CellRef) (steps : nat) (path : list CellRef) : result WalkResult :=
  match fuel with
  | O => Ok (mkWalk g rng steps StepCap cur path)
  | S fuel' =>
      let* g1 := update_cell g cur set_is_river in
      let steps1 := S steps in
      let path1 := path ++ [cur] in
      let* neighbors := get_neighbors (mkWorld w h g1) (fst cur) (snd cur) in
      match neighbors with
      | [] => Ok (mkWalk g1 rng steps1 NoNeighbors cur path1)
      | _ :: _ =>
          let '(shuffled, rng1) := shuffle rng neighbors in
          let* lowest := min_by_elevation g1 shuffled in
          let* lo := deref g1 lowest in
          let* cc := deref g1 cur in
          if geb (elevation lo) (elevation cc) then
            let* g2 := update_cell g1 cur set_is_lake in
            Ok (mkWalk g2 rng1 steps1 LocalMinimum cur path1)
          else if (elevation lo <? 0.3)%float then
            let* g2 := update_cell g1 lowest set_is_river in
            Ok (mkWalk g2 rng1 steps1 ReachedSea cur (path1 ++ [lowest]))
          else river_walk fuel' w h g1 rng1 (x lo, y lo) steps1 path1
      end
  end.

(** The [for spring in springs] loop; the list of walks is kept as a log. *)
Fixpoint walk_springs (w h : Z) (g : Grid) (rng : Rng) (springs : list CellRef)
    : result (Grid * Rng * list WalkResult) :=
  match springs with
  | [] => Ok (g, rng, [])
  | spring :: rest =>
      let* s := deref g spring in
      let* at_spring := get_cell g (x s) (y s) in
      if is_river at_spring then walk_springs w h g rng rest
      else
        let* r := river_walk RIVER_MAX_STEPS w h g rng (x s, y s) 0 [] in
        let* out := walk_springs w h (walk_grid r) (walk_rng r) rest in
        let '(g', rng', log) := out in
        Ok (g', rng', r :: log)
  end.

(** The springs [generate_rivers] selects: the shuffled candidates cut to the
    target count. *)
Definition select_springs (w : WorldGenerator) (rng : Rng)
    : result (list CellRef * Rng) :=
  let* candidates := candidate_springs (grid w) (all_refs (width w) (height w)) in
  match candidates with
  | [] => Ok ([], rng)
  | _ :: _ =>
      let '(shuffled, rng1) := shuffle rng candidates in
      let* target := target_springs (width w) (height w) in
      let n := Z.min (Z.of_nat (length shuffled)) target in
      Ok (take (Z.to_nat n) shuffled, rng1)
  end.

(** [WorldGenerator.generate_rivers] *)
Definition generate_rivers_log (w : WorldGenerator) (rng : Rng)
    : result (WorldGenerator * Rng * list WalkResult) :=
  let* sel := select_springs w rng in
  let '(springs, rng1) := sel in
  let* out := walk_springs (width w) (height w) (grid w) rng1 springs in
  let '(g', rng', log) := out in
  Ok (mkWorld (width w) (height w) g', rng', log).

Definition generate_rivers (w : WorldGenerator) (rng : Rng)
    : result (WorldGenerator * Rng) :=
  let* out := generate_rivers_log w rng in
  let '(w', rng', _) := out in
  Ok (w', rng').


(** ** Loops over the grid *)

(** [for i in l: body], threading the state and stopping at the first raise. *)
Fixpoint for_each {S : Type} (l : list Z) (body : Z -> S -> result S) (s : S)
    : result S :=
  match l with
  | [] => Ok s
  | i :: l' => let* s' := body i s in for_each l' body s'
  end.

(** [for x in range(w): for y in range(h): body] *)
Definition for_cells {S : Type} (w h : Z) (body : Z -> Z -> S -> result S) (s : S)
    : result S :=
  for_each (py_range w) (fun cx s1 => for_each (py_range h) (fun cy s2 => body cx cy s2) s1) s.

(** ** Biome classification *)

(** The decision cascade in the body of [assign_biomes], for a cell [h]. *)
Definition biome_of (h : HexData) : TerrainType :=
  let e := elevation h in
  let m := moisture h in
  let t := temperature h in
  if (e <? 0.15)%float then DEEP_SEA
  else if (e <? 0.30)%float then SEA
  else
    let m := if is_river h || is_lake h then (m + 0.2)%float else m in
    if gtb e 0.85 then
      if (t <? 0.2)%float then GLACIER else MOUNTAINS
    else if gtb e 0.70 then HILLS
    else
      if (t <? 0.15)%float then GLACIER
      else if gtb t 0.8 then
        if gtb m 0.6 then JUNGLE
        else if gtb m 0.3 then SWAMP
        else DESERT
      else
        if gtb m 0.7 then SWAMP
        else if gtb m 0.5 then FOREST
        else if gtb m 0.2 then PLAINS
        else BADLANDS.

(** [WorldGenerator.assign_biomes] *)
Definition assign_biomes (w : WorldGenerator) : result WorldGenerator :=
  let* g :=
    for_cells (width w) (height w)
      (fun cx cy g =>
         let* h := get_cell g cx cy in
         store_cell g cx cy (set_terrain (biome_of h) h))
      (grid w) in
  Ok (mkWorld (width w) (height w) g).

(** ** Layer synthesis *)

(** Float true division [a / b]. *)
Definition py_truediv (a b : float) : result float :=
  if (b =? 0)%float then Raise ZeroDivisionError else Ok (a / b)%float.

(** [a / b] on two [int]s. *)
Definition py_int_truediv (a b : Z) : result float :=
  if b =? 0 then Raise ZeroDivisionError
  else
    let* fa := float_of_Z a in
    let* fb := float_of_Z b in
    Ok (fa / fb)%float.

(** The fractional part returned by [math.modf], which carries the sign of
    its argument. *)
Definition modf_frac (v : float) : float :=
  match Prim2SF v with
  | S754_finite s m e =>
      let signed_zero := if s then neg_zero else zero in
      if 0 <=? e then signed_zero
      else
        let t := Z.shiftl (Z.pos m) e in
        let whole := SF2Prim (binary_normalize prec emax (if s then - t else t) 0 false) in
        let r := (v - whole)%float in
        if (r =? 0)%float then signed_zero else r
  | S754_infinity s => if s then neg_zero else zero
  | _ => v
  end.

(** The three module-level seeds. *)
Record Seeds : Type := mkSeeds {
  SEED_ELEVATION : Z;
  SEED_MOISTURE : Z;
  SEED_TEMP : Z
}.

(** [random.randint(0, 10000)], three times, when the module is loaded. *)
Definition draw_seeds (rng : Rng) : Seeds * Rng :=
  let n := Z.to_nat 10001 in
  let '(a, rng1) := randbelow rng n in
  let '(b, rng2) := randbelow rng1 n in
  let '(c, rng3) := randbelow rng2 n in
  (mkSeeds (Z.of_nat a) (Z.of_nat b) (Z.of_nat c), rng3).

(** The running minima and maxima of pass 1. *)
Record Extremes : Type := mkExtremes {
  elev_min : float; elev_max : float;
  moist_min : float; moist_max : float;
  temp_min : float; temp_max : float
}.

Definition no_extremes : Extremes :=
  mkExtremes infinity neg_infinity infinity neg_infinity infinity neg_infinity.

Definition observe (acc : Extremes) (e m t : float) : Extremes :=
  mkExtremes (py_min (elev_min acc) e) (py_max (elev_max acc) e)
             (py_min (moist_min acc) m) (py_max (moist_max acc) m)
             (py_min (temp_min acc) t) (py_max (temp_max acc) t).

(** [hi - lo if hi > lo else 1.0] *)
Definition span (lo hi : float) : float :=
  if gtb hi lo then (hi - lo)%float else 1%float.


(** The library functions the generator calls: Perlin noise from the
    [noise] package, [math.sin], [math.cos] and the C [pow] behind the
    float [**]. *)
Record Externals : Type := mkExternals {
  pnoise2 : float -> float -> Z -> float -> float -> Z -> float;
      (* x, y, octaves, persistence, lacunarity, base *)
  math_sin : float -> float;
  math_cos : float -> float;
  math_pow : float -> float -> float
}.

Section Generator.
Variable ext : Externals.
Variable seeds : Seeds.

Local Open Scope float_scope.

(** [b ** e] for floats: a negative base with these fractional exponents
    gives a [complex], which the next [min]/[max] refuses to order. *)
Definition py_pow (b e : float) : result float :=
  if b <? 0 then Raise TypeError else Ok (math_pow ext b e).

Definition math_pi : float := 3.141592653589793.

Definition SCALE_ELEV_BASE : float := 40.0.
Definition SCALE_ELEV_CONTINENT : float := 120.0.
Definition SCALE_ELEV_WARP : float := 90.0.
Definition ELEVATION_WARP_STRENGTH : float := 8.0.
Definition SCALE_MOIST_BASE : float := 35.0.
Definition SCALE_MOIST_WARP : float := 110.0.
Definition MOISTURE_WARP_STRENGTH : float := 5.0.
Definition TEMPERATURE_WARP_SCALE : float := 70.0.
Definition HEX_NOISE_Y_SCALE : float := sqrt 3 / 2.
Definition ROTATE_ANGLE : float := math_pi / 4.
Definition ROTATE_COS : float := math_cos ext ROTATE_ANGLE.
Definition ROTATE_SIN : float := math_sin ext ROTATE_ANGLE.
Definition JITTER_STRENGTH_X : float := 0.75.
Definition JITTER_STRENGTH_Y : float := 0.65.
Definition OCTAVES : Z := 6%Z.

Definition NOISE_ROTATION_ANGLES : list float :=
  [0.0; math_pi / 3; 2 * math_pi / 3].

(** [(cos(theta), sin(theta), idx * 97)] for each angle. *)
Definition NOISE_ROTATION_PARAMS : list (float * float * Z) :=
  imap (fun idx theta => (math_cos ext theta, math_sin ext theta, (Z.of_nat idx * 97)%Z))
       NOISE_ROTATION_ANGLES.

(** [_pseudo_random] *)
Definition _pseudo_random (px py seed : float) : float :=
  let raw := math_sin ext ((px + seed * 0.37) * 12.9898 + (py + seed * 0.71) * 78.233)
             * 43758.5453123 in
  let frac := modf_frac raw in
  if geb frac 0 then frac else frac + 1.0.

(** [_sample_perlin] *)
Fixpoint _sample_perlin_acc (params : list (float * float * Z)) (acc : float)
    (px py scale : float) (base octaves : Z) (persistence lacunarity : float)
    : result float :=
  match params with
  | [] => Ok acc
  | (cos_a, sin_a, base_offset) :: rest =>
      let rx := px * cos_a - py * sin_a in
      let ry := px * sin_a + py * cos_a in
      let* sx := py_truediv rx scale in
      let* sy := py_truediv ry scale in
      _sample_perlin_acc rest
        (acc + pnoise2 ext sx sy octaves persistence lacunarity (base + base_offset)%Z)
        px py scale base octaves persistence lacunarity
  end.

Definition _sample_perlin (px py scale : float) (base octaves : Z)
    (persistence lacunarity : float) : result float :=
  let* acc := _sample_perlin_acc NOISE_ROTATION_PARAMS 0.0 px py scale base octaves
                persistence lacunarity in
  let* n := float_of_Z (Z.of_nat (length NOISE_ROTATION_PARAMS)) in
  py_truediv acc n.

(** The body of the first double loop of [generate_base_layers]: the raw
    elevation, moisture and temperature of slot [(cx, cy)]. *)
Definition raw_layers (h cx cy : Z) : result (float * float * float) :=
  let offset := if negb (cy mod 2 =? 0)%Z then 0.5 else 0.0 in
  let* fx := float_of_Z cx in
  let* fy := float_of_Z cy in
  let* fseed := float_of_Z (SEED_ELEVATION seeds) in
  let base_x := fx + offset in
  let base_y := fy * HEX_NOISE_Y_SCALE in
  let jitter_primary := _pseudo_random base_x base_y (fseed + 0.1234) in
  let jitter_secondary := _pseudo_random base_x base_y (fseed + 987.654) in
  let base_x := base_x + (jitter_primary - 0.5) * JITTER_STRENGTH_X in
  let base_y := base_y + (jitter_secondary - 0.5) * JITTER_STRENGTH_Y in
  let rot_base_x := base_x * ROTATE_COS - base_y * ROTATE_SIN in
  let rot_base_y := base_x * ROTATE_SIN + base_y * ROTATE_COS in
  let* wx := _sample_perlin rot_base_x rot_base_y SCALE_ELEV_WARP
               (SEED_ELEVATION seeds + 13)%Z 3%Z 0.4 2.1 in
  let warp_x := wx * ELEVATION_WARP_STRENGTH in
  let* wy := _sample_perlin (rot_base_x + 997) (rot_base_y + 421) SCALE_ELEV_WARP
               (SEED_ELEVATION seeds + 37)%Z 3%Z 0.4 2.1 in
  let warp_y := wy * ELEVATION_WARP_STRENGTH in
  let warp_x := warp_x * 0.8 in
  let warp_y := warp_y * 0.8 in
  let elev_x := (base_x + warp_x) * ROTATE_COS - (base_y + warp_y) * ROTATE_SIN in
  let elev_y := (base_x + warp_x) * ROTATE_SIN + (base_y + warp_y) * ROTATE_COS in
  let* cont_val := _sample_perlin elev_x elev_y SCALE_ELEV_CONTINENT
                     (SEED_ELEVATION seeds) 3%Z 0.5 1.8 in
  let* detail_val := _sample_perlin elev_x elev_y SCALE_ELEV_BASE
                       (SEED_ELEVATION seeds + 101)%Z OCTAVES 0.55 2.25 in
  let elev_val := (0.65 * cont_val) + (0.35 * detail_val) in
  let* elev_half := py_truediv (elev_val + 1.0) 2.0 in
  let elevation := clamp01 elev_half in
  let* mwx := _sample_perlin base_x base_y SCALE_MOIST_WARP
                (SEED_MOISTURE seeds + 19)%Z 2%Z 0.45 2.0 in
  let moist_warp_x := mwx * MOISTURE_WARP_STRENGTH in
  let* mwy := _sample_perlin (base_x + 503) (base_y + 211) SCALE_MOIST_WARP
                (SEED_MOISTURE seeds + 41)%Z 2%Z 0.45 2.0 in
  let moist_warp_y := mwy * MOISTURE_WARP_STRENGTH in
  let moist_x := (base_x + moist_warp_x) * ROTATE_COS - (base_y + moist_warp_y) * ROTATE_SIN in
  let moist_y := (base_x + moist_warp_x) * ROTATE_SIN + (base_y + moist_warp_y) * ROTATE_COS in
  let* moist_val := _sample_perlin moist_x moist_y SCALE_MOIST_BASE
                      (SEED_MOISTURE seeds) OCTAVES 0.5 2.1 in
  let* moist_half := py_truediv (moist_val + 1.0) 2.0 in
  let moisture := clamp01 moist_half in
  let* lat_factor := py_int_truediv cy h in
  let temp_x := (base_x + warp_x * 0.3) * ROTATE_COS - (base_y + warp_y * 0.3) * ROTATE_SIN in
  let temp_y := (base_x + warp_x * 0.3) * ROTATE_SIN + (base_y + warp_y * 0.3) * ROTATE_COS in
  let* tn := _sample_perlin temp_x temp_y TEMPERATURE_WARP_SCALE
               (SEED_TEMP seeds) 3%Z 0.5 2.0 in
  let temp_noise := tn * 0.25 in
  let temperature := lat_factor + temp_noise in
  let temperature := clamp01 temperature in
  Ok (elevation, moisture, temperature).

(** Pass 1: fill the grid and track the extremes. *)
Definition pass1_body (h cx cy : Z) (s : Grid * Extremes) : result (Grid * Extremes) :=
  let '(g, acc) := s in
  let* emt := raw_layers h cx cy in
  let '(e, m, t) := emt in
  let acc' := observe acc e m t in
  let* g' := store_cell g cx cy (new_HexData cx cy e m t DEEP_SEA) in
  Ok (g', acc').

(** The body of the second double loop: rescale to the observed range and
    couple the layers. *)
Definition normalize_cell (acc : Extremes) (cell : HexData) : result HexData :=
  let elev_span := span (elev_min acc) (elev_max acc) in
  let moist_span := span (moist_min acc) (moist_max acc) in
  let temp_span := span (temp_min acc) (temp_max acc) in
  let* elevation := py_truediv (elevation cell - elev_min acc) elev_span in
  let elevation := clamp01 elevation in
  let* elevation := py_pow elevation 1.2 in
  let* temperature := py_truediv (temperature cell - temp_min acc) temp_span in
  let temperature := clamp01 temperature in
  let temperature := temperature - (elevation - 0.5) * 0.35 in
  let temperature := clamp01 temperature in
  let* moisture := py_truediv (moisture cell - moist_min acc) moist_span in
  let moisture := clamp01 moisture in
  let moisture := if gtb elevation 0.65 then moisture * 0.85 else moisture in
  let moisture :=
    if elevation <? 0.35 then py_min 1.0 (moisture + (0.35 - elevation) * 0.6)
    else moisture in
  let moisture :=
    if gtb temperature 0.75 then py_max 0.0 (moisture - (temperature - 0.75) * 0.6)
    else if temperature <? 0.20 then py_min 1.0 (moisture + (0.20 - temperature) * 0.25)
    else moisture in
  let* moisture_p := py_pow moisture 1.1 in
  let moisture := clamp01 moisture_p in
  let temperature :=
    if gtb moisture 0.78 then temperature - 0.04
    else if moisture <? 0.20 then temperature + 0.03
    else temperature in
  let temperature := clamp01 temperature in
  Ok (set_layers elevation moisture temperature cell).

Definition pass2_body (acc : Extremes) (cx cy : Z) (g : Grid) : result Grid :=
  let* cell := get_cell g cx cy in
  let* cell' := normalize_cell acc cell in
  store_cell g cx cy cell'.

(** [WorldGenerator.generate_base_layers] *)
Definition generate_base_layers (w : WorldGenerator) : result WorldGenerator :=
  let* s := for_cells (width w) (height w) (pass1_body (height w)) (grid w, no_extremes) in
  let '(g1, acc) := s in
  let* g2 := for_cells (width w) (height w) (pass2_body acc) g1 in
  Ok (mkWorld (width w) (height w) g2).

(** The three passes, in the order the script runs them on a generator
    built for [w] by [h]. *)
Definition generate (w h : Z) (rng : Rng) : result (WorldGenerator * Rng) :=
  let* world := WorldGenerator_init w h in
  let* world := generate_base_layers world in
  let* out := generate_rivers world rng in
  let '(world, rng') := out in
  let* world := assign_biomes world in
  Ok (world, rng').
End Generator.

Definition MAP_WIDTH : Z := 200.
Definition MAP_HEIGHT : Z := 160.

(** The script from module load to the classified grid: the seeds come out
    of the same generator that hydrology later draws from. *)
Definition main (ext : Externals) (rng : Rng) : result (WorldGenerator * Rng) :=
  let '(seeds, rng1) := draw_seeds rng in
  generate ext seeds MAP_WIDTH MAP_HEIGHT rng1.

(** ** Positions, for stating properties of the grid *)

(** The slot at column [i], row [j], by position. *)
Definition slot_at (g : Grid) (i j : nat) : option (option HexData) :=
  match g !! i with
  | Some col => col !! j
  | None => None
  end.

Definition cell_at (g : Grid) (i j : nat) : option HexData :=
  match slot_at g i j with
  | Some (Some c) => Some c
  | _ => None
  end.

(** The position a Python index resolves to. *)
Definition resolve (len : nat) (i : Z) : option nat :=
  let j := py_norm_index (Z.of_nat len) i in
  if (0 <=? j) && (j <? Z.of_nat len) then Some (Z.to_nat j) else None.

(** The shape of a grid: [nw] columns of [nh] slots each. *)
Definition shape (g : Grid) (nw nh : nat) : Prop :=
  length g = nw /\ forall i col, g !! i = Some col -> length col = nh.

(** Every slot of the [nw] by [nh] rectangle holds a cell that knows its own
    coordinates: the state pass 1 leaves behind. *)
Definition populated (g : Grid) (nw nh : nat) : Prop :=
  forall i j, (i < nw)%nat -> (j < nh)%nat ->
    exists c, cell_at g i j = Some c /\ x c = Z.of_nat i /\ y c = Z.of_nat j.

Definition wf_grid (w h : Z) (g : Grid) : Prop :=
  shape g (Z.to_nat w) (Z.to_nat h) /\ populated g (Z.to_nat w) (Z.to_nat h).

Definition wf_world (w : WorldGenerator) : Prop :=
  wf_grid (width w) (height w) (grid w).

(** A lake flag never stands without the river flag. *)
Definition lake_implies_river (g : Grid) : Prop :=
  forall i j c, cell_at g i j = Some c -> is_lake c = true -> is_river c = true.

(** The shape of the loop bodies of pass 2 and of [assign_biomes]: read the
    cell of the slot, compute its new fields, write them back. *)
Definition cell_pass (F : HexData -> result HexData) (cx cy : Z) (g : Grid) : result Grid :=
  let* c := get_cell g cx cy in
  let* c' := F c in
  store_cell g cx cy c'.

(** Slot [(i', j')] comes before slot [(i, j)] in the order of the double loop. *)
Definition done_before (i j i' j' : nat) : Prop :=
  (i' < i)%nat \/ (i' = i /\ (j' < j)%nat).

(** ** Concrete inputs *)

(** A cell as pass 1 creates it, with the layers given. *)
Definition cell (cx cy : Z) (e m t : float) : option HexData :=
  Some (new_HexData cx cy e m t DEEP_SEA).

(** Scenario C of the specification: elevation 0.9, moisture 0.1,
    temperature 0.9. *)
Definition scenario_C : HexData := new_HexData 0 0 0.9 0.1 0.9 DEEP_SEA.

(** The same layers on flat land (elevation 0.5). *)
Definition scenario_C_flat : HexData := new_HexData 0 0 0.5 0.1 0.9 DEEP_SEA.

(** A freshly constructed 4 by 3 generator: cells [(1,1)] and [(2,1)] are
    interior and adjacent. *)
Definition world_4x3 : WorldGenerator :=
  mkWorld 4 3 (map (fun _ => map (fun _ => None) (py_range 3)) (py_range 4)).

(** The contract of the C library's [pow] that pass 2 relies on: raising a
    number of the unit interval to the power 1.2 stays in the unit
    interval. *)
Definition pow_unit (ext : Externals) : Prop :=
  forall b, in_unit b -> in_unit (math_pow ext b 1.2).

(** All three layers of a cell lie in the unit interval. *)
Definition layers_in_unit (c : HexData) : Prop :=
  in_unit (elevation c) /\ in_unit (moisture c) /\ in_unit (temperature c).

(** Stand-ins for the library functions, to run the generator on small
    maps: a noise field with a single step in its finest sample, no rotation
    and no jitter ([cos] constantly 1, [sin] constantly 0), and a [pow] that
    returns its base. *)
Definition step_noise (sx sy : float) (octaves : Z) (persistence lacunarity : float)
    (base : Z) : float :=
  if octaves =? 6 then (if (sx <? 0.01)%float then (-1)%float else 1%float)
  else 0%float.

Definition sample_externals : Externals :=
  mkExternals step_noise (fun _ => 0%float) (fun _ => 1%float) (fun b _ => b).

Definition sample_seeds : Seeds := mkSeeds 0 0 0.

(** A 3 by 1 map run with the stand-ins: the constructed generator, after
    layer synthesis, and after hydrology with the tape [[0]]. *)
Definition world_3x1 : WorldGenerator := mkWorld 3 1 [[None]; [None]; [None]].

Definition sample_layers : WorldGenerator :=
  match generate_base_layers sample_externals sample_seeds world_3x1 with
  | Ok w => w
  | Raise _ => world_3x1
  end.

Definition sample_rivers : WorldGenerator :=
  match generate_rivers sample_layers [O] with
  | Ok (w, _) => w
  | Raise _ => sample_layers
  end.

(** The target count in the words of the specification,
    [max(1, round(total_cells * 0.004))], with [round] to the nearest
    integer, ties to even, on the exact ratio. *)
Definition spec_round (num den : Z) : Z :=
  let f := num / den in
  let r := num mod den in
  if 2 * r <? den then f
  else if den <? 2 * r then f + 1
  else if Z.even f then f else f + 1.

Definition spec_target_springs (w h : Z) : Z :=
  Z.max 1 (spec_round (w * h * 4) 1000).

(** A 20 by 20 plateau: every cell at elevation 0.8. *)
Definition world_20x20 : WorldGenerator :=
  mkWorld 20 20
    (map (fun cx => map (fun cy => cell cx cy 0.8 0.5 0.5) (py_range 20)) (py_range 20)).

(** Scenario A of the specification: three cells in a row with elevations
    0.9, 0.5 and 0.2, laid out along [x] (3 by 1) or along [y] (1 by 3), and
    the same cells once flagged as river. *)
Definition river_cell (cx cy : Z) (e m t : float) : option HexData :=
  Some (set_is_river (new_HexData cx cy e m t DEEP_SEA)).

Definition scenario_A : WorldGenerator :=
  mkWorld 3 1 [[cell 0 0 0.9 0.5 0.5]; [cell 1 0 0.5 0.5 0.5]; [cell 2 0 0.2 0.5 0.5]].

Definition scenario_A_rivers : Grid :=
  [[river_cell 0 0 0.9 0.5 0.5]; [river_cell 1 0 0.5 0.5 0.5]; [river_cell 2 0 0.2 0.5 0.5]].

Definition scenario_A_column : WorldGenerator :=
  mkWorld 1 3 [[cell 0 0 0.9 0.5 0.5; cell 0 1 0.5 0.5 0.5; cell 0 2 0.2 0.5 0.5]].

Definition scenario_A_column_rivers : Grid :=
  [[river_cell 0 0 0.9 0.5 0.5; river_cell 0 1 0.5 0.5 0.5; river_cell 0 2 0.2 0.5 0.5]].

(** What each way of leaving the loop of a walk leaves behind; [cap] is the
    number of iterations at which the loop condition fails. *)
Definition walk_outcome_upto (cap : nat) (w h : Z) (r : WalkResult) : Prop :=
  let here := walk_at r in
  match walk_end r with
  | NoNeighbors => neighbor_refs w h (fst here) (snd here) = []
  | LocalMinimum =>
      exists c lowest lo,
        deref (walk_grid r) here = Ok c /\ is_lake c = true /\ is_river c = true /\
        lowest ∈ neighbor_refs w h (fst here) (snd here) /\
        deref (walk_grid r) lowest = Ok lo /\
        geb (elevation lo) (elevation c) = true
  | ReachedSea =>
      exists c mouth m,
        deref (walk_grid r) here = Ok c /\ is_river c = true /\
        mouth ∈ neighbor_refs w h (fst here) (snd here) /\
        deref (walk_grid r) mouth = Ok m /\
        (elevation m <? 0.3)%float = true /\ is_river m = true
  | StepCap => walk_steps r = cap
  end.

Definition walk_outcome (w h : Z) (r : WalkResult) : Prop :=
  walk_outcome_upto RIVER_MAX_STEPS w h r.

(** A single cell above the spring line. *)
Definition world_1x1 : WorldGenerator := mkWorld 1 1 [[cell 0 0 0.8 0.5 0.5]].

(** What a run hands to its consumers about terrain and water: per slot,
    the terrain label and the two flags. *)
Definition assignments (w : WorldGenerator) : list (list (option (TerrainType * bool * bool))) :=
  map (map (option_map (fun c => (terrain c, is_river c, is_lake c)))) (grid w).

(** The 3 by 1 map after the whole pipeline, with the tape [[0]]. *)
Definition sample_world : WorldGenerator :=
  match generate sample_externals sample_seeds 3 1 [O] with
  | Ok (w, _) => w
  | Raise _ => world_3x1
  end.

(** ** Binary64 rounding, for the arithmetic the passes rely on *)

(** The number of low bits rounding drops from the mantissa [m] at exponent [e]. *)
Definition shift_of (m e : Z) : Z := Z.max 0 (fexp prec emax (Zdigits2 m + e) - e).

(** Not below zero, as Python's [<] sees it (a NaN is not below zero). *)
Definition not_neg (v : float) : Prop := (v <? 0)%float = false.

(** ** Axial coordinates *)

(** [cartesian_to_axial]: the column is kept; the row is shifted by half the
    column, and by one more in odd columns. *)
Definition cartesian_to_axial (cx cy : Z) : Z * Z :=
  let q := cx in
  let r := if cx mod 2 =? 0 then cy - cx / 2 else cy - cx / 2 - 1 in
  (q, r).

(** The axial step from a cell to the cell one grid offset [d] away. *)
Definition axial_offset (cx cy : Z) (d : Z * Z) : Z * Z :=
  let a := cartesian_to_axial cx cy in
  let b := cartesian_to_axial (cx + fst d) (cy + snd d) in
  (fst b - fst a, snd b - snd a).


(** ** What hydrology may change *)

(** Hydrology writes [is_river = True] and [is_lake = True] and nothing
    else: a cell after it is the cell before with, at most, flags raised. *)
Definition flags_raised (c c' : HexData) : Prop :=
  x c' = x c /\ y c' = y c /\
  elevation c' = elevation c /\ moisture c' = moisture c /\
  temperature c' = temperature c /\ terrain c' = terrain c /\
  road_level c' = road_level c /\ dominion_id c' = dominion_id c /\
  (is_river c = true -> is_river c' = true) /\
  (is_lake c = true -> is_lake c' = true).

(** The same, slot by slot: an empty or missing slot stays as it is. *)
Definition grid_flags_raised (g g' : Grid) : Prop :=
  (forall nw nh, shape g nw nh -> shape g' nw nh) /\
  forall i j,
    match slot_at g i j with
    | Some (Some c) => exists c', slot_at g' i j = Some (Some c') /\ flags_raised c c'
    | s => slot_at g' i j = s
    end.

(** One step of a river: [b] is a neighbour of [a] and the comparison
    [b.elevation >= a.elevation] fails, both read in the grid [g]. *)
Definition flows_to (w h : Z) (g : Grid) (a b : CellRef) : Prop :=
  b ∈ neighbor_refs w h (fst a) (snd a) /\
  exists ca cb, deref g a = Ok ca /\ deref g b = Ok cb /\
                geb (elevation cb) (elevation ca) = false.

(** Every cell of the list flows to the next one. *)
Fixpoint downhill (w h : Z) (g : Grid) (l : list CellRef) : Prop :=
  match l with
  | [] => True
  | a :: tl =>
      match tl with
      | [] => True
      | b :: _ => flows_to w h g a b /\ downhill w h g tl
      end
  end.

(** Scenario A after classification. *)
Definition scenario_A_classified : WorldGenerator :=
  match assign_biomes scenario_A with
  | Ok w => w
  | Raise _ => scenario_A
  end.

(** ** Export to JSON *)

(** The values of the [TerrainType] enumeration. *)
Definition TerrainType_value (t : TerrainType) : string :=
  match t with
  | DEEP_SEA => "Deep Sea"
  | SEA => "Sea"
  | COAST => "Coast"
  | SWAMP => "Swamp"
  | DESERT => "Desert"
  | PLAINS => "Clear"
  | FOREST => "Forest"
  | HILLS => "Hills"
  | MOUNTAINS => "Mountains"
  | JUNGLE => "Jungle"
  | GLACIER => "Glacier"
  | BADLANDS => "Barren"
  end.

(** [str.lower] on text made of ASCII characters. *)
Definition ascii_lower (c : Ascii.ascii) : Ascii.ascii :=
  let n := Ascii.nat_of_ascii c in
  if (65 <=? n)%nat && (n <=? 90)%nat then Ascii.ascii_of_nat (n + 32) else c.

Fixpoint str_lower (s : string) : string :=
  match s with
  | EmptyString => EmptyString
  | String c s' => String (ascii_lower c) (str_lower s')
  end.

(** What [export_json] puts in a dictionary: integers and strings. *)
Inductive json : Type :=
| JInt (n : Z)
| JStr (s : string).

(** A [dict] with string keys, in insertion order (the order [json.dump]
    writes). *)
Abbreviation HexDict := (list (string * json)).

(** [d[k] = v]: an existing key keeps its place, a new one goes last. *)
Fixpoint dict_set (k : string) (v : json) (d : HexDict) : HexDict :=
  match d with
  | [] => [(k, v)]
  | (k', v') :: tl =>
      if String.eqb k k' then (k, v) :: tl else (k', v') :: dict_set k v tl
  end.

(** [d.get(k)] *)
Fixpoint dict_get (k : string) (d : HexDict) : option json :=
  match d with
  | [] => None
  | (k', v) :: tl => if String.eqb k k' then Some v else dict_get k tl
  end.

(** The body of the inner loop of [export_json]: the dictionary of one cell. *)
Definition export_hex_dict (hex : HexData) : HexDict :=
  let qr := cartesian_to_axial (x hex) (y hex) in
  let terrain_name := str_lower (TerrainType_value (terrain hex)) in
  let hex_dict := [("q", JInt (fst qr)); ("r", JInt (snd qr)); ("terrain", JStr terrain_name)] in
  if is_river hex then
    dict_set "details" (JStr "Fresh water source") (dict_set "feature" (JStr "River") hex_dict)
  else if is_lake hex then
    dict_set "details" (JStr "Standing water") (dict_set "feature" (JStr "Lake") hex_dict)
  else hex_dict.

(** [for hex in row]: a slot still holding [None] has no attribute [x]. *)
Fixpoint export_row (row : list (option HexData)) (hex_data : list HexDict)
    : result (list HexDict) :=
  match row with
  | [] => Ok hex_data
  | None :: _ => Raise AttributeError
  | Some hex :: tl => export_row tl (hex_data ++ [export_hex_dict hex])
  end.

(** [for row in self.grid] *)
Fixpoint export_rows (g : Grid) (hex_data : list HexDict) : result (list HexDict) :=
  match g with
  | [] => Ok hex_data
  | row :: tl =>
      let* hex_data' := export_row row hex_data in
      export_rows tl hex_data'
  end.

(** [WorldGenerator.export_json], up to the list [hex_data] handed to
    [json.dump]; writing the file happens inside [try], and any failure
    there is caught and printed. *)
Definition export_json (w : WorldGenerator) : result (list HexDict) :=
  export_rows (grid w) [].

(** The pair of axial coordinates an exported dictionary carries. *)
Definition axial_key (d : HexDict) : option json * option json :=
  (dict_get "q" d, dict_get "r" d).

(** The export of the 3 by 1 sample map. *)
Definition sample_export : list HexDict :=
  match export_json sample_world with
  | Ok l => l
  | Raise _ => []
  end.

(** ** The ASCII map *)

(** The character half of the [chars] table of [render_ascii_map]; every
    member of [TerrainType] is a key, so the ['?'] default of [chars.get]
    is never taken. *)
Definition chars (t : TerrainType) : string :=
  match t with
  | DEEP_SEA => " "
  | SEA => " "
  | COAST => "#"
  | SWAMP => "s"
  | DESERT => "."
  | PLAINS => "."
  | FOREST => "T"
  | JUNGLE => "&"
  | HILLS => "n"
  | MOUNTAINS => "^"
  | GLACIER => "*"
  | BADLANDS => "-"
  end.

(** [cell.terrain not in (TerrainType.SEA, TerrainType.DEEP_SEA)] *)
Definition not_sea (t : TerrainType) : bool :=
  match t with
  | SEA | DEEP_SEA => false
  | _ => true
  end.

(** The character drawn for a cell: lakes and rivers override the terrain. *)
Definition cell_char (cell : HexData) : string :=
  let char := chars (terrain cell) in
  if is_lake cell then "O"
  else if is_river cell && not_sea (terrain cell) then "~"
  else char.

(** [self.width if slice_width is None else max(1, min(self.width, slice_width))] *)
Definition effective (size : Z) (slice : option Z) : Z :=
  match slice with
  | None => size
  | Some s => Z.max 1 (Z.min size s)
  end.

Definition newline : string := String (Ascii.ascii_of_nat 10) "".

(** [str.strip()] on an ASCII string. *)
Definition is_py_space (c : Ascii.ascii) : bool :=
  let n := Ascii.nat_of_ascii c in
  ((9 <=? n)%nat && (n <=? 13)%nat) || ((28 <=? n)%nat && (n <=? 32)%nat).

Fixpoint str_lstrip (s : string) : string :=
  match s with
  | EmptyString => EmptyString
  | String c s' => if is_py_space c then str_lstrip s' else s
  end.

Fixpoint str_rstrip (s : string) : string :=
  match s with
  | EmptyString => EmptyString
  | String c s' =>
      match str_rstrip s' with
      | EmptyString => if is_py_space c then EmptyString else String c EmptyString
      | t => String c t
      end
  end.

Definition str_strip (s : string) : string := str_rstrip (str_lstrip s).

(** [s * n] *)
Fixpoint str_repeat (s : string) (n : nat) : string :=
  match n with
  | O => EmptyString
  | S n' => s +:+ str_repeat s n'
  end.

Definition map_heading (w : WorldGenerator) (ew eh : Z) : string :=
  let is_full_map := (ew =? width w) && (eh =? height w) in
  newline +:+ "--- WORLD MAP " +:+
  (if is_full_map then "FULL"
   else "PREVIEW (" +:+ pretty ew +:+ "x" +:+ pretty eh +:+ ")") +:+ " ---".

(** One row of the map: the inner loop over [x], after the one-space shift
    of the odd rows. *)
Definition plain_row (w : WorldGenerator) (ew cy : Z) : result string :=
  for_each (py_range ew)
    (fun cx plain_line =>
       let* cell := get_cell (grid w) cx cy in
       Ok (plain_line +:+ (cell_char cell +:+ " ")))
    (if negb (cy mod 2 =? 0) then " " else "").

(** [WorldGenerator.render_ascii_map]: the list [plain_lines], which is what
    is printed without colours and what is written to [to_file]. The
    coloured lines wrap each token in escape codes and are built by the same
    loops, reading the same slots. *)
Definition render_ascii_map (w : WorldGenerator) (slice_width slice_height : option Z)
    : result (list string) :=
  let effective_width := effective (width w) slice_width in
  let effective_height := effective (height w) slice_height in
  let heading := map_heading w effective_width effective_height in
  let footer := str_repeat "-" (String.length (str_strip heading)) in
  let* plain_lines :=
    for_each (py_range effective_height)
      (fun cy plain_lines =>
         let* plain_line := plain_row w effective_width cy in
         Ok (plain_lines ++ [plain_line]))
      [heading] in
  Ok (plain_lines ++ [footer]).


(** ** Saving to the database *)

(** One tuple of [data_rows], in the column order of the [INSERT]. *)
Record DataRow : Type := mkDataRow {
  hex_id : string;
  row_x : Z;
  row_y : Z;
  row_terrain : string;
  row_elevation : float;
  row_moisture : float;
  is_civilized : Z;
  resource_type : option string;
  owner_id : option Z
}.

(** The tuple appended for a cell [h]; [hex_id] is [f"{h.x},{h.y}"]. *)
Definition data_row (h : HexData) : DataRow :=
  let hex_id := pretty (x h) +:+ "," +:+ pretty (y h) in
  mkDataRow hex_id (x h) (y h) (TerrainType_value (terrain h))
            (elevation h) (moisture h) 0 None None.

(** [for h in row]: a slot still holding [None] has no attribute [x]. *)
Fixpoint save_row (row : list (option HexData)) (data_rows : list DataRow)
    : result (list DataRow) :=
  match row with
  | [] => Ok data_rows
  | None :: _ => Raise AttributeError
  | Some h :: tl => save_row tl (data_rows ++ [data_row h])
  end.

(** [for row in self.grid] *)
Fixpoint save_rows (g : Grid) (data_rows : list DataRow) : result (list DataRow) :=
  match g with
  | [] => Ok data_rows
  | row :: tl =>
      let* data_rows' := save_row row data_rows in
      save_rows tl data_rows'
  end.

(** [WorldGenerator.save_to_db], up to the list [data_rows] handed to
    [executemany]: [db_exists] is the answer of [os.path.exists(DB_PATH)],
    and without a database the method returns before it reads the grid
    ([None] here).  The rows are built outside the [try], so an error
    raised while building them is not caught. *)
Definition save_to_db (db_exists : bool) (w : WorldGenerator)
    : result (option (list DataRow)) :=
  if negb db_exists then Ok None
  else
    let* data_rows := save_rows (grid w) [] in
    Ok (Some data_rows).

(** The characters of a string, to state that a decimal numeral holds no
    comma. *)
Definition comma : Ascii.ascii := Ascii.ascii_of_nat 44.

Definition no_comma (s : string) : Prop :=
  Forall (fun c => c <> comma) (String.list_ascii_of_string s).

(** ** The script, from the command line to its outputs *)









(** A cell for each terrain the classifier can produce. *)
Definition biome_example (t : TerrainType) : HexData :=
  let mk e m tp := new_HexData 0 0 e m tp PLAINS in
  match t with
  | DEEP_SEA => mk 0.1 0.5 0.5
  | SEA => mk 0.2 0.5 0.5
  | COAST => mk 0.2 0.5 0.5
  | SWAMP => mk 0.5 0.8 0.5
  | DESERT => mk 0.5 0.1 0.9
  | PLAINS => mk 0.5 0.3 0.5
  | FOREST => mk 0.5 0.6 0.5
  | JUNGLE => mk 0.5 0.7 0.9
  | HILLS => mk 0.8 0.5 0.5
  | MOUNTAINS => mk 0.9 0.5 0.5
  | GLACIER => mk 0.5 0.5 0.1
  | BADLANDS => mk 0.5 0.1 0.5
  end%float.

(** A binary64 datum of sign [s] and magnitude at most one: a zero, or a
    finite number whose exponent and mantissa stay below those of [1.0]. *)
Definition small (s : bool) (v : spec_float) : Prop :=
  match v with
  | S754_zero s' => s' = s
  | S754_finite s' m e => s' = s /\ e <= -52 /\ (e = -52 -> Z.pos m <= 2 ^ 52)
  | _ => False
  end.

(** Externals whose sine is a tiny negative number, as [math.sin] is just
    below a multiple of pi. *)
Definition tiny_sine_externals : Externals :=
  mkExternals (fun _ _ _ _ _ _ => 0%float) (fun _ => (-1e-30)%float)
              (fun _ => 1%float) (fun b _ => b).

(** ** Topology: neighbourhood is symmetric *)

Lemma bind_Ok {A B} (m : result A) (k : A -> result B) (b : B) :
  bind m k = Ok b -> exists a, m = Ok a /\ k a = Ok b.
Proof. destruct m as [a|e]; simpl; [eauto | discriminate]. Qed.



Lemma elem_of_neighbor_refs (w h cx cy : Z) (r : CellRef) :
  r ∈ neighbor_refs w h cx cy <->
  in_bounds w h (fst r) (snd r) = true /\
  exists d, d ∈ directions cx /\ r = (cx + fst d, cy + snd d).
Proof.
  unfold neighbor_refs. rewrite list_elem_of_filter, list_elem_of_fmap.
  split; intros [Hb (d & H1 & H2)]; (split; [exact Hb|exists d; auto]).
Qed.

Lemma directions_cases (cx : Z) (d : Z * Z) :
  d ∈ directions cx ->
  (cx mod 2 = 0 /\
   (d = (0, -1) \/ d = (1, -1) \/ d = (1, 0) \/ d = (0, 1) \/ d = (-1, 0) \/ d = (-1, -1))) \/
  (cx mod 2 = 1 /\
   (d = (0, -1) \/ d = (1, 0) \/ d = (1, 1) \/ d = (0, 1) \/ d = (-1, 1) \/ d = (-1, 0))).
Proof.
  unfold directions. destruct (Z.eqb_spec (cx mod 2) 0) as [E|E]; simpl; intros H.
  - left. split; [exact E|]. unfold directions_even in H.
    repeat (apply elem_of_cons in H; destruct H as [H|H]; [tauto|]).
    apply elem_of_nil in H. contradiction.
  - right. split; [pose proof (Z.mod_pos_bound cx 2); lia|]. unfold directions_odd in H.
    repeat (apply elem_of_cons in H; destruct H as [H|H]; [tauto|]).
    apply elem_of_nil in H. contradiction.
Qed.

Lemma directions_even_of (cx : Z) : cx mod 2 = 0 -> directions cx = directions_even.
Proof. unfold directions. intros ->. reflexivity. Qed.

Lemma directions_odd_of (cx : Z) : cx mod 2 = 1 -> directions cx = directions_odd.
Proof. unfold directions. intros ->. reflexivity. Qed.

(** Shared by the claims on topology: any in-bounds cell is a neighbour of
    each of its neighbours. *)
Lemma neighbor_refs_sym (w h ax ay bx b_y : Z) :
  in_bounds w h ax ay = true ->
  (bx, b_y) ∈ neighbor_refs w h ax ay ->
  (ax, ay) ∈ neighbor_refs w h bx b_y.
Proof.
  intros HA HB. apply elem_of_neighbor_refs in HB as [_ (d & Hd & E)].
  apply elem_of_neighbor_refs. split; [exact HA|]. simpl.
  injection E as -> ->.
  apply directions_cases in Hd as [[P Hd]|[P Hd]];
    repeat (destruct Hd as [Hd|Hd]); subst d; simpl.
  all: match goal with
       | |- context [directions ?e] =>
           first [ rewrite (directions_even_of e) by (Z.to_euclidean_division_equations; lia)
                 | rewrite (directions_odd_of e) by (Z.to_euclidean_division_equations; lia) ]
       end.
  all: unfold directions_even, directions_odd.
  all: first
    [ exists (0, -1); split; [repeat constructor|f_equal; simpl; lia]
    | exists (1, -1); split; [repeat constructor|f_equal; simpl; lia]
    | exists (1, 0); split; [repeat constructor|f_equal; simpl; lia]
    | exists (1, 1); split; [repeat constructor|f_equal; simpl; lia]
    | exists (0, 1); split; [repeat constructor|f_equal; simpl; lia]
    | exists (-1, 1); split; [repeat constructor|f_equal; simpl; lia]
    | exists (-1, 0); split; [repeat constructor|f_equal; simpl; lia]
    | exists (-1, -1); split; [repeat constructor|f_equal; simpl; lia] ].
Qed.

(** ** Reading and writing slots *)


Lemma resolve_lt (len : nat) (i : Z) (k : nat) :
  resolve len i = Some k -> (k < len)%nat.
Proof.
  unfold resolve. destruct (_ && _) eqn:E; [|discriminate].
  intros [= <-]. apply andb_true_iff in E as [E1 E2]. lia.
Qed.

Lemma resolve_nonneg (len : nat) (i : Z) :
  0 <= i < Z.of_nat len -> resolve len i = Some (Z.to_nat i).
Proof.
  intros H. unfold resolve, py_norm_index.
  destruct (Z.ltb_spec i 0); [lia|].
  destruct (Z.leb_spec 0 i); [|lia]. destruct (Z.ltb_spec i (Z.of_nat len)); [|lia].
  reflexivity.
Qed.

Lemma py_getitem_Ok {A} (l : list A) (i : Z) (a : A) :
  py_getitem l i = Ok a <-> exists k, resolve (length l) i = Some k /\ l !! k = Some a.
Proof.
  unfold py_getitem, resolve.
  set (j := py_norm_index (Z.of_nat (length l)) i).
  destruct (Z.leb_spec 0 j) as [Hj|Hj]; simpl.
  - destruct (l !! Z.to_nat j) as [b|] eqn:E.
    + apply lookup_lt_Some in E as HL.
      destruct (Z.ltb_spec j (Z.of_nat (length l))); [|lia].
      split.
      * intros [= ->]. eauto.
      * intros (k & [= <-] & Hk). congruence.
    + split; [discriminate|].
      intros (k & Hk & Hl). destruct (_ <? _); [|discriminate].
      injection Hk as <-. congruence.
  - split; [discriminate|]. intros (k & Hk & _). discriminate.
Qed.

Lemma py_setitem_Ok {A} (l l' : list A) (i : Z) (a : A) :
  py_setitem l i a = Ok l' <-> exists k, resolve (length l) i = Some k /\ l' = <[k := a]> l.
Proof.
  unfold py_setitem, resolve.
  destruct (_ && _); split.
  - intros [= <-]. eauto.
  - intros (k & [= <-] & ->). reflexivity.
  - discriminate.
  - intros (k & Hk & _). discriminate.
Qed.

Lemma py_getitem_total {A} (l : list A) (i : Z) (k : nat) :
  resolve (length l) i = Some k -> exists a, py_getitem l i = Ok a /\ l !! k = Some a.
Proof.
  intros H. pose proof (resolve_lt _ _ _ H) as Hk.
  destruct (lookup_lt_is_Some_2 l k Hk) as [a Ha].
  exists a. split; [|exact Ha]. apply py_getitem_Ok. eauto.
Qed.

Lemma grid_slot_Ok (g : Grid) (cx cy : Z) (s : option HexData) :
  grid_slot g cx cy = Ok s <->
  exists i j col, resolve (length g) cx = Some i /\ g !! i = Some col /\
                  resolve (length col) cy = Some j /\ col !! j = Some s.
Proof.
  unfold grid_slot. split.
  - intros H. apply bind_Ok in H as (col & H1 & H2).
    apply py_getitem_Ok in H1 as (i & Hi & Hc).
    apply py_getitem_Ok in H2 as (j & Hj & Hs).
    exists i, j, col. auto.
  - intros (i & j & col & Hi & Hc & Hj & Hs).
    assert (E : py_getitem g cx = Ok col) by (apply py_getitem_Ok; eauto).
    rewrite E. simpl. apply py_getitem_Ok. eauto.
Qed.

Lemma get_cell_Ok (g : Grid) (cx cy : Z) (c : HexData) :
  get_cell g cx cy = Ok c <-> grid_slot g cx cy = Ok (Some c).
Proof.
  unfold get_cell. destruct (grid_slot g cx cy) as [[c'|]|e]; simpl;
    split; intros H; try discriminate; congruence.
Qed.

Lemma get_cell_cell_at (g : Grid) (cx cy : Z) (c : HexData) :
  get_cell g cx cy = Ok c -> exists i j, cell_at g i j = Some c.
Proof.
  intros H. apply get_cell_Ok, grid_slot_Ok in H as (i & j & col & _ & Hc & _ & Hs).
  exists i, j. unfold cell_at, slot_at. rewrite Hc, Hs. reflexivity.
Qed.

(** What a store does to the grid, position by position. *)
Lemma store_cell_Ok (g g' : Grid) (cx cy : Z) (c : HexData) :
  store_cell g cx cy c = Ok g' ->
  exists i j col,
    resolve (length g) cx = Some i /\ g !! i = Some col /\
    resolve (length col) cy = Some j /\
    g' = <[i := <[j := Some c]> col]> g.
Proof.
  unfold store_cell. intros H.
  apply bind_Ok in H as (col & H1 & H).
  apply bind_Ok in H as (col' & H2 & H3).
  apply py_getitem_Ok in H1 as (i & Hi & Hc).
  apply py_setitem_Ok in H2 as (j & Hj & ->).
  apply py_setitem_Ok in H3 as (i' & Hi' & ->).
  assert (i' = i) by congruence. subst i'.
  exists i, j, col. auto.
Qed.

Lemma slot_at_insert (g : Grid) (i j : nat) (col : list (option HexData))
    (s : option HexData) (i' j' : nat) :
  g !! i = Some col -> (j < length col)%nat ->
  slot_at (<[i := <[j := s]> col]> g) i' j' =
  if decide (i' = i /\ j' = j) then Some s else slot_at g i' j'.
Proof.
  intros Hc Hj. unfold slot_at.
  apply lookup_lt_Some in Hc as Hi.
  destruct (decide (i' = i)) as [->|Hne].
  - rewrite list_lookup_insert_eq by exact Hi. rewrite Hc.
    destruct (decide (j' = j)) as [->|Hnj].
    + rewrite list_lookup_insert_eq by exact Hj.
      rewrite decide_True by auto. reflexivity.
    + rewrite list_lookup_insert_ne by auto.
      rewrite decide_False by tauto. reflexivity.
  - rewrite list_lookup_insert_ne by auto.
    rewrite decide_False by tauto. reflexivity.
Qed.


Lemma shape_insert (g : Grid) (nw nh i j : nat) (col : list (option HexData))
    (s : option HexData) :
  shape g nw nh -> g !! i = Some col -> shape (<[i := <[j := s]> col]> g) nw nh.
Proof.
  intros [HL HC] Hc. split.
  - rewrite length_insert. exact HL.
  - intros i' col' H'. destruct (decide (i' = i)) as [->|Hne].
    + apply lookup_lt_Some in Hc as Hi.
      rewrite list_lookup_insert_eq in H' by exact Hi.
      injection H' as <-. rewrite length_insert. eauto.
    + rewrite list_lookup_insert_ne in H' by auto. eauto.
Qed.

Lemma store_cell_spec (g g' : Grid) (cx cy : Z) (c : HexData) :
  store_cell g cx cy c = Ok g' ->
  exists i j,
    resolve (length g) cx = Some i /\
    (forall i' j', slot_at g' i' j' =
                   if decide (i' = i /\ j' = j) then Some (Some c) else slot_at g i' j') /\
    (exists s, slot_at g i j = Some s) /\
    (forall col, g !! i = Some col -> resolve (length col) cy = Some j) /\
    (forall nw nh, shape g nw nh -> shape g' nw nh).
Proof.
  intros H. apply store_cell_Ok in H as (i & j & col & Hi & Hc & Hj & ->).
  pose proof (resolve_lt _ _ _ Hj) as Hlt.
  exists i, j. split; [exact Hi|]. split; [|split; [|split]].
  - intros i' j'. apply slot_at_insert; assumption.
  - unfold slot_at. rewrite Hc. apply lookup_lt_is_Some_2 in Hlt as [s Hs]. eauto.
  - intros col' Hc'. congruence.
  - intros nw nh Hs. eapply shape_insert; eauto.
Qed.

Lemma resolve_nonneg_inv (len : nat) (i : Z) (k : nat) :
  0 <= i -> resolve len i = Some k -> k = Z.to_nat i /\ (k < len)%nat.
Proof.
  intros Hi H. pose proof (resolve_lt _ _ _ H) as Hk. split; [|exact Hk].
  unfold resolve, py_norm_index in H.
  destruct (Z.ltb_spec i 0); [lia|].
  destruct (_ && _); [|discriminate]. congruence.
Qed.

Lemma get_cell_pos (g : Grid) (cx cy : Z) (c : HexData) :
  get_cell g cx cy = Ok c ->
  exists i j, resolve (length g) cx = Some i /\
              (forall col, g !! i = Some col -> resolve (length col) cy = Some j) /\
              cell_at g i j = Some c.
Proof.
  intros H. apply get_cell_Ok, grid_slot_Ok in H as (i & j & col & Hi & Hc & Hj & Hs).
  exists i, j. split; [exact Hi|]. split.
  - intros col' Hc'. congruence.
  - unfold cell_at, slot_at. rewrite Hc, Hs. reflexivity.
Qed.

Lemma get_cell_nonneg (g : Grid) (cx cy : Z) (c : HexData) :
  0 <= cx -> 0 <= cy ->
  get_cell g cx cy = Ok c <-> cell_at g (Z.to_nat cx) (Z.to_nat cy) = Some c.
Proof.
  intros Hx Hy. split.
  - intros H. apply get_cell_Ok, grid_slot_Ok in H as (i & j & col & Hi & Hc & Hj & Hs).
    apply resolve_nonneg_inv in Hi as [-> _]; [|exact Hx].
    apply resolve_nonneg_inv in Hj as [-> _]; [|exact Hy].
    unfold cell_at, slot_at. rewrite Hc, Hs. reflexivity.
  - unfold cell_at, slot_at. intros H.
    destruct (g !! Z.to_nat cx) as [col|] eqn:Hc; [|discriminate].
    destruct (col !! Z.to_nat cy) as [[c'|]|] eqn:Hs; try discriminate.
    injection H as ->.
    apply get_cell_Ok, grid_slot_Ok. exists (Z.to_nat cx), (Z.to_nat cy), col.
    apply lookup_lt_Some in Hc as HLc. apply lookup_lt_Some in Hs as HLs.
    repeat split; auto; apply resolve_nonneg; lia.
Qed.

(** What an in-place field update does to the grid. *)
Lemma update_cell_spec (g g' : Grid) (r : CellRef) (f : HexData -> HexData) :
  update_cell g r f = Ok g' ->
  exists i j c,
    deref g r = Ok c /\
    cell_at g i j = Some c /\
    (forall i' j', slot_at g' i' j' =
                   if decide (i' = i /\ j' = j) then Some (Some (f c)) else slot_at g i' j') /\
    (0 <= fst r -> 0 <= snd r -> i = Z.to_nat (fst r) /\ j = Z.to_nat (snd r)) /\
    (forall nw nh, shape g nw nh -> shape g' nw nh).
Proof.
  unfold update_cell. intros H. apply bind_Ok in H as (c & Hd & Hs).
  unfold deref in Hd.
  apply store_cell_Ok in Hs as (i & j & col & Hi & Hc & Hj & ->).
  pose proof (resolve_lt _ _ _ Hj) as Hlt.
  exists i, j, c. split; [exact Hd|].
  apply get_cell_Ok, grid_slot_Ok in Hd as (i2 & j2 & col2 & Hi2 & Hc2 & Hj2 & Hs2).
  assert (i2 = i) by congruence. subst i2.
  assert (col2 = col) by congruence. subst col2.
  assert (j2 = j) by congruence. subst j2.
  split; [|split; [|split]].
  - unfold cell_at, slot_at. rewrite Hc, Hs2. reflexivity.
  - intros i' j'. apply slot_at_insert; assumption.
  - intros Hx Hy.
    apply resolve_nonneg_inv in Hi as [-> _]; [|exact Hx].
    apply resolve_nonneg_inv in Hj as [-> _]; [|exact Hy]. auto.
  - intros nw nh Hsh. eapply shape_insert; eauto.
Qed.

Lemma cell_at_update (g g' : Grid) (i j : nat) (c' : HexData) :
  (forall i' j', slot_at g' i' j' =
                 if decide (i' = i /\ j' = j) then Some (Some c') else slot_at g i' j') ->
  forall i' j', cell_at g' i' j' =
                if decide (i' = i /\ j' = j) then Some c' else cell_at g i' j'.
Proof.
  intros H i' j'. unfold cell_at. rewrite H.
  destruct (decide (i' = i /\ j' = j)); reflexivity.
Qed.

Lemma update_cell_deref (g g' : Grid) (r : CellRef) (f : HexData -> HexData) :
  update_cell g r f = Ok g' ->
  exists c, deref g r = Ok c /\ deref g' r = Ok (f c).
Proof.
  unfold update_cell. intros H. apply bind_Ok in H as (c & Hd & Hs).
  exists c. split; [exact Hd|].
  apply store_cell_Ok in Hs as (i & j & col & Hi & Hc & Hj & ->).
  pose proof (resolve_lt _ _ _ Hi) as Hil. pose proof (resolve_lt _ _ _ Hj) as Hjl.
  unfold deref. apply get_cell_Ok, grid_slot_Ok.
  exists i, j, (<[j := Some (f c)]> col).
  rewrite !length_insert. repeat split; auto.
  - apply list_lookup_insert_eq. exact Hil.
  - apply list_lookup_insert_eq. exact Hjl.
Qed.

(** ** Hydrology keeps the lake flag under the river flag *)

Lemma set_river_keeps_invariant (g g' : Grid) (r : CellRef) :
  update_cell g r set_is_river = Ok g' ->
  lake_implies_river g -> lake_implies_river g'.
Proof.
  intros H Hinv. apply update_cell_spec in H as (i & j & c & _ & Hc & Hs & _).
  pose proof (cell_at_update _ _ _ _ _ Hs) as Hc'.
  intros i' j' c' Hat. rewrite Hc' in Hat.
  destruct (decide (i' = i /\ j' = j)).
  - injection Hat as <-. reflexivity.
  - eauto.
Qed.

Lemma set_lake_keeps_invariant (g g' : Grid) (r : CellRef) (c : HexData) :
  update_cell g r set_is_lake = Ok g' ->
  deref g r = Ok c -> is_river c = true ->
  lake_implies_river g -> lake_implies_river g'.
Proof.
  intros H Hd Hr Hinv. apply update_cell_spec in H as (i & j & c0 & Hd0 & Hc & Hs & _).
  assert (c0 = c) by congruence. subst c0.
  pose proof (cell_at_update _ _ _ _ _ Hs) as Hc'.
  intros i' j' c' Hat. rewrite Hc' in Hat.
  destruct (decide (i' = i /\ j' = j)).
  - injection Hat as <-. intros _. exact Hr.
  - eauto.
Qed.

Lemma river_walk_keeps_invariant (fuel : nat) :
  forall (w h : Z) (g : Grid) (rng : Rng) (cur : CellRef) (steps : nat)
         (path : list CellRef) (r : WalkResult),
    river_walk fuel w h g rng cur steps path = Ok r ->
    lake_implies_river g -> lake_implies_river (walk_grid r).
Proof.
  induction fuel as [|fuel IH]; intros w h g rng cur steps path r H Hinv; simpl in H.
  - injection H as <-. exact Hinv.
  - apply bind_Ok in H as (g1 & Hu & H).
    pose proof (set_river_keeps_invariant _ _ _ Hu Hinv) as Hinv1.
    apply update_cell_deref in Hu as (c0 & _ & Hcur).
    apply bind_Ok in H as (ns & Hn & H).
    destruct ns as [|n ns].
    + injection H as <-. exact Hinv1.
    + destruct (shuffle rng (n :: ns)) as [shuffled rng1].
      apply bind_Ok in H as (lowest & Hmin & H).
      apply bind_Ok in H as (lo & Hlo & H).
      apply bind_Ok in H as (cc & Hcc & H).
      destruct (geb (elevation lo) (elevation cc)).
      * apply bind_Ok in H as (g2 & Hu2 & H). injection H as <-. simpl.
        apply (set_lake_keeps_invariant _ _ _ _ Hu2 Hcur); [reflexivity | exact Hinv1].
      * destruct (elevation lo <? 0.3)%float.
        -- apply bind_Ok in H as (g2 & Hu2 & H). injection H as <-. simpl.
           eapply set_river_keeps_invariant; eauto.
        -- eapply IH; eauto.
Qed.

Lemma walk_springs_keeps_invariant (w h : Z) (springs : list CellRef) :
  forall (g : Grid) (rng : Rng) (g' : Grid) (rng' : Rng) (log : list WalkResult),
    walk_springs w h g rng springs = Ok (g', rng', log) ->
    lake_implies_river g -> lake_implies_river g'.
Proof.
  induction springs as [|spring rest IH]; intros g rng g' rng' log H Hinv.
  - injection H as <- <- <-. exact Hinv.
  - cbn [walk_springs] in H.
    apply bind_Ok in H as (s & Hs & H).
    apply bind_Ok in H as (at_spring & Hat & H).
    destruct (is_river at_spring).
    + eapply IH; eauto.
    + apply bind_Ok in H as (r & Hr & H).
      apply bind_Ok in H as ([[g2 rng2] log2] & Hw & H).
      injection H as <- <- <-.
      eapply IH; [exact Hw|].
      exact (river_walk_keeps_invariant _ _ _ _ _ _ _ _ _ Hr Hinv).
Qed.

Lemma generate_rivers_log_grid (w w' : WorldGenerator) (rng rng' : Rng)
    (log : list WalkResult) :
  generate_rivers_log w rng = Ok (w', rng', log) ->
  width w' = width w /\ height w' = height w /\
  exists springs rng1,
    select_springs w rng = Ok (springs, rng1) /\
    walk_springs (width w) (height w) (grid w) rng1 springs = Ok (grid w', rng', log).
Proof.
  unfold generate_rivers_log. intros H.
  apply bind_Ok in H as ([springs rng1] & Hs & H).
  apply bind_Ok in H as ([[g2 rng2] log2] & Hw & H).
  injection H as <- <- <-. simpl. eauto 6.
Qed.

Lemma generate_rivers_as_log (w w' : WorldGenerator) (rng rng' : Rng) :
  generate_rivers w rng = Ok (w', rng') <->
  exists log, generate_rivers_log w rng = Ok (w', rng', log).
Proof.
  unfold generate_rivers. split.
  - intros H. apply bind_Ok in H as ([[w2 rng2] log] & Hl & H).
    injection H as <- <-. eauto.
  - intros [log ->]. reflexivity.
Qed.

Lemma generate_rivers_keeps_invariant (w w' : WorldGenerator) (rng rng' : Rng) :
  generate_rivers w rng = Ok (w', rng') ->
  lake_implies_river (grid w) -> lake_implies_river (grid w').
Proof.
  intros H Hinv. apply generate_rivers_as_log in H as [log H].
  apply generate_rivers_log_grid in H as (_ & _ & springs & rng1 & _ & Hw).
  eapply walk_springs_keeps_invariant; eauto.
Qed.

(** ** Loop rules *)

Lemma for_each_seq_inv {St : Type} (I : nat -> St -> Prop) (body : Z -> St -> result St)
    (m : nat) :
  forall (a : nat) (s s' : St),
    I a s ->
    (forall k s1 s2, (a <= k < a + m)%nat -> I k s1 ->
                     body (Z.of_nat k) s1 = Ok s2 -> I (S k) s2) ->
    for_each (map Z.of_nat (seq a m)) body s = Ok s' ->
    I (a + m)%nat s'.
Proof.
  induction m as [|m IH]; intros a s s' H0 Hstep H; simpl in H.
  - injection H as <-. rewrite Nat.add_0_r. exact H0.
  - apply bind_Ok in H as (s1 & Hb & H).
    replace (a + S m)%nat with (S a + m)%nat by lia.
    apply (IH (S a) s1 s').
    + apply (Hstep a s s1); [lia | exact H0 | exact Hb].
    + intros k t1 t2 Hk. apply Hstep. lia.
    + exact H.
Qed.

Lemma for_each_inv {St : Type} (I : nat -> St -> Prop) (n : Z)
    (body : Z -> St -> result St) (s s' : St) :
  I O s ->
  (forall k s1 s2, (k < Z.to_nat n)%nat -> I k s1 ->
                   body (Z.of_nat k) s1 = Ok s2 -> I (S k) s2) ->
  for_each (py_range n) body s = Ok s' ->
  I (Z.to_nat n) s'.
Proof.
  intros H0 Hstep H.
  apply (for_each_seq_inv I body (Z.to_nat n) O s s' H0); [|exact H].
  intros k s1 s2 Hk. apply Hstep. lia.
Qed.

Lemma for_each_seq_total {St : Type} (I : nat -> St -> Prop) (body : Z -> St -> result St)
    (m : nat) :
  forall (a : nat) (s : St),
    I a s ->
    (forall k s1, (a <= k < a + m)%nat -> I k s1 ->
                  exists s2, body (Z.of_nat k) s1 = Ok s2 /\ I (S k) s2) ->
    exists s', for_each (map Z.of_nat (seq a m)) body s = Ok s' /\ I (a + m)%nat s'.
Proof.
  induction m as [|m IH]; intros a s H0 Hstep; simpl.
  - exists s. rewrite Nat.add_0_r. auto.
  - destruct (Hstep a s) as (s1 & Hb & H1); [lia | exact H0 |].
    rewrite Hb. simpl.
    replace (a + S m)%nat with (S a + m)%nat by lia.
    apply (IH (S a) s1 H1).
    intros k t1 Hk. apply Hstep. lia.
Qed.

Lemma for_each_total {St : Type} (I : nat -> St -> Prop) (n : Z)
    (body : Z -> St -> result St) (s : St) :
  I O s ->
  (forall k s1, (k < Z.to_nat n)%nat -> I k s1 ->
                exists s2, body (Z.of_nat k) s1 = Ok s2 /\ I (S k) s2) ->
  exists s', for_each (py_range n) body s = Ok s' /\ I (Z.to_nat n) s'.
Proof.
  intros H0 Hstep.
  apply (for_each_seq_total I body (Z.to_nat n) O s H0).
  intros k s1 Hk. apply Hstep. lia.
Qed.

(** The double loop: [I i j] holds when columns before [i] are done and, in
    column [i], the rows before [j]. *)
Lemma for_cells_inv {St : Type} (I : nat -> nat -> St -> Prop) (w h : Z)
    (body : Z -> Z -> St -> result St) (s s' : St) :
  I O O s ->
  (forall i t, I i (Z.to_nat h) t -> I (S i) O t) ->
  (forall i j s1 s2, (i < Z.to_nat w)%nat -> (j < Z.to_nat h)%nat -> I i j s1 ->
                     body (Z.of_nat i) (Z.of_nat j) s1 = Ok s2 -> I i (S j) s2) ->
  for_cells w h body s = Ok s' ->
  I (Z.to_nat w) O s'.
Proof.
  intros H0 Hroll Hstep H. unfold for_cells in H.
  eapply (for_each_inv (fun i t => I i O t)); [exact H0 | | exact H].
  cbv beta. intros i s1 s2 Hi H1 Hb.
  apply Hroll.
  eapply (for_each_inv (fun j t => I i j t)); [exact H1 | | exact Hb].
  cbv beta. intros j t1 t2 Hj. apply Hstep; assumption.
Qed.

Lemma for_cells_total {St : Type} (I : nat -> nat -> St -> Prop) (w h : Z)
    (body : Z -> Z -> St -> result St) (s : St) :
  I O O s ->
  (forall i t, I i (Z.to_nat h) t -> I (S i) O t) ->
  (forall i j s1, (i < Z.to_nat w)%nat -> (j < Z.to_nat h)%nat -> I i j s1 ->
                  exists s2, body (Z.of_nat i) (Z.of_nat j) s1 = Ok s2 /\ I i (S j) s2) ->
  exists s', for_cells w h body s = Ok s' /\ I (Z.to_nat w) O s'.
Proof.
  intros H0 Hroll Hstep. unfold for_cells.
  apply (for_each_total (fun i t => I i O t) w); [exact H0|].
  intros i s1 Hi H1.
  destruct (for_each_total (fun j t => I i j t) h
              (fun cy s2 => body (Z.of_nat i) cy s2) s1 H1) as (s2 & Hb & H2).
  - intros j t1 Hj. apply Hstep; assumption.
  - exists s2. split; [exact Hb | apply Hroll; exact H2].
Qed.

(** ** Passes that rewrite every cell in place *)

Lemma store_cell_at (g g' : Grid) (i j : nat) (c : HexData) :
  store_cell g (Z.of_nat i) (Z.of_nat j) c = Ok g' ->
  (forall i' j', slot_at g' i' j' =
                 if decide (i' = i /\ j' = j) then Some (Some c) else slot_at g i' j') /\
  (forall nw nh, shape g nw nh -> shape g' nw nh).
Proof.
  intros H. apply store_cell_Ok in H as (i0 & j0 & col & Hi & Hc & Hj & ->).
  apply resolve_nonneg_inv in Hi as [-> _]; [|lia].
  apply resolve_nonneg_inv in Hj as [-> Hlt]; [|lia].
  rewrite !Nat2Z.id in *. split.
  - intros i' j'. apply slot_at_insert; assumption.
  - intros nw nh Hs. eapply shape_insert; eauto.
Qed.

Lemma store_cell_total (g : Grid) (nw nh i j : nat) (c : HexData) :
  shape g nw nh -> (i < nw)%nat -> (j < nh)%nat ->
  exists g', store_cell g (Z.of_nat i) (Z.of_nat j) c = Ok g'.
Proof.
  intros [HL HC] Hi Hj. unfold store_cell.
  destruct (lookup_lt_is_Some_2 g i) as [col Hc]; [lia|].
  pose proof (HC _ _ Hc) as Hlen.
  assert (E1 : py_getitem g (Z.of_nat i) = Ok col).
  { apply py_getitem_Ok. exists i. split; [|exact Hc].
    rewrite <- (Nat2Z.id i) at 2. apply resolve_nonneg. lia. }
  rewrite E1. simpl.
  assert (E2 : py_setitem col (Z.of_nat j) (Some c) = Ok (<[j := Some c]> col)).
  { apply py_setitem_Ok. exists j. split; [|reflexivity].
    rewrite <- (Nat2Z.id j) at 2. apply resolve_nonneg. lia. }
  rewrite E2. simpl.
  exists (<[i := <[j := Some c]> col]> g).
  apply py_setitem_Ok. exists i. split; [|reflexivity].
  rewrite <- (Nat2Z.id i) at 2. apply resolve_nonneg. lia.
Qed.

Lemma get_cell_at (g : Grid) (i j : nat) (c : HexData) :
  get_cell g (Z.of_nat i) (Z.of_nat j) = Ok c <-> cell_at g i j = Some c.
Proof.
  rewrite get_cell_nonneg by lia. rewrite !Nat2Z.id. reflexivity.
Qed.

Lemma done_before_roll (i nh i' j' : nat) :
  (j' < nh)%nat -> done_before (S i) O i' j' <-> done_before i nh i' j'.
Proof. unfold done_before. lia. Qed.

Lemma done_before_step (i j i' j' : nat) :
  done_before i (S j) i' j' <-> done_before i j i' j' \/ (i' = i /\ j' = j).
Proof. unfold done_before. lia. Qed.

Lemma cell_pass_post (F : HexData -> result HexData) (R : HexData -> HexData -> Prop)
    (w h : Z) (g g' : Grid) :
  (forall c c', F c = Ok c' -> R c c') ->
  for_cells w h (cell_pass F) g = Ok g' ->
  (forall nw nh, shape g nw nh -> shape g' nw nh) /\
  (forall i j, (i < Z.to_nat w)%nat -> (j < Z.to_nat h)%nat ->
     exists c c', cell_at g i j = Some c /\ cell_at g' i j = Some c' /\ R c c') /\
  (forall i j, ~ ((i < Z.to_nat w)%nat /\ (j < Z.to_nat h)%nat) ->
     slot_at g' i j = slot_at g i j).
Proof.
  intros HF H.
  pose (I := fun (i j : nat) (s : Grid) =>
    (forall nw nh, shape g nw nh -> shape s nw nh) /\
    (forall i' j', done_before i j i' j' -> (j' < Z.to_nat h)%nat ->
       exists c c', cell_at g i' j' = Some c /\ cell_at s i' j' = Some c' /\ R c c') /\
    (forall i' j', ~ (done_before i j i' j' /\ (j' < Z.to_nat h)%nat) ->
       slot_at s i' j' = slot_at g i' j')).
  assert (HI : I (Z.to_nat w) O g').
  { apply (for_cells_inv I w h (cell_pass F) g g'); [| | |exact H]; unfold I.
    - split; [auto|split].
      + intros i' j' [Hd|[_ Hd]] _; lia.
      + auto.
    - intros i t (Hs & Hdone & Hrest). split; [exact Hs|split].
      + intros i' j' Hd Hj. apply Hdone; [|exact Hj]. apply done_before_roll; assumption.
      + intros i' j' Hn. apply Hrest. intros [Hd Hj]. apply Hn. split; [|exact Hj].
        apply done_before_roll with (nh := Z.to_nat h); assumption.
    - intros i j s1 s2 Hi Hj (Hs & Hdone & Hrest) Hb.
      unfold cell_pass in Hb.
      apply bind_Ok in Hb as (c & Hg & Hb). apply bind_Ok in Hb as (c' & Hc' & Hst).
      apply get_cell_at in Hg.
      apply store_cell_at in Hst as [Hslot Hshape].
      pose proof (cell_at_update _ _ _ _ _ Hslot) as Hcell.
      assert (Hold : cell_at g i j = Some c).
      { unfold cell_at in *. rewrite <- Hrest; [exact Hg|].
        intros [[Hd|[_ Hd]] _]; lia. }
      split; [|split].
      + intros nw nh Hsh. auto.
      + intros i' j' Hd Hj'. rewrite Hcell.
        destruct (decide (i' = i /\ j' = j)) as [[-> ->]|Hne].
        * exists c, c'. auto.
        * apply done_before_step in Hd as [Hd|Hd]; [|tauto]. auto.
      + intros i' j' Hn. rewrite Hslot.
        destruct (decide (i' = i /\ j' = j)) as [[-> ->]|Hne].
        * exfalso. apply Hn. split; [|exact Hj]. apply done_before_step. auto.
        * apply Hrest. intros [Hd Hj']. apply Hn. split; [|exact Hj'].
          apply done_before_step. auto. }
  destruct HI as (Hs & Hdone & Hrest). split; [exact Hs|split].
  - intros i j Hi Hj. apply Hdone; [|exact Hj]. left. exact Hi.
  - intros i j Hn. apply Hrest. intros [[Hd|[_ Hd]] Hj]; [|lia]. tauto.
Qed.

Lemma get_cell_in_shape (g : Grid) (nw nh : nat) (cx cy : Z) (c : HexData) :
  shape g nw nh -> get_cell g cx cy = Ok c ->
  exists i j, (i < nw)%nat /\ (j < nh)%nat /\ cell_at g i j = Some c.
Proof.
  intros [HL HC] H.
  apply get_cell_Ok, grid_slot_Ok in H as (i & j & col & Hi & Hc & Hj & Hs).
  exists i, j. split; [|split].
  - apply resolve_lt in Hi. lia.
  - apply resolve_lt in Hj. rewrite (HC _ _ Hc) in Hj. exact Hj.
  - unfold cell_at, slot_at. rewrite Hc, Hs. reflexivity.
Qed.

Lemma py_range_length (n : Z) : length (py_range n) = Z.to_nat n.
Proof. unfold py_range. rewrite length_map, length_seq. reflexivity. Qed.

Lemma init_shape (w h : Z) (world : WorldGenerator) :
  WorldGenerator_init w h = Ok world ->
  width world = w /\ height world = h /\
  shape (grid world) (Z.to_nat w) (Z.to_nat h) /\
  (forall i j, (i < Z.to_nat w)%nat -> (j < Z.to_nat h)%nat ->
               slot_at (grid world) i j = Some None).
Proof.
  unfold WorldGenerator_init. intros [= <-]. simpl.
  split; [reflexivity|]. split; [reflexivity|]. split; [split|].
  - rewrite length_map. apply py_range_length.
  - intros i col Hc. apply list_lookup_fmap_Some in Hc as (z & -> & _).
    rewrite length_map. apply py_range_length.
  - intros i j Hi Hj. unfold slot_at.
    destruct (lookup_lt_is_Some_2 (py_range w) i) as [z Hz];
      [rewrite py_range_length; exact Hi|].
    rewrite list_lookup_fmap, Hz. simpl.
    destruct (lookup_lt_is_Some_2 (py_range h) j) as [z' Hz'];
      [rewrite py_range_length; exact Hj|].
    rewrite list_lookup_fmap, Hz'. reflexivity.
Qed.

(** ** Biome classification never yields the coast label *)

Lemma biome_of_not_coast (h : HexData) : biome_of h <> COAST.
Proof.
  unfold biome_of.
  repeat match goal with
         | |- context [if ?b then _ else _] => destruct b
         end; discriminate.
Qed.

Lemma assign_biomes_spec (w w' : WorldGenerator) :
  assign_biomes w = Ok w' ->
  width w' = width w /\ height w' = height w /\
  (forall nw nh, shape (grid w) nw nh -> shape (grid w') nw nh) /\
  (forall i j, (i < Z.to_nat (width w))%nat -> (j < Z.to_nat (height w))%nat ->
     exists c, cell_at (grid w) i j = Some c /\
               cell_at (grid w') i j = Some (set_terrain (biome_of c) c)) /\
  (forall i j, ~ ((i < Z.to_nat (width w))%nat /\ (j < Z.to_nat (height w))%nat) ->
     slot_at (grid w') i j = slot_at (grid w) i j).
Proof.
  unfold assign_biomes. intros H. apply bind_Ok in H as (g' & Hg & H).
  injection H as <-. simpl. split; [reflexivity|]. split; [reflexivity|].
  change (for_cells (width w) (height w)
            (cell_pass (fun h => Ok (set_terrain (biome_of h) h))) (grid w) = Ok g') in Hg.
  apply (cell_pass_post _ (fun c c' => c' = set_terrain (biome_of c) c)) in Hg
    as (Hs & Hcells & Hrest).
  - split; [exact Hs|]. split; [|exact Hrest]. intros i j Hi Hj.
    destruct (Hcells i j Hi Hj) as (c & c' & Hc & Hc' & ->). eauto.
  - intros c c' [= <-]. reflexivity.
Qed.

Lemma fetch_all_Ok (g : Grid) (rs l : list CellRef) :
  fetch_all g rs = Ok l -> l = rs.
Proof.
  revert l. induction rs as [|r rs IH]; intros l H; simpl in H.
  - congruence.
  - apply bind_Ok in H as (s & _ & H). apply bind_Ok in H as (tl & Ht & H).
    injection H as <-. f_equal. auto.
Qed.

Lemma interior_in_bounds (w h cx cy : Z) :
  interior w h cx cy -> in_bounds w h cx cy = true.
Proof.
  unfold interior. intros H.
  assert (H1 : in_bounds w h (cx + 0) (cy + -1) = true).
  { rewrite Forall_forall in H. apply (H (0, -1)).
    unfold directions. destruct (negb _); repeat constructor. }
  assert (H2 : in_bounds w h (cx + 0) (cy + 1) = true).
  { rewrite Forall_forall in H. apply (H (0, 1)).
    unfold directions. destruct (negb _); repeat constructor. }
  unfold in_bounds in *.
  repeat rewrite andb_true_iff in *. lia.
Qed.

(** C7: for interior cells A and B, if B is among the neighbours returned
    for A then A is among the neighbours returned for B. *)
Theorem get_neighbors_symmetric (world : WorldGenerator) (ax ay bx b_y : Z)
    (na nb : list CellRef) :
  interior (width world) (height world) ax ay ->
  interior (width world) (height world) bx b_y ->
  get_neighbors world ax ay = Ok na ->
  get_neighbors world bx b_y = Ok nb ->
  (bx, b_y) ∈ na -> (ax, ay) ∈ nb.
Proof.
  intros HA _ Hna Hnb HB. unfold get_neighbors in *.
  apply fetch_all_Ok in Hna, Hnb. subst na nb.
  apply neighbor_refs_sym; [apply interior_in_bounds; exact HA | exact HB].
Qed.

Lemma get_neighbors_symmetric_witness :
  (1, 1) ∈ [(2, 0); (3, 0); (3, 1); (2, 2); (1, 1); (1, 0)].
Proof.
  apply (get_neighbors_symmetric world_4x3 1 1 2 1
           [(1, 0); (2, 1); (2, 2); (1, 2); (0, 2); (0, 1)]
           [(2, 0); (3, 0); (3, 1); (2, 2); (1, 1); (1, 0)]).
  - repeat constructor.
  - repeat constructor.
  - reflexivity.
  - reflexivity.
  - repeat constructor.
Defined.

(** C10: whatever the layers and flags, classification never yields the
    coast label, so after [assign_biomes] no cell of the grid carries it. *)
Theorem assign_biomes_never_coast :
  (forall h : HexData, biome_of h <> COAST) /\
  (forall (w w' : WorldGenerator) (cx cy : Z) (c : HexData),
     shape (grid w) (Z.to_nat (width w)) (Z.to_nat (height w)) ->
     assign_biomes w = Ok w' ->
     get_cell (grid w') cx cy = Ok c ->
     terrain c <> COAST).
Proof.
  split; [exact biome_of_not_coast|].
  intros w w' cx cy c Hs H Hc.
  apply assign_biomes_spec in H as (_ & _ & Hs' & Hcells & _).
  apply (get_cell_in_shape _ _ _ _ _ _ (Hs' _ _ Hs)) in Hc as (i & j & Hi & Hj & Hc).
  destruct (Hcells i j Hi Hj) as (c0 & _ & Hc').
  rewrite Hc in Hc'. injection Hc' as ->. simpl. apply biome_of_not_coast.
Qed.

(** C3, as stated, fails: scenario C is not classified as desert. *)
Lemma scenario_C_not_desert :
  ~ (biome_of scenario_C = DESERT /\ biome_of (set_is_river scenario_C) = DESERT).
Proof. vm_compute. intros [H _]. discriminate. Qed.

(** C3, amended: elevation 0.9 is above the 0.85 mountain line and
    temperature 0.9 is not below 0.2, so scenario C is classified as
    mountains, with or without the river flag. *)
Theorem scenario_C_mountains :
  biome_of scenario_C = MOUNTAINS /\ biome_of (set_is_river scenario_C) = MOUNTAINS.
Proof. split; vm_compute; reflexivity. Qed.

(** On flat land the same layers give desert without a river and swamp with
    one: in binary64, [0.1 + 0.2] is strictly above [0.3]. *)
Example scenario_C_flat_land :
  biome_of scenario_C_flat = DESERT /\
  biome_of (set_is_river scenario_C_flat) = SWAMP /\
  (0.3 <? 0.1 + 0.2)%float = true.
Proof. repeat split; vm_compute; reflexivity. Qed.

(** ** The clamp lands in the unit interval *)

Lemma float_ltb_leb (a b : float) : (a <? b)%float = true -> (a <=? b)%float = true.
Proof.
  rewrite ltb_spec, leb_spec. unfold SFltb, SFleb.
  destruct (SFcompare (Prim2SF a) (Prim2SF b)) as [[| |]|]; congruence.
Qed.

Lemma clamp01_in_unit (v : float) : in_unit (clamp01 v).
Proof.
  unfold in_unit, clamp01, py_max, py_min.
  destruct (v <? 1)%float eqn:Hv.
  - destruct (0 <? v)%float eqn:H0.
    + split; apply float_ltb_leb; assumption.
    + split; reflexivity.
  - split; reflexivity.
Qed.

Lemma normalize_cell_spec (ext : Externals) (acc : Extremes) (c c' : HexData) :
  normalize_cell ext acc c = Ok c' ->
  exists e m t, c' = set_layers e m t c /\ in_unit m /\ in_unit t /\
                (pow_unit ext -> in_unit e).
Proof.
  unfold normalize_cell. intros H.
  apply bind_Ok in H as (e0 & _ & H).
  apply bind_Ok in H as (e & He & H).
  apply bind_Ok in H as (t0 & _ & H).
  apply bind_Ok in H as (m0 & _ & H).
  apply bind_Ok in H as (mp & _ & H).
  injection H as <-.
  do 3 eexists. split; [reflexivity|].
  split; [apply clamp01_in_unit|]. split; [apply clamp01_in_unit|].
  intros Hpow. unfold py_pow in He.
  destruct (clamp01 e0 <? 0)%float; [discriminate|].
  injection He as <-. apply Hpow, clamp01_in_unit.
Qed.

(** ** Layer synthesis fills the grid *)

Lemma pass1_spec (ext : Externals) (seeds : Seeds) (w h : Z) (g0 g1 : Grid)
    (acc : Extremes) :
  for_cells w h (pass1_body ext seeds h) (g0, no_extremes) = Ok (g1, acc) ->
  (forall nw nh, shape g0 nw nh -> shape g1 nw nh) /\
  (forall i j, (i < Z.to_nat w)%nat -> (j < Z.to_nat h)%nat ->
     exists e m t,
       cell_at g1 i j = Some (new_HexData (Z.of_nat i) (Z.of_nat j) e m t DEEP_SEA)).
Proof.
  intros H.
  pose (I := fun (i j : nat) (s : Grid * Extremes) =>
    (forall nw nh, shape g0 nw nh -> shape (fst s) nw nh) /\
    (forall i' j', done_before i j i' j' -> (j' < Z.to_nat h)%nat ->
       exists e m t,
         cell_at (fst s) i' j' =
         Some (new_HexData (Z.of_nat i') (Z.of_nat j') e m t DEEP_SEA))).
  assert (HI : I (Z.to_nat w) O (g1, acc)).
  { apply (for_cells_inv I w h (pass1_body ext seeds h) (g0, no_extremes) (g1, acc));
      [| | |exact H]; unfold I.
    - split; [auto|]. intros i' j' [Hd|[_ Hd]] _; lia.
    - intros i t [Hs Hdone]. split; [exact Hs|].
      intros i' j' Hd Hj. apply Hdone; [|exact Hj]. apply done_before_roll; assumption.
    - intros i j [g a] s2 Hi Hj [Hs Hdone] Hb. simpl in Hs, Hdone.
      unfold pass1_body in Hb.
      apply bind_Ok in Hb as ([[e m] t] & _ & Hb).
      apply bind_Ok in Hb as (g' & Hst & Hb). injection Hb as <-. simpl.
      apply store_cell_at in Hst as [Hslot Hshape].
      pose proof (cell_at_update _ _ _ _ _ Hslot) as Hcell.
      split; [auto|].
      intros i' j' Hd Hj'. rewrite Hcell.
      destruct (decide (i' = i /\ j' = j)) as [[-> ->]|Hne].
      + eauto.
      + apply done_before_step in Hd as [Hd|Hd]; [|tauto]. auto. }
  destruct HI as [Hs Hdone]. simpl in Hs, Hdone. split; [exact Hs|].
  intros i j Hi Hj. apply Hdone; [|exact Hj]. left. exact Hi.
Qed.

Lemma generate_base_layers_spec (ext : Externals) (seeds : Seeds)
    (w0 w1 : WorldGenerator) :
  generate_base_layers ext seeds w0 = Ok w1 ->
  width w1 = width w0 /\ height w1 = height w0 /\
  (forall nw nh, shape (grid w0) nw nh -> shape (grid w1) nw nh) /\
  (forall i j, (i < Z.to_nat (width w0))%nat -> (j < Z.to_nat (height w0))%nat ->
     exists c, cell_at (grid w1) i j = Some c /\
               x c = Z.of_nat i /\ y c = Z.of_nat j /\
               is_river c = false /\ is_lake c = false /\ terrain c = DEEP_SEA /\
               in_unit (moisture c) /\ in_unit (temperature c) /\
               (pow_unit ext -> in_unit (elevation c))).
Proof.
  unfold generate_base_layers. intros H.
  apply bind_Ok in H as ([g1 acc] & H1 & H).
  apply bind_Ok in H as (g2 & H2 & H). injection H as <-. simpl.
  apply pass1_spec in H1 as [Hs1 Hc1].
  change (for_cells (width w0) (height w0) (cell_pass (normalize_cell ext acc)) g1 = Ok g2)
    in H2.
  apply (cell_pass_post _ (fun c c' => normalize_cell ext acc c = Ok c')) in H2
    as (Hs2 & Hc2 & _); [|auto].
  split; [reflexivity|]. split; [reflexivity|]. split; [auto|].
  intros i j Hi Hj.
  destruct (Hc1 i j Hi Hj) as (e & m & t & Hraw).
  destruct (Hc2 i j Hi Hj) as (c & c' & Hc & Hc' & Hn).
  rewrite Hraw in Hc. injection Hc as <-.
  apply normalize_cell_spec in Hn as (e' & m' & t' & -> & Hm & Ht & He).
  exists (set_layers e' m' t' (new_HexData (Z.of_nat i) (Z.of_nat j) e m t DEEP_SEA)).
  simpl. repeat split; auto; try apply Hm; try apply Ht; apply He; assumption.
Qed.

(** C2: after pass 2 every cell of the grid of a constructed generator has
    its elevation, moisture and temperature in the closed unit interval
    (the elevation, which is not clamped after its power, through the
    contract of [pow]). *)
Theorem layers_in_unit_after_pass2 (ext : Externals) (seeds : Seeds) (w h : Z)
    (world0 world1 : WorldGenerator) (cx cy : Z) (c : HexData) :
  pow_unit ext ->
  WorldGenerator_init w h = Ok world0 ->
  generate_base_layers ext seeds world0 = Ok world1 ->
  get_cell (grid world1) cx cy = Ok c ->
  layers_in_unit c.
Proof.
  intros Hpow H0 H1 Hc.
  apply init_shape in H0 as (Hw & Hh & Hs & _).
  apply generate_base_layers_spec in H1 as (_ & _ & Hs1 & Hcells).
  rewrite Hw, Hh in Hcells.
  apply (get_cell_in_shape _ _ _ _ _ _ (Hs1 _ _ Hs)) in Hc as (i & j & Hi & Hj & Hc).
  destruct (Hcells i j Hi Hj) as (c1 & Hc1 & _ & _ & _ & _ & _ & Hm & Ht & He).
  rewrite Hc in Hc1. injection Hc1 as <-.
  split; [apply He; exact Hpow|]. split; assumption.
Qed.

Lemma layers_in_unit_witness :
  layers_in_unit (mkHexData 1 0 1 0.9 0 DEEP_SEA false false 0 None).
Proof.
  eapply (layers_in_unit_after_pass2 sample_externals sample_seeds 3 1 _ _ 1 0).
  - intros b Hb. exact Hb.
  - reflexivity.
  - vm_compute. reflexivity.
  - vm_compute. reflexivity.
Defined.

(** ** The flags along the pipeline *)

Lemma cell_at_in_shape (g : Grid) (nw nh i j : nat) (c : HexData) :
  shape g nw nh -> cell_at g i j = Some c -> (i < nw)%nat /\ (j < nh)%nat.
Proof.
  intros [HL HC] H. unfold cell_at, slot_at in H.
  destruct (g !! i) as [col|] eqn:Hc; [|discriminate].
  destruct (col !! j) as [s|] eqn:Hs; [|discriminate].
  apply lookup_lt_Some in Hc as Hi. apply lookup_lt_Some in Hs as Hj.
  rewrite (HC _ _ Hc) in Hj. lia.
Qed.

Lemma assign_biomes_keeps_invariant (w w' : WorldGenerator) :
  assign_biomes w = Ok w' ->
  lake_implies_river (grid w) -> lake_implies_river (grid w').
Proof.
  intros H Hinv. apply assign_biomes_spec in H as (_ & _ & _ & Hcells & Hrest).
  intros i j c Hc Hl.
  destruct (decide ((i < Z.to_nat (width w))%nat /\ (j < Z.to_nat (height w))%nat))
    as [[Hi Hj]|Hn].
  - destruct (Hcells i j Hi Hj) as (c0 & Hc0 & Hc').
    rewrite Hc in Hc'. injection Hc' as ->. simpl in *. eauto.
  - unfold cell_at in Hc. rewrite (Hrest i j Hn) in Hc. eapply Hinv; eauto.
Qed.

(** C9: a cell is created with both flags false, and from the end of the
    hydrology pass on, through classification, a lake flag implies the river
    flag on every cell. *)
Theorem lake_flag_implies_river_flag (ext : Externals) (seeds : Seeds) (w h : Z)
    (world0 world1 world2 : WorldGenerator) (rng rng' : Rng) :
  WorldGenerator_init w h = Ok world0 ->
  generate_base_layers ext seeds world0 = Ok world1 ->
  generate_rivers world1 rng = Ok (world2, rng') ->
  (forall cx cy c, get_cell (grid world1) cx cy = Ok c ->
                   is_river c = false /\ is_lake c = false) /\
  (forall cx cy c, get_cell (grid world2) cx cy = Ok c ->
                   is_lake c = true -> is_river c = true) /\
  (forall world3 cx cy c, assign_biomes world2 = Ok world3 ->
                          get_cell (grid world3) cx cy = Ok c ->
                          is_lake c = true -> is_river c = true).
Proof.
  intros H0 H1 H2.
  apply init_shape in H0 as (Hw & Hh & Hs & _).
  apply generate_base_layers_spec in H1 as (_ & _ & Hs1 & Hcells).
  rewrite Hw, Hh in Hcells. specialize (Hs1 _ _ Hs).
  assert (Hfresh : forall i j c, cell_at (grid world1) i j = Some c ->
                                 is_river c = false /\ is_lake c = false).
  { intros i j c Hc.
    destruct (cell_at_in_shape _ _ _ _ _ _ Hs1 Hc) as [Hi Hj].
    destruct (Hcells i j Hi Hj) as (c1 & Hc1 & _ & _ & Hr & Hl & _).
    rewrite Hc in Hc1. injection Hc1 as <-. auto. }
  assert (Hinv1 : lake_implies_river (grid world1)).
  { intros i j c Hc Hl. apply Hfresh in Hc as [_ Hc]. congruence. }
  pose proof (generate_rivers_keeps_invariant _ _ _ _ H2 Hinv1) as Hinv2.
  split; [|split].
  - intros cx cy c Hc. apply get_cell_cell_at in Hc as (i & j & Hc). eauto.
  - intros cx cy c Hc. apply get_cell_cell_at in Hc as (i & j & Hc). eauto.
  - intros world3 cx cy c H3 Hc.
    pose proof (assign_biomes_keeps_invariant _ _ H3 Hinv2) as Hinv3.
    apply get_cell_cell_at in Hc as (i & j & Hc). eauto.
Qed.

Lemma lake_flag_implies_river_flag_witness :
  (forall cx cy c, get_cell (grid sample_layers) cx cy = Ok c ->
                   is_river c = false /\ is_lake c = false) /\
  (forall cx cy c, get_cell (grid sample_rivers) cx cy = Ok c ->
                   is_lake c = true -> is_river c = true) /\
  (forall world3 cx cy c, assign_biomes sample_rivers = Ok world3 ->
                          get_cell (grid world3) cx cy = Ok c ->
                          is_lake c = true -> is_river c = true).
Proof.
  apply (lake_flag_implies_river_flag sample_externals sample_seeds 3 1
           world_3x1 sample_layers sample_rivers [O] []).
  - reflexivity.
  - vm_compute. reflexivity.
  - vm_compute. reflexivity.
Defined.

(** ** Shuffling permutes *)

Lemma swap_Permutation {A} (l : list A) (i j : nat) : swap l i j ≡ₚ l.
Proof.
  unfold swap.
  destruct (l !! i) as [a|] eqn:Hi; [|reflexivity].
  destruct (l !! j) as [b|] eqn:Hj; [|reflexivity].
  apply lookup_lt_Some in Hi as Hil. apply lookup_lt_Some in Hj as Hjl.
  apply Permutation_inj. split; [rewrite !length_insert; reflexivity|].
  exists (fun k => if decide (k = j) then i else if decide (k = i) then j else k).
  split.
  - intros k1 k2. repeat case_decide; intros; subst; congruence.
  - intros k. repeat case_decide; subst.
    + rewrite list_lookup_insert_eq by (rewrite length_insert; exact Hjl). congruence.
    + rewrite list_lookup_insert_ne by congruence.
      rewrite list_lookup_insert_eq by exact Hil. congruence.
    + rewrite !list_lookup_insert_ne by congruence. reflexivity.
Qed.

Lemma shuffle_from_Permutation {A} (i : nat) :
  forall (g : Rng) (l : list A), (shuffle_from i g l).1 ≡ₚ l.
Proof.
  induction i as [|i IH]; intros g l; simpl; [reflexivity|].
  destruct (randbelow g (S (S i))) as [j g'].
  rewrite IH. apply swap_Permutation.
Qed.

Lemma shuffle_Permutation {A} (g : Rng) (l : list A) : (shuffle g l).1 ≡ₚ l.
Proof. apply shuffle_from_Permutation. Qed.

(** ** Spring selection *)

Lemma candidate_springs_spec (g : Grid) (rs l : list CellRef) :
  candidate_springs g rs = Ok l ->
  l `sublist_of` rs /\
  (forall r, r ∈ l <->
             r ∈ rs /\ exists c, deref g r = Ok c /\
                                 geb (elevation c) SPRING_MIN_ELEVATION = true).
Proof.
  revert l. induction rs as [|r rs IH]; intros l H; simpl in H.
  - injection H as <-. split; [constructor|].
    intros r. split; [intros Hr|intros [Hr _]]; inversion Hr.
  - apply bind_Ok in H as (c & Hc & H). apply bind_Ok in H as (tl & Htl & H).
    destruct (IH tl Htl) as [Hsub Hmem].
    destruct (geb (elevation c) SPRING_MIN_ELEVATION) eqn:Hge; injection H as <-.
    + split; [constructor; exact Hsub|].
      intros r'. rewrite !elem_of_cons, Hmem. split.
      * intros [->|[Hr Hex]]; [|tauto]. split; [tauto|]. eauto.
      * intros [[->|Hr] Hex]; tauto.
    + split; [constructor; exact Hsub|].
      intros r'. rewrite elem_of_cons, Hmem. split.
      * intros [Hr Hex]. tauto.
      * intros [[->|Hr] (c' & Hc' & Hge')]; [|eauto].
        exfalso. congruence.
Qed.

Lemma target_springs_Ok (w h t : Z) :
  target_springs w h = Ok t <->
  exists cells n, float_of_Z (w * h) = Ok cells /\
                  py_int (cells * SPRING_DENSITY)%float = Ok n /\
                  t = Z.max 1 n.
Proof.
  unfold target_springs. split.
  - intros H. apply bind_Ok in H as (cells & Hc & H).
    apply bind_Ok in H as (n & Hn & H). injection H as <-.
    exists cells, n. repeat split; auto.
    destruct (Z.ltb_spec 1 n); lia.
  - intros (cells & n & -> & Hn & ->). simpl. rewrite Hn. simpl.
    f_equal. destruct (Z.ltb_spec 1 n); lia.
Qed.

(** C5, as stated, fails: on a 20 by 20 plateau (400 cells, all of them
    candidates) one spring is selected, where rounding 1.6 would give two. *)
Lemma springs_not_rounded :
  exists candidates springs rng',
    candidate_springs (grid world_20x20) (all_refs 20 20) = Ok candidates /\
    select_springs world_20x20 [] = Ok (springs, rng') /\
    length candidates = 400%nat /\
    length springs = 1%nat /\
    Z.min (Z.of_nat (length candidates)) (spec_target_springs 20 20) = 2.
Proof.
  destruct (candidate_springs (grid world_20x20) (all_refs 20 20)) as [cands|e] eqn:Hc;
    [|vm_compute in Hc; discriminate].
  destruct (select_springs world_20x20 []) as [[springs rng']|e] eqn:Hs;
    [|vm_compute in Hs; discriminate].
  exists cands, springs, rng'.
  split; [reflexivity|]. split; [reflexivity|].
  vm_compute in Hc. injection Hc as <-.
  vm_compute in Hs. injection Hs as <- <-.
  repeat split.
Qed.

(** C5, amended: the springs selected are as many as the smaller of the
    number of candidates (the cells with elevation at least 0.7) and
    [max(1, int(width * height * 0.004))], the product being truncated, and
    they are drawn from the candidates without repetition. *)
Theorem springs_selected (w : WorldGenerator) (rng rng' : Rng) (springs : list CellRef) :
  select_springs w rng = Ok (springs, rng') ->
  exists candidates,
    candidate_springs (grid w) (all_refs (width w) (height w)) = Ok candidates /\
    (forall r, r ∈ candidates <->
               r ∈ all_refs (width w) (height w) /\
               exists c, deref (grid w) r = Ok c /\
                         geb (elevation c) SPRING_MIN_ELEVATION = true) /\
    springs ⊆+ candidates /\
    (candidates = [] -> springs = []) /\
    (candidates <> [] ->
       exists cells n,
         float_of_Z (width w * height w) = Ok cells /\
         py_int (cells * SPRING_DENSITY)%float = Ok n /\
         Z.of_nat (length springs) = Z.min (Z.of_nat (length candidates)) (Z.max 1 n)).
Proof.
  unfold select_springs. intros H.
  apply bind_Ok in H as (cands & Hc & H).
  exists cands. split; [exact Hc|].
  apply candidate_springs_spec in Hc as [_ Hmem]. split; [exact Hmem|].
  destruct cands as [|c0 cands].
  - injection H as <- <-. split; [reflexivity|]. split; [reflexivity|congruence].
  - pose proof (shuffle_Permutation rng (c0 :: cands)) as Hperm.
    destruct (shuffle rng (c0 :: cands)) as [shuffled rng1]. simpl in Hperm.
    apply bind_Ok in H as (target & Ht & H). injection H as <- <-.
    split; [|split; [discriminate|]].
    + rewrite <- Hperm. apply submseteq_take.
    + intros _. apply target_springs_Ok in Ht as (cells & n & Hcells & Hn & ->).
      exists cells, n. split; [exact Hcells|]. split; [exact Hn|].
      rewrite length_take. rewrite <- (Permutation_length Hperm). lia.
Qed.

Lemma springs_selected_witness :
  exists candidates,
    candidate_springs (grid sample_layers) (all_refs 3 1) = Ok candidates /\
    (forall r, r ∈ candidates <->
               r ∈ all_refs 3 1 /\
               exists c, deref (grid sample_layers) r = Ok c /\
                         geb (elevation c) SPRING_MIN_ELEVATION = true) /\
    [(2, 0)] ⊆+ candidates /\
    (candidates = [] -> [(2, 0)] = @nil CellRef) /\
    (candidates <> [] ->
       exists cells n,
         float_of_Z (3 * 1) = Ok cells /\
         py_int (cells * SPRING_DENSITY)%float = Ok n /\
         Z.of_nat (length [(2, 0)]) = Z.min (Z.of_nat (length candidates)) (Z.max 1 n)).
Proof.
  apply (springs_selected sample_layers [O] [] [(2, 0)]).
  vm_compute. reflexivity.
Defined.

(** ** One iteration of a walk, by the way it ends *)

Lemma river_walk_alone (fuel : nat) (w h : Z) (g g1 : Grid) (rng : Rng)
    (cur : CellRef) (steps : nat) (path : list CellRef) :
  update_cell g cur set_is_river = Ok g1 ->
  get_neighbors (mkWorld w h g1) (fst cur) (snd cur) = Ok [] ->
  river_walk (S fuel) w h g rng cur steps path =
  Ok (mkWalk g1 rng (S steps) NoNeighbors cur (path ++ [cur])).
Proof. intros H1 H2. cbn [river_walk]. rewrite H1. cbn [bind]. rewrite H2. reflexivity. Qed.

Lemma river_walk_lake (fuel : nat) (w h : Z) (g g1 g2 : Grid) (rng rng1 : Rng)
    (cur : CellRef) (steps : nat) (path : list CellRef) (n : CellRef)
    (ns shuffled : list CellRef) (lowest : CellRef) (lo cc : HexData) :
  update_cell g cur set_is_river = Ok g1 ->
  get_neighbors (mkWorld w h g1) (fst cur) (snd cur) = Ok (n :: ns) ->
  shuffle rng (n :: ns) = (shuffled, rng1) ->
  min_by_elevation g1 shuffled = Ok lowest ->
  deref g1 lowest = Ok lo -> deref g1 cur = Ok cc ->
  geb (elevation lo) (elevation cc) = true ->
  update_cell g1 cur set_is_lake = Ok g2 ->
  river_walk (S fuel) w h g rng cur steps path =
  Ok (mkWalk g2 rng1 (S steps) LocalMinimum cur (path ++ [cur])).
Proof.
  intros H1 H2 H3 H4 H5 H6 H7 H8. cbn [river_walk].
  rewrite H1. cbn [bind]. rewrite H2. cbn [bind]. rewrite H3, H4. cbn [bind].
  rewrite H5. cbn [bind]. rewrite H6. cbn [bind]. rewrite H7, H8. reflexivity.
Qed.

Lemma river_walk_sea (fuel : nat) (w h : Z) (g g1 g2 : Grid) (rng rng1 : Rng)
    (cur : CellRef) (steps : nat) (path : list CellRef) (n : CellRef)
    (ns shuffled : list CellRef) (lowest : CellRef) (lo cc : HexData) :
  update_cell g cur set_is_river = Ok g1 ->
  get_neighbors (mkWorld w h g1) (fst cur) (snd cur) = Ok (n :: ns) ->
  shuffle rng (n :: ns) = (shuffled, rng1) ->
  min_by_elevation g1 shuffled = Ok lowest ->
  deref g1 lowest = Ok lo -> deref g1 cur = Ok cc ->
  geb (elevation lo) (elevation cc) = false ->
  (elevation lo <? 0.3)%float = true ->
  update_cell g1 lowest set_is_river = Ok g2 ->
  river_walk (S fuel) w h g rng cur steps path =
  Ok (mkWalk g2 rng1 (S steps) ReachedSea cur ((path ++ [cur]) ++ [lowest])).
Proof.
  intros H1 H2 H3 H4 H5 H6 H7 H8 H9. cbn [river_walk].
  rewrite H1. cbn [bind]. rewrite H2. cbn [bind]. rewrite H3, H4. cbn [bind].
  rewrite H5. cbn [bind]. rewrite H6. cbn [bind]. rewrite H7, H8, H9. reflexivity.
Qed.

Lemma river_walk_move (fuel : nat) (w h : Z) (g g1 : Grid) (rng rng1 : Rng)
    (cur : CellRef) (steps : nat) (path : list CellRef) (n : CellRef)
    (ns shuffled : list CellRef) (lowest : CellRef) (lo cc : HexData) :
  update_cell g cur set_is_river = Ok g1 ->
  get_neighbors (mkWorld w h g1) (fst cur) (snd cur) = Ok (n :: ns) ->
  shuffle rng (n :: ns) = (shuffled, rng1) ->
  min_by_elevation g1 shuffled = Ok lowest ->
  deref g1 lowest = Ok lo -> deref g1 cur = Ok cc ->
  geb (elevation lo) (elevation cc) = false ->
  (elevation lo <? 0.3)%float = false ->
  river_walk (S fuel) w h g rng cur steps path =
  river_walk fuel w h g1 rng1 (x lo, y lo) (S steps) (path ++ [cur]).
Proof.
  intros H1 H2 H3 H4 H5 H6 H7 H8. cbn [river_walk].
  rewrite H1. cbn [bind]. rewrite H2. cbn [bind]. rewrite H3, H4. cbn [bind].
  rewrite H5. cbn [bind]. rewrite H6. cbn [bind]. rewrite H7, H8. reflexivity.
Qed.

Lemma walk_springs_walk (w h : Z) (g g' : Grid) (rng rng' : Rng) (spring : CellRef)
    (rest : list CellRef) (s at_spring : HexData) (r : WalkResult)
    (log : list WalkResult) :
  deref g spring = Ok s ->
  get_cell g (x s) (y s) = Ok at_spring ->
  is_river at_spring = false ->
  river_walk RIVER_MAX_STEPS w h g rng (x s, y s) 0 [] = Ok r ->
  walk_springs w h (walk_grid r) (walk_rng r) rest = Ok (g', rng', log) ->
  walk_springs w h g rng (spring :: rest) = Ok (g', rng', r :: log).
Proof.
  intros H1 H2 H3 H4 H5. cbn [walk_springs].
  rewrite H1. cbn [bind]. rewrite H2. cbn [bind]. rewrite H3, H4. cbn [bind].
  rewrite H5. reflexivity.
Qed.

Lemma shuffle_two {A} (g : Rng) (a b : A) :
  shuffle g [a; b] = ([a; b], tail g) \/ shuffle g [a; b] = ([b; a], tail g).
Proof.
  unfold shuffle. change (length [a; b] - 1)%nat with 1%nat. cbn [shuffle_from].
  destruct g as [|r g]; cbn [randbelow tail].
  - right. reflexivity.
  - assert (Hr : (r mod 2 < 2)%nat) by (apply Nat.mod_upper_bound; lia).
    destruct (r mod 2)%nat as [|[|k]]; [right|left|lia]; reflexivity.
Qed.

(** ** Scenario A *)

Ltac run := vm_compute; reflexivity.

Lemma scenario_A_row_walk (rng : Rng) :
  river_walk RIVER_MAX_STEPS 3 1 (grid scenario_A) rng (0, 0) 0 [] =
  Ok (mkWalk scenario_A_rivers (tail rng) 2 ReachedSea (1, 0) [(0, 0); (1, 0); (2, 0)]).
Proof.
  change RIVER_MAX_STEPS with (S (S 998)).
  eapply eq_trans.
  { eapply river_walk_move; [run | run | run | run | run | run | run | run]. }
  destruct (shuffle_two rng (2, 0) (0, 0)) as [Hsh|Hsh].
  - eapply eq_trans.
    { eapply river_walk_sea; [run | run | exact Hsh | run | run | run | run | run | run]. }
    reflexivity.
  - eapply eq_trans.
    { eapply river_walk_sea; [run | run | exact Hsh | run | run | run | run | run | run]. }
    reflexivity.
Qed.

Lemma scenario_A_column_walk (rng : Rng) :
  river_walk RIVER_MAX_STEPS 1 3 (grid scenario_A_column) rng (0, 0) 0 [] =
  Ok (mkWalk scenario_A_column_rivers (tail rng) 2 ReachedSea (0, 1)
        [(0, 0); (0, 1); (0, 2)]).
Proof.
  change RIVER_MAX_STEPS with (S (S 998)).
  eapply eq_trans.
  { eapply river_walk_move; [run | run | run | run | run | run | run | run]. }
  destruct (shuffle_two rng (0, 0) (0, 2)) as [Hsh|Hsh].
  - eapply eq_trans.
    { eapply river_walk_sea; [run | run | exact Hsh | run | run | run | run | run | run]. }
    reflexivity.
  - eapply eq_trans.
    { eapply river_walk_sea; [run | run | exact Hsh | run | run | run | run | run | run]. }
    reflexivity.
Qed.

(** C8: on the three-cell row with elevations 0.9, 0.5, 0.2 the only
    candidate is position 0; the walk from it marks position 0, moves to
    position 1, marks it, finds position 2 below the sea threshold, marks it
    and stops there.  All three cells end flagged river and none lake,
    whatever the random generator delivers (one draw is used, to shuffle the
    two neighbours of position 1). *)
Theorem scenario_A_rivers_reach_the_sea (rng : Rng) :
  generate_rivers_log scenario_A rng =
    Ok (mkWorld 3 1 scenario_A_rivers, tail rng,
        [mkWalk scenario_A_rivers (tail rng) 2 ReachedSea (1, 0)
           [(0, 0); (1, 0); (2, 0)]]) /\
  generate_rivers_log scenario_A_column rng =
    Ok (mkWorld 1 3 scenario_A_column_rivers, tail rng,
        [mkWalk scenario_A_column_rivers (tail rng) 2 ReachedSea (0, 1)
           [(0, 0); (0, 1); (0, 2)]]).
Proof.
  split; unfold generate_rivers_log.
  - assert (Hsel : select_springs scenario_A rng = Ok ([(0, 0)], rng)) by run.
    rewrite Hsel. cbn [bind].
    erewrite walk_springs_walk;
      [reflexivity | run | run | run | apply scenario_A_row_walk | reflexivity].
  - assert (Hsel : select_springs scenario_A_column rng = Ok ([(0, 0)], rng)) by run.
    rewrite Hsel. cbn [bind].
    erewrite walk_springs_walk;
      [reflexivity | run | run | run | apply scenario_A_column_walk | reflexivity].
Qed.

(** ** Walks on a well-formed grid *)

Lemma in_bounds_iff (w h cx cy : Z) :
  in_bounds w h cx cy = true <-> 0 <= cx < w /\ 0 <= cy < h.
Proof. unfold in_bounds. rewrite !andb_true_iff. lia. Qed.

Lemma deref_wf (w h : Z) (g : Grid) (cx cy : Z) :
  wf_grid w h g -> in_bounds w h cx cy = true ->
  exists c, get_cell g cx cy = Ok c /\ x c = cx /\ y c = cy.
Proof.
  intros [_ Hpop] Hb. apply in_bounds_iff in Hb as [Hx Hy].
  destruct (Hpop (Z.to_nat cx) (Z.to_nat cy)) as (c & Hc & Hcx & Hcy); [lia|lia|].
  exists c. split; [apply get_cell_nonneg; [lia|lia|exact Hc]|]. lia.
Qed.

Lemma update_cell_wf (w h : Z) (g : Grid) (r : CellRef) (f : HexData -> HexData) :
  wf_grid w h g -> in_bounds w h (fst r) (snd r) = true ->
  (forall c, x (f c) = x c /\ y (f c) = y c) ->
  exists g' c,
    update_cell g r f = Ok g' /\ deref g r = Ok c /\ wf_grid w h g' /\
    forall i' j', cell_at g' i' j' =
                  if decide (i' = Z.to_nat (fst r) /\ j' = Z.to_nat (snd r))
                  then Some (f c) else cell_at g i' j'.
Proof.
  intros Hwf Hb Hf.
  destruct (deref_wf _ _ _ _ _ Hwf Hb) as (c & Hc & Hcx & Hcy).
  destruct Hwf as [Hs Hpop]. apply in_bounds_iff in Hb as [Hx Hy].
  destruct (store_cell_total g _ _ (Z.to_nat (fst r)) (Z.to_nat (snd r)) (f c) Hs)
    as [g' Hst]; [lia|lia|].
  rewrite !Z2Nat.id in Hst by lia.
  exists g', c. unfold update_cell, deref. rewrite Hc. cbn [bind].
  split; [exact Hst|]. split; [reflexivity|].
  rewrite <- (Z2Nat.id (fst r)), <- (Z2Nat.id (snd r)) in Hst by lia.
  apply store_cell_at in Hst as [Hslot Hshape].
  pose proof (cell_at_update _ _ _ _ _ Hslot) as Hcell.
  split; [|exact Hcell]. split; [auto|].
  intros i j Hi Hj. rewrite Hcell.
  destruct (decide (i = Z.to_nat (fst r) /\ j = Z.to_nat (snd r))) as [[-> ->]|Hne].
  - exists (f c). destruct (Hf c) as [-> ->]. split; [reflexivity|]. lia.
  - apply Hpop; assumption.
Qed.

Lemma fetch_all_total (g : Grid) (rs : list CellRef) :
  (forall r, r ∈ rs -> exists s, grid_slot g (fst r) (snd r) = Ok s) ->
  fetch_all g rs = Ok rs.
Proof.
  induction rs as [|r rs IH]; intros H; simpl; [reflexivity|].
  destruct (H r) as [s Hs]; [left|]. rewrite Hs. cbn [bind].
  rewrite IH; [reflexivity|]. intros r' Hr'. apply H. right. exact Hr'.
Qed.

Lemma neighbor_refs_in_bounds (w h cx cy : Z) (r : CellRef) :
  r ∈ neighbor_refs w h cx cy -> in_bounds w h (fst r) (snd r) = true.
Proof. intros H. apply elem_of_neighbor_refs in H as [H _]. exact H. Qed.

Lemma get_neighbors_wf (w h : Z) (g : Grid) (cx cy : Z) :
  wf_grid w h g ->
  get_neighbors (mkWorld w h g) cx cy = Ok (neighbor_refs w h cx cy).
Proof.
  intros Hwf. unfold get_neighbors. simpl. apply fetch_all_total.
  intros r Hr. apply neighbor_refs_in_bounds in Hr.
  destruct (deref_wf _ _ _ _ _ Hwf Hr) as (c & Hc & _).
  exists (Some c). apply get_cell_Ok. exact Hc.
Qed.

Lemma neighbor_refs_not_self (w h cx cy : Z) : (cx, cy) ∉ neighbor_refs w h cx cy.
Proof.
  intros H. apply elem_of_neighbor_refs in H as [_ (d & Hd & E)].
  injection E as E1 E2.
  apply directions_cases in Hd as [[_ Hd]|[_ Hd]];
    repeat (destruct Hd as [Hd|Hd]); subst d; simpl in *; lia.
Qed.

Lemma min_by_elevation_from_total (g : Grid) (rs : list CellRef) :
  forall (best : CellRef) (bestv : float),
    (forall r, r ∈ rs -> exists c, deref g r = Ok c) ->
    exists lowest, min_by_elevation_from g best bestv rs = Ok lowest /\
                   (lowest = best \/ lowest ∈ rs).
Proof.
  induction rs as [|r rs IH]; intros best bestv H; simpl.
  - exists best. auto.
  - destruct (H r) as [c Hc]; [left|]. rewrite Hc. cbn [bind].
    assert (H' : forall r', r' ∈ rs -> exists c', deref g r' = Ok c').
    { intros r' Hr'. apply H. right. exact Hr'. }
    destruct (elevation c <? bestv)%float.
    + destruct (IH r (elevation c) H') as (lowest & E & Hl).
      exists lowest. split; [exact E|]. right.
      destruct Hl as [->|Hl]; [left|right; exact Hl].
    + destruct (IH best bestv H') as (lowest & E & Hl).
      exists lowest. split; [exact E|].
      destruct Hl as [->|Hl]; [left; reflexivity|right; right; exact Hl].
Qed.

Lemma min_by_elevation_total (g : Grid) (r : CellRef) (rs : list CellRef) :
  (forall r', r' ∈ r :: rs -> exists c, deref g r' = Ok c) ->
  exists lowest, min_by_elevation g (r :: rs) = Ok lowest /\ lowest ∈ r :: rs.
Proof.
  intros H. unfold min_by_elevation.
  destruct (H r) as [c Hc]; [left|]. rewrite Hc. cbn [bind].
  destruct (min_by_elevation_from_total g rs r (elevation c)) as (lowest & E & Hl).
  - intros r' Hr'. apply H. right. exact Hr'.
  - exists lowest. split; [exact E|]. destruct Hl as [->|Hl]; [left|right; exact Hl].
Qed.

Lemma get_cell_elsewhere (g g' : Grid) (a b p q : Z) (c' c : HexData) :
  (forall i' j', cell_at g' i' j' =
                 if decide (i' = Z.to_nat a /\ j' = Z.to_nat b)
                 then Some c' else cell_at g i' j') ->
  0 <= a -> 0 <= b -> 0 <= p -> 0 <= q -> (p, q) <> (a, b) ->
  get_cell g p q = Ok c -> get_cell g' p q = Ok c.
Proof.
  intros Hcell Ha Hb Hp Hq Hne H.
  apply get_cell_nonneg in H; [|lia|lia]. apply get_cell_nonneg; [lia|lia|].
  rewrite Hcell. rewrite decide_False; [exact H|].
  intros [E1 E2]. apply Hne. f_equal; lia.
Qed.

Lemma Permutation_cons_inv_shape {A} (l : list A) (a : A) (k : list A) :
  l ≡ₚ a :: k -> exists b l', l = b :: l'.
Proof.
  intros H. destruct l as [|b l']; [|eauto].
  apply Permutation_length in H. discriminate.
Qed.

Lemma river_walk_total (fuel : nat) :
  forall (w h : Z) (g : Grid) (rng : Rng) (cur : CellRef) (steps : nat)
         (path : list CellRef),
    wf_grid w h g -> in_bounds w h (fst cur) (snd cur) = true ->
    exists r,
      river_walk fuel w h g rng cur steps path = Ok r /\
      wf_grid w h (walk_grid r) /\
      in_bounds w h (fst (walk_at r)) (snd (walk_at r)) = true /\
      (steps <= walk_steps r <= steps + fuel)%nat /\
      walk_outcome_upto (steps + fuel) w h r.
Proof.
  induction fuel as [|fuel IH]; intros w h g rng cur steps path Hwf Hb.
  - exists (mkWalk g rng steps StepCap cur path). simpl.
    split; [reflexivity|]. split; [exact Hwf|]. split; [exact Hb|]. split; [lia|].
    unfold walk_outcome_upto. simpl. lia.
  - destruct (update_cell_wf w h g cur set_is_river Hwf Hb) as (g1 & c0 & Hu & Hd0 & Hwf1 & Hcell1);
      [intros c; split; reflexivity|].
    pose proof (get_neighbors_wf w h g1 (fst cur) (snd cur) Hwf1) as Hn.
    pose proof (neighbor_refs_not_self w h (fst cur) (snd cur)) as Hself.
    assert (Hnb : forall r, r ∈ neighbor_refs w h (fst cur) (snd cur) ->
                            in_bounds w h (fst r) (snd r) = true).
    { intros r. apply neighbor_refs_in_bounds. }
    destruct (update_cell_deref _ _ _ _ Hu) as (c0' & Hd0' & Hcc).
    assert (c0' = c0) by congruence. subst c0'. clear Hd0'.
    destruct (neighbor_refs w h (fst cur) (snd cur)) as [|n ns] eqn:En.
    + exists (mkWalk g1 rng (S steps) NoNeighbors cur (path ++ [cur])).
      split; [apply river_walk_alone; assumption|]. simpl.
      split; [exact Hwf1|]. split; [exact Hb|]. split; [lia|].
      unfold walk_outcome_upto. simpl. exact En.
    + pose proof (shuffle_Permutation rng (n :: ns)) as Hperm.
      destruct (shuffle rng (n :: ns)) as [shuffled rng1] eqn:Hsh. simpl in Hperm.
      destruct (Permutation_cons_inv_shape _ _ _ Hperm) as (s0 & ss & ->).
      destruct (min_by_elevation_total g1 s0 ss) as (lowest & Hmin & Hlow).
      { intros r' Hr'. rewrite Hperm in Hr'. apply Hnb in Hr'.
        destruct (deref_wf _ _ _ _ _ Hwf1 Hr') as (c & Hc & _). eauto. }
      rewrite Hperm in Hlow.
      pose proof (Hnb _ Hlow) as Hlb.
      destruct (deref_wf _ _ _ _ _ Hwf1 Hlb) as (lo & Hlo & Hlx & Hly).
      assert (Hne : lowest <> cur).
      { intros ->. apply Hself. destruct cur. exact Hlow. }
      apply in_bounds_iff in Hb as Hb'. apply in_bounds_iff in Hlb as Hlb'.
      destruct (geb (elevation lo) (elevation (set_is_river c0))) eqn:Hge.
      * destruct (update_cell_wf w h g1 cur set_is_lake Hwf1 Hb)
          as (g2 & cc & Hu2 & Hd2 & Hwf2 & Hcell2); [intros c; split; reflexivity|].
        assert (cc = set_is_river c0) by congruence. subst cc.
        exists (mkWalk g2 rng1 (S steps) LocalMinimum cur (path ++ [cur])).
        split; [eapply river_walk_lake; eauto|]. simpl.
        split; [exact Hwf2|]. split; [exact Hb|]. split; [lia|].
        unfold walk_outcome_upto. simpl.
        exists (set_is_lake (set_is_river c0)), lowest, lo.
        destruct (update_cell_deref _ _ _ _ Hu2) as (cc & Hdc & Hdc').
        assert (cc = set_is_river c0) by congruence. subst cc.
        split; [exact Hdc'|]. split; [reflexivity|]. split; [reflexivity|].
        split; [rewrite En; exact Hlow|]. split; [|exact Hge].
        unfold deref. eapply get_cell_elsewhere; [exact Hcell2| | | | | |exact Hlo]; try lia.
        destruct lowest, cur. simpl in *. congruence.
      * destruct (elevation lo <? 0.3)%float eqn:Hsea.
        -- destruct (update_cell_wf w h g1 lowest set_is_river Hwf1 Hlb)
             as (g2 & lo' & Hu2 & Hd2 & Hwf2 & Hcell2); [intros c; split; reflexivity|].
           assert (lo' = lo) by (unfold deref in Hd2; congruence). subst lo'.
           exists (mkWalk g2 rng1 (S steps) ReachedSea cur ((path ++ [cur]) ++ [lowest])).
           split; [eapply river_walk_sea; eauto|]. simpl.
           split; [exact Hwf2|]. split; [exact Hb|]. split; [lia|].
           unfold walk_outcome_upto. simpl.
           exists (set_is_river c0), lowest, (set_is_river lo).
           destruct (update_cell_deref _ _ _ _ Hu2) as (lo' & Hdl & Hdl').
           assert (lo' = lo) by (unfold deref in Hdl; congruence). subst lo'.
           split.
           { unfold deref. eapply get_cell_elsewhere; [exact Hcell2| | | | | |exact Hcc]; try lia.
             destruct lowest, cur. simpl in *. congruence. }
           split; [reflexivity|]. split; [rewrite En; exact Hlow|]. split; [exact Hdl'|].
           split; [exact Hsea|reflexivity].
        -- destruct (IH w h g1 rng1 (x lo, y lo) (S steps) (path ++ [cur]) Hwf1)
             as (r & Hr & Hwfr & Hbr & Hsteps & Hout).
           { simpl. rewrite Hlx, Hly. exact Hlb. }
           exists r. split.
           { erewrite river_walk_move; eauto. }
           split; [exact Hwfr|]. split; [exact Hbr|]. split; [lia|].
           replace (steps + S fuel)%nat with (S steps + fuel)%nat by lia. exact Hout.
Qed.

Lemma common_directions (cx : Z) (d : Z * Z) :
  d ∈ [(0, -1); (0, 1); (1, 0); (-1, 0)] -> d ∈ directions cx.
Proof.
  intros H. unfold directions.
  repeat (apply elem_of_cons in H; destruct H as [->|H]);
    [| | | |inversion H]; destruct (negb _); repeat constructor.
Qed.

(** Only the cell of a 1 by 1 grid has no neighbour. *)
Lemma no_neighbors_single (w h cx cy : Z) :
  in_bounds w h cx cy = true -> neighbor_refs w h cx cy = [] -> w = 1 /\ h = 1.
Proof.
  intros Hb Hnone. apply in_bounds_iff in Hb.
  assert (Hno : forall d, d ∈ [(0, -1); (0, 1); (1, 0); (-1, 0)] ->
                          in_bounds w h (cx + fst d) (cy + snd d) = true -> False).
  { intros d Hd Hin.
    assert (Hm : (cx + fst d, cy + snd d) ∈ neighbor_refs w h cx cy).
    { apply elem_of_neighbor_refs. split; [exact Hin|].
      exists d. split; [apply common_directions; exact Hd|reflexivity]. }
    rewrite Hnone in Hm. inversion Hm. }
  destruct (decide (w = 1 /\ h = 1)) as [|Hn]; [assumption|exfalso].
  destruct (Z_lt_dec (cy + 1) h).
  { apply (Hno (0, 1)); [repeat constructor|apply in_bounds_iff; simpl; lia]. }
  destruct (Z_le_dec 1 cy).
  { apply (Hno (0, -1)); [repeat constructor|apply in_bounds_iff; simpl; lia]. }
  destruct (Z_lt_dec (cx + 1) w).
  { apply (Hno (1, 0)); [repeat constructor|apply in_bounds_iff; simpl; lia]. }
  destruct (Z_le_dec 1 cx).
  { apply (Hno (-1, 0)); [repeat constructor|apply in_bounds_iff; simpl; lia]. }
  lia.
Qed.

(** C6, as stated, fails: on a 1 by 1 grid the walk from the only cell stops
    after one iteration, well below the cap, with no lake flagged and no
    neighbour at all, let alone one below the sea threshold. *)
Lemma lone_cell_walk :
  generate_rivers_log world_1x1 [] =
    Ok (mkWorld 1 1 [[river_cell 0 0 0.8 0.5 0.5]], [],
        [mkWalk [[river_cell 0 0 0.8 0.5 0.5]] [] 1 NoNeighbors (0, 0) [(0, 0)]]) /\
  neighbor_refs 1 1 0 0 = [] /\
  (1 < RIVER_MAX_STEPS)%nat.
Proof. split; [run|]. split; [reflexivity|]. unfold RIVER_MAX_STEPS. lia. Qed.

(** C6, amended: on every well-formed grid the walk from any in-bounds spring
    returns within [RIVER_MAX_STEPS] iterations, and it leaves its loop in
    exactly one of four ways: the cell has no neighbour (which only happens
    on a 1 by 1 grid), a lake is flagged at a local minimum, a neighbour
    below the sea threshold is flagged as the mouth, or the step cap is
    reached. *)
Theorem walk_terminates (w h : Z) (g : Grid) (rng : Rng) (spring : CellRef) :
  wf_grid w h g -> in_bounds w h (fst spring) (snd spring) = true ->
  exists r,
    river_walk RIVER_MAX_STEPS w h g rng spring 0 [] = Ok r /\
    (walk_steps r <= RIVER_MAX_STEPS)%nat /\
    walk_outcome w h r /\
    (walk_end r = NoNeighbors -> w = 1 /\ h = 1).
Proof.
  intros Hwf Hb.
  destruct (river_walk_total RIVER_MAX_STEPS w h g rng spring 0 [] Hwf Hb)
    as (r & Hr & _ & Hbr & Hsteps & Hout).
  exists r. split; [exact Hr|]. split; [lia|]. split; [exact Hout|].
  intros He. unfold walk_outcome_upto in Hout. rewrite He in Hout.
  exact (no_neighbors_single _ _ _ _ Hbr Hout).
Qed.

Lemma scenario_A_wf : wf_grid 3 1 (grid scenario_A).
Proof.
  split; [split|].
  - reflexivity.
  - intros i col H. destruct i as [|[|[|i]]]; simpl in H; try discriminate;
      injection H as <-; reflexivity.
  - intros i j Hi Hj.
    destruct i as [|[|[|i]]]; destruct j as [|j]; simpl in Hi, Hj; try lia;
      eexists; (split; [reflexivity|split; reflexivity]).
Qed.

Lemma walk_terminates_witness :
  exists r,
    river_walk RIVER_MAX_STEPS 3 1 (grid scenario_A) [] (0, 0) 0 [] = Ok r /\
    (walk_steps r <= RIVER_MAX_STEPS)%nat /\
    walk_outcome 3 1 r /\
    (walk_end r = NoNeighbors -> 3 = 1 /\ 1 = 1).
Proof.
  apply (walk_terminates 3 1 (grid scenario_A) [] (0, 0)).
  - exact scenario_A_wf.
  - reflexivity.
Defined.

(** ** Binary64 arithmetic: rounding keeps signs and does not underflow to zero *)

Lemma digits2_pos_bounds (m : positive) :
  2 ^ (Z.pos (digits2_pos m) - 1) <= Z.pos m < 2 ^ Z.pos (digits2_pos m).
Proof.
  induction m as [m IH|m IH|]; simpl digits2_pos.
  - rewrite Pos2Z.inj_succ. replace (Z.succ (Z.pos (digits2_pos m)) - 1) with
      (Z.succ (Z.pos (digits2_pos m) - 1)) by lia.
    rewrite !Z.pow_succ_r by lia. lia.
  - rewrite Pos2Z.inj_succ. replace (Z.succ (Z.pos (digits2_pos m)) - 1) with
      (Z.succ (Z.pos (digits2_pos m) - 1)) by lia.
    rewrite !Z.pow_succ_r by lia. lia.
  - simpl. lia.
Qed.

Lemma iter_xO_pow (m k : positive) :
  Z.pos (Pos.iter xO m k) = Z.pos m * 2 ^ Z.pos k.
Proof.
  induction k as [|k IH] using Pos.peano_ind.
  - simpl. lia.
  - rewrite Pos.iter_succ, Pos2Z.inj_succ, Z.pow_succ_r by lia.
    rewrite Pos2Z.inj_xO, IH. lia.
Qed.

Lemma shl_align_le (mx : positive) (ex ez : Z) :
  ez <= ex ->
  Z.pos (fst (shl_align mx ex ez)) = Z.pos mx * 2 ^ (ex - ez) /\
  snd (shl_align mx ex ez) = ez.
Proof.
  intros H. unfold shl_align.
  destruct (ez - ex) as [|d|d] eqn:E; simpl.
  - assert (E' : ex - ez = 0) by lia. rewrite E'. simpl. lia.
  - lia.
  - rewrite iter_xO_pow. assert (E' : ex - ez = Z.pos d) by lia. rewrite E'. split; reflexivity.
Qed.

Lemma shr_1_m (rec : shr_record) :
  0 <= shr_m rec -> shr_m (shr_1 rec) = shr_m rec / 2.
Proof.
  destruct rec as [m r s]. cbn [shr_m]. intros H.
  destruct m as [|[p|p|]|p]; cbn [shr_1 shr_m]; try lia; try reflexivity.
  - apply Z.div_unique with (r := 1); lia.
  - apply Z.div_unique with (r := 0); lia.
Qed.

Lemma shr_m_iter (k : positive) :
  forall rec, 0 <= shr_m rec ->
              shr_m (SpecFloat.iter_pos shr_1 k rec) = shr_m rec / 2 ^ Z.pos k.
Proof.
  induction k as [k IH|k IH|]; intros rec H; cbn [SpecFloat.iter_pos].
  - assert (HP : 0 < 2 ^ Z.pos k) by (apply Z.pow_pos_nonneg; lia).
    assert (E : 2 ^ Z.pos k~1 = 2 * (2 ^ Z.pos k * 2 ^ Z.pos k)).
    { rewrite Pos2Z.inj_xI, <- Z.pow_add_r, <- Z.pow_succ_r by lia. f_equal. lia. }
    assert (H1 : 0 <= shr_m (shr_1 rec)) by (rewrite shr_1_m by lia; apply Z.div_pos; lia).
    assert (H2 : 0 <= shr_m (SpecFloat.iter_pos shr_1 k (shr_1 rec)))
      by (rewrite IH by lia; apply Z.div_pos; lia).
    rewrite IH by lia. rewrite IH by lia. rewrite shr_1_m by lia.
    rewrite E. set (P := 2 ^ Z.pos k) in *.
    rewrite (Z.div_div (shr_m rec / 2) P P) by lia.
    rewrite (Z.div_div (shr_m rec) 2 (P * P)) by lia. reflexivity.
  - assert (HP : 0 < 2 ^ Z.pos k) by (apply Z.pow_pos_nonneg; lia).
    assert (E : 2 ^ Z.pos k~0 = 2 ^ Z.pos k * 2 ^ Z.pos k).
    { rewrite Pos2Z.inj_xO, <- Z.pow_add_r by lia. f_equal. lia. }
    assert (H2 : 0 <= shr_m (SpecFloat.iter_pos shr_1 k rec))
      by (rewrite IH by lia; apply Z.div_pos; lia).
    rewrite IH by lia. rewrite IH by lia.
    rewrite E. set (P := 2 ^ Z.pos k) in *.
    rewrite (Z.div_div (shr_m rec) P P) by lia. reflexivity.
  - rewrite shr_1_m by lia. reflexivity.
Qed.

Lemma Zdigits2_upper (m k : Z) : 0 <= k -> 0 <= m < 2 ^ k -> Zdigits2 m <= k.
Proof.
  intros Hk [H0 H]. destruct m as [|p|p]; simpl; [lia| |lia].
  pose proof (digits2_pos_bounds p) as [Hlo _].
  apply Z.nlt_ge. intros Hc.
  assert (2 ^ k <= 2 ^ (Z.pos (digits2_pos p) - 1)) by (apply Z.pow_le_mono_r; lia).
  lia.
Qed.

Lemma Zdigits2_lower (m : Z) : 0 < m -> 1 <= Zdigits2 m /\ 2 ^ (Zdigits2 m - 1) <= m.
Proof.
  intros H. destruct m as [|p|p]; simpl; try lia.
  split; [lia|]. apply digits2_pos_bounds.
Qed.

Lemma shr_record_of_loc_m (m : Z) (l : location) : shr_m (shr_record_of_loc m l) = m.
Proof. destruct l as [|[| |]]; reflexivity. Qed.

Lemma shr_fexp_spec (m e : Z) (l : location) :
  0 <= m ->
  shr_m (fst (shr_fexp prec emax m e l)) = m / 2 ^ shift_of m e /\
  snd (shr_fexp prec emax m e l) = e + shift_of m e.
Proof.
  intros Hm. unfold shr_fexp, shr, shift_of.
  destruct (fexp prec emax (Zdigits2 m + e) - e) as [|p|p] eqn:E; cbn [fst snd].
  - rewrite shr_record_of_loc_m. change (Z.max 0 0) with 0.
    rewrite Z.pow_0_r, Z.div_1_r. lia.
  - rewrite shr_m_iter by (rewrite shr_record_of_loc_m; lia).
    rewrite shr_record_of_loc_m. rewrite Z.max_r by lia. split; [reflexivity|lia].
  - rewrite shr_record_of_loc_m. rewrite Z.max_l by lia.
    rewrite Z.pow_0_r, Z.div_1_r. lia.
Qed.

Lemma round_nearest_even_bounds (m : Z) (l : location) :
  m <= round_nearest_even m l <= m + 1.
Proof.
  unfold round_nearest_even. destruct l as [|[| |]]; try lia.
  destruct (Z.even m); lia.
Qed.

Lemma shift_quot_pos (m e : Z) :
  0 < m -> emin <= e -> 1 <= m / 2 ^ shift_of m e.
Proof.
  intros Hm He. destruct (Zdigits2_lower m Hm) as [Hd Hlo].
  assert (Hs : 0 <= shift_of m e <= Zdigits2 m - 1).
  { unfold shift_of, fexp, SpecFloat.emin, prec, emax in *. lia. }
  assert (Hp : 2 ^ shift_of m e <= 2 ^ (Zdigits2 m - 1)) by (apply Z.pow_le_mono_r; lia).
  assert (H2 : 0 < 2 ^ shift_of m e) by (apply Z.pow_pos_nonneg; lia).
  apply Z.div_le_lower_bound; lia.
Qed.

Lemma shift_quot_nonneg (m e : Z) : 0 <= m -> 0 <= m / 2 ^ shift_of m e.
Proof.
  intros Hm. apply Z.div_pos; [exact Hm|].
  apply Z.pow_pos_nonneg; [lia|]. unfold shift_of. lia.
Qed.

Lemma shift_quot_le (m e : Z) : 0 <= m -> m / 2 ^ shift_of m e <= m.
Proof.
  intros Hm.
  assert (H2 : 0 < 2 ^ shift_of m e) by (apply Z.pow_pos_nonneg; unfold shift_of; lia).
  apply Z.div_le_upper_bound; [exact H2|]. nia.
Qed.

(** Rounding, unfolded: the mantissa is shifted, rounded, and shifted once
    more in case the rounding carried. *)
Lemma round_aux_spec (s : bool) (m e : Z) (l : location) :
  0 <= m ->
  exists m1,
    m / 2 ^ shift_of m e <= m1 <= m / 2 ^ shift_of m e + 1 /\
    binary_round_aux prec emax s m e l =
      match m1 / 2 ^ shift_of m1 (e + shift_of m e) with
      | Z0 => S754_zero s
      | Zpos p =>
          if e + shift_of m e + shift_of m1 (e + shift_of m e) <=? emax - prec
          then S754_finite s p (e + shift_of m e + shift_of m1 (e + shift_of m e))
          else S754_infinity s
      | Zneg _ => S754_nan
      end.
Proof.
  intros Hm. unfold binary_round_aux.
  destruct (shr_fexp_spec m e l Hm) as [E1 E2].
  destruct (shr_fexp prec emax m e l) as [mrs1 e1]. cbn [fst snd] in E1, E2.
  set (m1 := round_nearest_even (shr_m mrs1) (loc_of_shr_record mrs1)).
  pose proof (round_nearest_even_bounds (shr_m mrs1) (loc_of_shr_record mrs1)) as Hb.
  fold m1 in Hb. rewrite E1 in Hb.
  assert (Hm1 : 0 <= m1) by (pose proof (shift_quot_nonneg m e Hm); lia).
  destruct (shr_fexp_spec m1 e1 loc_Exact Hm1) as [E3 E4].
  destruct (shr_fexp prec emax m1 e1 loc_Exact) as [mrs2 e2]. cbn [fst snd] in E3, E4.
  exists m1. split; [exact Hb|]. subst e1 e2. rewrite E3. reflexivity.
Qed.

Lemma Zdigits2_nonneg (m : Z) : 0 <= Zdigits2 m.
Proof. destruct m; simpl; lia. Qed.

Lemma Zdigits2_lt (m : Z) : 0 <= m -> m < 2 ^ Zdigits2 m.
Proof.
  intros H. destruct m as [|p|p]; simpl; try lia. apply digits2_pos_bounds.
Qed.

(** Rounding a non-negative mantissa keeps the sign, never gives a NaN,
    gives zero only from zero or below the smallest exponent, and an exponent
    bounded by the number of digits and the exponent it started from. *)
Lemma round_aux_cases (s : bool) (m e : Z) (l : location) (D E : Z) :
  0 <= m -> Zdigits2 m <= D -> e <= E ->
  match binary_round_aux prec emax s m e l with
  | S754_zero s' => s' = s /\ ~ (0 < m /\ emin <= e)
  | S754_finite s' _ e2 => s' = s /\ e2 <= Z.max E emin + 2 * D
  | S754_infinity s' => s' = s /\ emax - prec < Z.max E emin + 2 * D
  | S754_nan => False
  end.
Proof.
  intros Hm HD HE.
  destruct (round_aux_spec s m e l Hm) as (m1 & Hb & ->).
  pose proof (shift_quot_nonneg m e Hm) as Hq.
  pose proof (shift_quot_le m e Hm) as Hle.
  assert (Hm1 : 0 <= m1) by lia.
  pose proof (shift_quot_nonneg m1 (e + shift_of m e) Hm1) as Hq1.
  pose proof (Zdigits2_nonneg m) as Hd0.
  assert (Hd1 : Zdigits2 m1 <= D + 1).
  { apply Zdigits2_upper; [lia|]. split; [exact Hm1|].
    pose proof (Zdigits2_lt m Hm) as Hlt.
    assert (2 ^ Zdigits2 m <= 2 ^ D) by (apply Z.pow_le_mono_r; lia).
    rewrite Z.pow_add_r by lia. change (2 ^ 1) with 2. lia. }
  pose proof (Zdigits2_nonneg m1) as Hd10.
  assert (He2 : e + shift_of m e + shift_of m1 (e + shift_of m e)
                <= Z.max E emin + 2 * D).
  { unfold shift_of, fexp, SpecFloat.emin, prec, emax in *. lia. }
  destruct (m1 / 2 ^ shift_of m1 (e + shift_of m e)) as [|p|p] eqn:E2.
  - split; [reflexivity|]. intros [Hpos Hemin].
    pose proof (shift_quot_pos m e Hpos Hemin) as H1.
    assert (Hs : 0 <= shift_of m e) by (unfold shift_of; lia).
    assert (H2 : 1 <= m1 / 2 ^ shift_of m1 (e + shift_of m e)).
    { apply shift_quot_pos; [lia|]. unfold SpecFloat.emin, prec, emax in *. lia. }
    lia.
  - destruct (_ <=? _) eqn:Hc.
    + split; [reflexivity|exact He2].
    + split; [reflexivity|]. apply Z.leb_gt in Hc. lia.
  - lia.
Qed.

Lemma shl_align_spec (mx : positive) (ex ez : Z) :
  snd (shl_align mx ex ez) = Z.min ex ez /\
  Z.pos (fst (shl_align mx ex ez)) = Z.pos mx * 2 ^ (ex - Z.min ex ez).
Proof.
  unfold shl_align.
  destruct (ez - ex) as [|d|d] eqn:E; cbn [fst snd].
  - rewrite Z.min_l by lia. rewrite Z.sub_diag. simpl. lia.
  - rewrite Z.min_l by lia. rewrite Z.sub_diag. simpl. lia.
  - rewrite Z.min_r by lia. rewrite iter_xO_pow.
    assert (E' : ex - ez = Z.pos d) by lia. rewrite E'. split; reflexivity.
Qed.

(** The same for [binary_round], which first aligns the mantissa. *)
Lemma binary_round_cases (s : bool) (m : positive) (e : Z) (D E : Z) :
  Z.pos (digits2_pos m) <= D -> prec <= D -> e <= E ->
  match binary_round prec emax s m e with
  | S754_zero s' => s' = s /\ e < emin
  | S754_finite s' _ e2 => s' = s /\ e2 <= Z.max E emin + 2 * D
  | S754_infinity s' => s' = s /\ emax - prec < Z.max E emin + 2 * D
  | S754_nan => False
  end.
Proof.
  intros HD HP HE. unfold binary_round.
  destruct (shl_align_spec m e (fexp prec emax (Z.pos (digits2_pos m) + e))) as [E1 E2].
  destruct (shl_align m e _) as [mz ez]. cbn [fst snd] in E1, E2.
  pose proof (digits2_pos_bounds m) as [_ Hm].
  assert (Hdz : Zdigits2 (Z.pos mz) <= D).
  { apply Zdigits2_upper; [unfold prec in HP; lia|]. split; [lia|]. rewrite E2.
    set (d := Z.pos (digits2_pos m)) in *.
    assert (Hk : 0 <= e - Z.min e (fexp prec emax (d + e)) /\
                 d + (e - Z.min e (fexp prec emax (d + e))) <= D).
    { unfold fexp, SpecFloat.emin, prec, emax in *. lia. }
    destruct Hk as [Hk0 Hk].
    set (k := e - Z.min e (fexp prec emax (d + e))) in *.
    assert (2 ^ d * 2 ^ k <= 2 ^ D).
    { rewrite <- Z.pow_add_r by lia. apply Z.pow_le_mono_r; lia. }
    assert (0 < 2 ^ k) by (apply Z.pow_pos_nonneg; lia).
    nia. }
  assert (Hez : ez <= E) by lia.
  pose proof (round_aux_cases s (Z.pos mz) ez loc_Exact D E ltac:(lia) Hdz Hez) as H.
  destruct (binary_round_aux prec emax s (Z.pos mz) ez loc_Exact); try exact H.
  destruct H as [Hs Hn]. split; [exact Hs|].
  apply Z.nle_gt. intros Hc. apply Hn. split; [lia|].
  unfold fexp, SpecFloat.emin, prec, emax in *. lia.
Qed.

Lemma bounded_spec (m : positive) (e : Z) :
  bounded prec emax m e = true ->
  emin <= e <= emax - prec /\ Z.pos m < 2 ^ 53 /\ (emin < e -> 2 ^ 52 <= Z.pos m).
Proof.
  unfold bounded, canonical_mantissa. rewrite andb_true_iff, Z.eqb_eq, Z.leb_le.
  intros [Hc He].
  pose proof (digits2_pos_bounds m) as [Hlo Hhi].
  assert (Hd : Z.pos (digits2_pos m) <= 53 /\
               emin <= e /\ (emin < e -> Z.pos (digits2_pos m) = 53)).
  { unfold fexp, SpecFloat.emin, prec, emax in *. lia. }
  destruct Hd as (Hd & Hemin & Hnorm).
  split; [lia|]. split.
  - assert (2 ^ Z.pos (digits2_pos m) <= 2 ^ 53) by (apply Z.pow_le_mono_r; lia). lia.
  - intros H. rewrite (Hnorm H) in Hlo. exact Hlo.
Qed.

Lemma pow2_ge_2 (k : Z) : 0 < k -> 2 <= 2 ^ k.
Proof.
  intros H. change 2 with (2 ^ 1) at 1. apply Z.pow_le_mono_r; lia.
Qed.

(** Of two valid finite numbers ordered by [SFcompare], the aligned
    mantissas are ordered the same way. *)
Lemma aligned_lt (sa sb : bool) (ma mb : positive) (ea eb : Z) :
  bounded prec emax ma ea = true -> bounded prec emax mb eb = true ->
  SFcompare (S754_finite sa ma ea) (S754_finite sb mb eb) = Some Lt ->
  0 < cond_Zopp sb (Z.pos mb * 2 ^ (eb - Z.min eb ea))
      - cond_Zopp sa (Z.pos ma * 2 ^ (ea - Z.min eb ea)).
Proof.
  intros Ha Hb H.
  apply bounded_spec in Ha as (Hea & HA & HAn).
  apply bounded_spec in Hb as (Heb & HB & HBn).
  change (2 ^ 53) with 9007199254740992 in *.
  change (2 ^ 52) with 4503599627370496 in *.
  unfold SFcompare in H. change (Pos.compare_cont Eq ma mb) with (ma ?= mb)%positive in H.
  destruct (Z.compare_spec ea eb) as [E|E|E].
  - subst eb. rewrite Z.min_id, Z.sub_diag. change (2 ^ 0) with 1. rewrite !Z.mul_1_r.
    destruct (Pos.compare_spec ma mb) as [E'|E'|E'];
      destruct sa, sb; simpl in H; try discriminate; cbn [cond_Zopp]; lia.
  - rewrite Z.min_r by lia. rewrite Z.sub_diag. change (2 ^ 0) with 1. rewrite Z.mul_1_r.
    pose proof (pow2_ge_2 (eb - ea) ltac:(lia)) as HP.
    destruct sa, sb; simpl in H; try discriminate; cbn [cond_Zopp]; [nia|].
    assert (4503599627370496 <= Z.pos mb) by (apply HBn; lia). nia.
  - rewrite Z.min_l by lia. rewrite Z.sub_diag. change (2 ^ 0) with 1. rewrite Z.mul_1_r.
    pose proof (pow2_ge_2 (ea - eb) ltac:(lia)) as HP.
    destruct sa, sb; simpl in H; try discriminate; cbn [cond_Zopp]; [|nia].
    assert (4503599627370496 <= Z.pos ma) by (apply HAn; lia). nia.
Qed.

(** ** Signs of binary64 results *)

Lemma ltb_zero (f : float) :
  (f <? 0)%float =
  match Prim2SF f with
  | S754_finite true _ _ | S754_infinity true => true
  | _ => false
  end.
Proof.
  rewrite ltb_spec. change (Prim2SF 0) with (S754_zero false).
  destruct (Prim2SF f) as [s|s| |s m e]; try destruct s; reflexivity.
Qed.

Lemma eqb_zero (f : float) :
  (f =? 0)%float = match Prim2SF f with S754_zero _ => true | _ => false end.
Proof.
  rewrite FloatAxioms.eqb_spec. change (Prim2SF 0) with (S754_zero false).
  destruct (Prim2SF f) as [s|s| |s m e]; try destruct s; reflexivity.
Qed.

Lemma valid_finite (f : float) (s : bool) (m : positive) (e : Z) :
  Prim2SF f = S754_finite s m e -> bounded prec emax m e = true.
Proof. intros H. pose proof (Prim2SF_valid f) as Hv. rewrite H in Hv. exact Hv. Qed.

(** [b - a] for [a < b] is neither zero nor negative: binary64 has gradual
    underflow. *)
Lemma sub_lt (a b : float) :
  (a <? b)%float = true ->
  ((b - a) =? 0)%float = false /\ not_neg (b - a).
Proof.
  intros H. unfold not_neg. rewrite eqb_zero, ltb_zero, sub_spec.
  rewrite ltb_spec in H. unfold SFltb in H.
  destruct (SFcompare (Prim2SF a) (Prim2SF b)) as [[| |]|] eqn:C; try discriminate.
  clear H.
  destruct (Prim2SF a) as [sa|sa| |sa ma ea] eqn:Ea;
    destruct (Prim2SF b) as [sb|sb| |sb mb eb] eqn:Eb;
    try destruct sa; try destruct sb; try discriminate C;
    try (split; reflexivity).
  all: apply valid_finite in Ea, Eb.
  all: pose proof (aligned_lt _ _ _ _ _ _ Ea Eb C) as Hlt.
  all: unfold SF64sub, SFsub; cbv zeta.
  all: destruct (shl_align_spec mb eb (Z.min eb ea)) as [_ E1];
    destruct (shl_align_spec ma ea (Z.min eb ea)) as [_ E2].
  all: replace (Z.min eb (Z.min eb ea)) with (Z.min eb ea) in E1 by lia.
  all: replace (Z.min ea (Z.min eb ea)) with (Z.min eb ea) in E2 by lia.
  all: cbn [cond_Zopp] in Hlt |- *; rewrite <- E1, <- E2 in Hlt.
  all: match goal with
       | |- context [binary_normalize prec emax ?d ?ez false] =>
           destruct d as [|p|p] eqn:Ed; try lia;
           cbn [binary_normalize];
           pose proof (binary_round_cases false p ez
                         (Z.max (Z.pos (digits2_pos p)) prec) ez
                         ltac:(lia) ltac:(lia) ltac:(lia)) as Hr;
           destruct (binary_round prec emax false p ez) as [s|s| |s m e]
       end.
  all: apply bounded_spec in Ea as (Hea & _), Eb as (Heb & _).
  all: try (destruct Hr as [-> Hr]); try (split; reflexivity); try contradiction.
  all: exfalso; lia.
Qed.

Lemma mul_not_neg (a b : float) : not_neg a -> not_neg b -> not_neg (a * b).
Proof.
  unfold not_neg. rewrite !ltb_zero, mul_spec. intros Ha Hb.
  destruct (Prim2SF a) as [sa|sa| |sa ma ea]; destruct (Prim2SF b) as [sb|sb| |sb mb eb];
    try destruct sa; try destruct sb; try discriminate; try reflexivity.
  unfold SF64mul, SFmul. cbn [xorb].
  pose proof (round_aux_cases false (Z.pos (ma * mb)) (ea + eb) loc_Exact
                (Zdigits2 (Z.pos (ma * mb))) (ea + eb)
                ltac:(lia) ltac:(lia) ltac:(lia)) as Hr.
  destruct (binary_round_aux prec emax false (Z.pos (ma * mb)) (ea + eb) loc_Exact)
    as [s|s| |s m e]; try reflexivity; destruct Hr as [-> _]; reflexivity.
Qed.

Lemma add_not_neg (a b : float) : not_neg a -> not_neg b -> not_neg (a + b).
Proof.
  unfold not_neg. rewrite !ltb_zero, add_spec. intros Ha Hb.
  destruct (Prim2SF a) as [sa|sa| |sa ma ea]; destruct (Prim2SF b) as [sb|sb| |sb mb eb];
    try destruct sa; try destruct sb; try discriminate; try reflexivity.
  unfold SF64add, SFadd. cbv zeta. cbn [cond_Zopp].
  rewrite <- Pos2Z.inj_add. cbn [binary_normalize].
  match goal with
  | |- context [binary_round prec emax false ?p ?ez] =>
      pose proof (binary_round_cases false p ez
                    (Z.max (Z.pos (digits2_pos p)) prec) ez
                    ltac:(lia) ltac:(lia) ltac:(lia)) as Hr;
      destruct (binary_round prec emax false p ez) as [s|s| |s m e]
  end; try reflexivity; destruct Hr as [-> _]; reflexivity.
Qed.

Lemma py_min_not_neg (a b : float) : not_neg a -> not_neg b -> not_neg (py_min a b).
Proof. unfold py_min. destruct (b <? a)%float; auto. Qed.

Lemma py_max_zero_not_neg (v : float) : not_neg (py_max 0 v).
Proof.
  unfold py_max, not_neg. destruct (0 <? v)%float eqn:E; [|reflexivity].
  rewrite ltb_zero. rewrite ltb_spec in E. change (Prim2SF 0) with (S754_zero false) in E.
  destruct (Prim2SF v) as [s|s| |s m e]; try destruct s; try discriminate; reflexivity.
Qed.

Lemma clamp01_not_neg (v : float) : not_neg (clamp01 v).
Proof. apply py_max_zero_not_neg. Qed.

(** ** Conversions between [int] and [float] *)

Lemma float_of_Z_total (z : Z) :
  0 <= z < 2 ^ 63 ->
  exists f, float_of_Z z = Ok f /\
            match Prim2SF f with
            | S754_zero s => s = false
            | S754_finite s _ e => s = false /\ e <= 126
            | _ => False
            end.
Proof.
  intros Hz. unfold float_of_Z.
  assert (E : binary_normalize prec emax z 0 false
              = Prim2SF (of_uint63 (Uint63.of_Z z))).
  { rewrite of_uint63_spec, Uint63.of_Z_spec, Z.mod_small; [reflexivity|exact Hz]. }
  rewrite E, SF2Prim_Prim2SF. set (f := of_uint63 (Uint63.of_Z z)) in *.
  assert (Hf : match Prim2SF f with
               | S754_zero s => s = false
               | S754_finite s _ e => s = false /\ e <= 126
               | _ => False
               end).
  { rewrite <- E. destruct z as [|p|p]; [reflexivity| |lia].
    cbn [binary_normalize].
    assert (Hd : Z.pos (digits2_pos p) <= 63).
    { apply (Zdigits2_upper (Z.pos p) 63); lia. }
    pose proof (binary_round_cases false p 0 63 0 Hd ltac:(unfold prec; lia) ltac:(lia))
      as Hr.
    destruct (binary_round prec emax false p 0) as [s|s| |s m e].
    - apply Hr.
    - destruct Hr as [_ Hr]. unfold SpecFloat.emin, prec, emax in Hr. lia.
    - exact Hr.
    - destruct Hr as [-> Hr]. unfold SpecFloat.emin, prec, emax in Hr.
      split; [reflexivity|lia]. }
  exists f. split; [|exact Hf].
  unfold is_infinity. rewrite FloatAxioms.eqb_spec, abs_spec.
  change (Prim2SF infinity) with (S754_infinity false).
  destruct (Prim2SF f) as [s|s| |s m e]; try contradiction; reflexivity.
Qed.

Lemma py_int_total (f : float) :
  match Prim2SF f with S754_infinity _ | S754_nan => False | _ => True end ->
  exists n, py_int f = Ok n.
Proof.
  unfold py_int. destruct (Prim2SF f); intros H; try contradiction; eauto.
Qed.

Lemma target_springs_total (w h : Z) :
  0 <= w * h < 2 ^ 63 -> exists t, target_springs w h = Ok t.
Proof.
  intros H. destruct (float_of_Z_total _ H) as (cells & Hc & Hs).
  unfold target_springs. rewrite Hc. cbn [bind].
  destruct (py_int_total (cells * SPRING_DENSITY)) as [n Hn]; [|rewrite Hn; cbn [bind]; eauto].
  rewrite mul_spec.
  assert (Hd : exists m, Prim2SF SPRING_DENSITY = S754_finite false m (-60))
    by (eexists; vm_compute; reflexivity).
  destruct Hd as [md Hd].
  pose proof (valid_finite _ _ _ _ Hd) as Hvd. apply bounded_spec in Hvd as (_ & Hmd & _).
  rewrite Hd.
  destruct (Prim2SF cells) as [s|s| |s m e] eqn:Ec; try contradiction; [exact I|].
  destruct Hs as [-> He].
  apply valid_finite in Ec. apply bounded_spec in Ec as (_ & Hm & _).
  unfold SF64mul, SFmul. cbn [xorb].
  assert (Hdig : Zdigits2 (Z.pos (m * md)) <= 106).
  { apply Zdigits2_upper; [lia|]. split; [lia|].
    change (2 ^ 106) with (2 ^ 53 * 2 ^ 53). rewrite Pos2Z.inj_mul. nia. }
  pose proof (round_aux_cases false (Z.pos (m * md)) (e + -60) loc_Exact 106 66
                ltac:(lia) Hdig ltac:(lia)) as Hr.
  destruct (binary_round_aux prec emax false (Z.pos (m * md)) (e + -60) loc_Exact)
    as [s|s| |s' m' e']; try exact I; try exact Hr.
  destruct Hr as [_ Hr]. unfold SpecFloat.emin, prec, emax in Hr. lia.
Qed.

(** ** Layer synthesis never raises *)

Lemma py_truediv_total (a b : float) :
  (b =? 0)%float = false -> py_truediv a b = Ok (a / b)%float.
Proof. unfold py_truediv. intros ->. reflexivity. Qed.

Lemma _sample_perlin_acc_total (ext : Externals) (px py scale : float) (base octaves : Z)
    (persistence lacunarity : float) (params : list (float * float * Z)) :
  (scale =? 0)%float = false ->
  forall acc, exists v,
    _sample_perlin_acc ext params acc px py scale base octaves persistence lacunarity = Ok v.
Proof.
  intros Hs. induction params as [|[[cos_a sin_a] off] rest IH]; intros acc; cbn [_sample_perlin_acc].
  - eauto.
  - rewrite !py_truediv_total by exact Hs. cbn [bind]. apply IH.
Qed.

Lemma _sample_perlin_total (ext : Externals) (px py scale : float) (base octaves : Z)
    (persistence lacunarity : float) :
  (scale =? 0)%float = false ->
  exists v, _sample_perlin ext px py scale base octaves persistence lacunarity = Ok v.
Proof.
  intros Hs. unfold _sample_perlin.
  destruct (_sample_perlin_acc_total ext px py scale base octaves persistence lacunarity
              (NOISE_ROTATION_PARAMS ext) Hs 0%float) as [acc ->].
  cbn [bind]. change (float_of_Z (Z.of_nat (length (NOISE_ROTATION_PARAMS ext))))
    with (float_of_Z 3).
  replace (float_of_Z 3) with (Ok 3%float) by (vm_compute; reflexivity).
  cbn [bind]. rewrite py_truediv_total by reflexivity. eauto.
Qed.

Lemma bind_total {A B} (m : result A) (k : A -> result B) :
  (exists a, m = Ok a) -> (forall a, exists b, k a = Ok b) -> exists b, bind m k = Ok b.
Proof. intros [a ->] H. apply H. Qed.

Lemma float_of_Z_Ok (z : Z) : 0 <= z < 2 ^ 63 -> exists f, float_of_Z z = Ok f.
Proof. intros H. destruct (float_of_Z_total z H) as (f & E & _). eauto. Qed.

Lemma py_int_truediv_total (a b : Z) :
  0 <= a < 2 ^ 63 -> 0 < b < 2 ^ 63 -> exists f, py_int_truediv a b = Ok f.
Proof.
  intros Ha Hb. unfold py_int_truediv.
  destruct (Z.eqb_spec b 0) as [->|_]; [lia|].
  destruct (float_of_Z_Ok a Ha) as [fa ->].
  destruct (float_of_Z_Ok b ltac:(lia)) as [fb ->]. cbn [bind]. eauto.
Qed.

Ltac total_step :=
  first
    [ apply bind_total;
      [ first [ apply _sample_perlin_total; reflexivity
              | eexists; apply py_truediv_total; reflexivity
              | apply float_of_Z_Ok; assumption
              | apply py_int_truediv_total; assumption ]
      | intro ] ].

Lemma raw_layers_total (ext : Externals) (seeds : Seeds) (h cx cy : Z) :
  0 <= SEED_ELEVATION seeds < 2 ^ 63 ->
  0 <= cx < 2 ^ 63 -> 0 <= cy < 2 ^ 63 -> 0 < h < 2 ^ 63 ->
  exists emt, raw_layers ext seeds h cx cy = Ok emt.
Proof.
  intros Hseed Hx Hy Hh. cbv delta [raw_layers]. cbv beta.
  repeat total_step. eexists. reflexivity.
Qed.

Lemma span_nonzero (lo hi : float) : (span lo hi =? 0)%float = false.
Proof.
  unfold span, gtb. destruct (lo <? hi)%float eqn:E.
  - apply (sub_lt lo hi E).
  - reflexivity.
Qed.

Lemma py_pow_total (ext : Externals) (b e : float) :
  not_neg b -> py_pow ext b e = Ok (math_pow ext b e).
Proof. unfold py_pow, not_neg. intros ->. reflexivity. Qed.

Ltac not_neg_step :=
  lazymatch goal with
  | |- not_neg (if ?c then _ else _) => destruct c eqn:?
  | |- not_neg (clamp01 _) => apply clamp01_not_neg
  | |- not_neg (py_max 0%float _) => apply py_max_zero_not_neg
  | |- not_neg (py_min _ _) => apply py_min_not_neg
  | |- not_neg (_ + _)%float => apply add_not_neg
  | |- not_neg (_ * _)%float => apply mul_not_neg
  | |- not_neg (_ - _)%float => refine (proj2 (sub_lt _ _ _)); assumption
  | |- not_neg _ => reflexivity
  end.

Lemma normalize_cell_total (ext : Externals) (acc : Extremes) (cell : HexData) :
  exists cell', normalize_cell ext acc cell = Ok cell'.
Proof.
  cbv delta [normalize_cell]. cbv beta.
  repeat first
    [ apply bind_total;
      [ first [ eexists; apply py_truediv_total; apply span_nonzero
              | eexists; apply py_pow_total; repeat not_neg_step ]
      | intro ] ].
  eexists. reflexivity.
Qed.

Lemma pass1_total (ext : Externals) (seeds : Seeds) (w h : Z) (g0 : Grid) :
  0 <= SEED_ELEVATION seeds < 2 ^ 63 -> 0 < w < 2 ^ 63 -> 0 < h < 2 ^ 63 ->
  shape g0 (Z.to_nat w) (Z.to_nat h) ->
  exists s, for_cells w h (pass1_body ext seeds h) (g0, no_extremes) = Ok s.
Proof.
  intros Hseed Hw Hh Hs.
  destruct (for_cells_total
              (fun _ _ (s : Grid * Extremes) => shape (fst s) (Z.to_nat w) (Z.to_nat h))
              w h (pass1_body ext seeds h) (g0, no_extremes)) as (s' & E & _).
  - exact Hs.
  - auto.
  - intros i j [g a] Hi Hj Hsh. cbn [fst] in Hsh. unfold pass1_body.
    destruct (raw_layers_total ext seeds h (Z.of_nat i) (Z.of_nat j))
      as [[[e m] t] ->]; [lia..|].
    cbn [bind].
    destruct (store_cell_total g _ _ i j
                (new_HexData (Z.of_nat i) (Z.of_nat j) e m t DEEP_SEA) Hsh Hi Hj)
      as [g' Hst].
    rewrite Hst. cbn [bind]. eexists. split; [reflexivity|]. cbn [fst].
    apply store_cell_at in Hst as [_ Hshape]. auto.
  - eauto.
Qed.

Lemma cell_pass_total (F : HexData -> result HexData) (w h : Z) (g : Grid) :
  (forall c, exists c', F c = Ok c') ->
  shape g (Z.to_nat w) (Z.to_nat h) ->
  (forall i j, (i < Z.to_nat w)%nat -> (j < Z.to_nat h)%nat ->
               exists c, cell_at g i j = Some c) ->
  exists g', for_cells w h (cell_pass F) g = Ok g'.
Proof.
  intros HF Hs Hc.
  destruct (for_cells_total
              (fun _ _ (s : Grid) =>
                 shape s (Z.to_nat w) (Z.to_nat h) /\
                 forall i j, (i < Z.to_nat w)%nat -> (j < Z.to_nat h)%nat ->
                             exists c, cell_at s i j = Some c)
              w h (cell_pass F) g) as (g' & E & _).
  - auto.
  - auto.
  - intros i j s Hi Hj [Hsh Hcells]. unfold cell_pass.
    destruct (Hcells i j Hi Hj) as [c Hcell].
    apply get_cell_at in Hcell as Hget. rewrite Hget. cbn [bind].
    destruct (HF c) as [c' ->]. cbn [bind].
    destruct (store_cell_total s _ _ i j c' Hsh Hi Hj) as [s' Hst]. rewrite Hst.
    eexists. split; [reflexivity|].
    apply store_cell_at in Hst as [Hslot Hshape]. split; [auto|].
    intros i' j' Hi' Hj'. rewrite (cell_at_update _ _ _ _ _ Hslot).
    destruct (decide (i' = i /\ j' = j)); eauto.
  - eauto.
Qed.

Lemma generate_base_layers_total (ext : Externals) (seeds : Seeds) (w h : Z)
    (world0 : WorldGenerator) :
  0 <= SEED_ELEVATION seeds < 2 ^ 63 -> 0 < w < 2 ^ 63 -> 0 < h < 2 ^ 63 ->
  WorldGenerator_init w h = Ok world0 ->
  exists world1,
    generate_base_layers ext seeds world0 = Ok world1 /\
    width world1 = w /\ height world1 = h /\ wf_world world1.
Proof.
  intros Hseed Hw Hh H0. apply init_shape in H0 as (Ew & Eh & Hs & _).
  assert (H1 : exists world1, generate_base_layers ext seeds world0 = Ok world1).
  { unfold generate_base_layers. rewrite Ew, Eh.
    destruct (pass1_total ext seeds w h (grid world0) Hseed Hw Hh Hs) as [[g1 acc] E1].
    rewrite E1. cbn [bind].
    apply pass1_spec in E1 as [Hs1 Hc1].
    destruct (cell_pass_total (normalize_cell ext acc) w h g1) as [g2 E2].
    - intros c. apply normalize_cell_total.
    - auto.
    - intros i j Hi Hj. destruct (Hc1 i j Hi Hj) as (e & m & t & Hc). eauto.
    - change (for_cells w h (pass2_body ext acc) g1 = Ok g2) in E2.
      rewrite E2. cbn [bind]. eauto. }
  destruct H1 as [world1 H1]. exists world1. split; [exact H1|].
  apply generate_base_layers_spec in H1 as (E1 & E2 & Hsh & Hcells).
  split; [congruence|]. split; [congruence|].
  unfold wf_world, wf_grid. rewrite E1, E2, Ew, Eh. rewrite Ew, Eh in Hcells. split.
  - auto.
  - intros i j Hi Hj. destruct (Hcells i j Hi Hj) as (c & Hc & Hx & Hy & _). eauto.
Qed.

(** ** Hydrology and classification never raise on a populated grid *)

Lemma elem_of_py_range (n z : Z) : z ∈ py_range n -> 0 <= z < n.
Proof.
  unfold py_range. intros H. apply list_elem_of_In, in_map_iff in H as (k & <- & Hk).
  apply in_seq in Hk. lia.
Qed.

Lemma elem_of_all_refs (w h : Z) (r : CellRef) :
  r ∈ all_refs w h -> in_bounds w h (fst r) (snd r) = true.
Proof.
  unfold all_refs. intros H. apply list_elem_of_In, in_flat_map in H as (cx & Hx & H).
  apply in_map_iff in H as (cy & <- & Hy).
  apply list_elem_of_In, elem_of_py_range in Hx.
  apply list_elem_of_In, elem_of_py_range in Hy.
  apply in_bounds_iff. cbn [fst snd]. lia.
Qed.

Lemma candidate_springs_total (g : Grid) (rs : list CellRef) :
  (forall r, r ∈ rs -> exists c, deref g r = Ok c) ->
  exists l, candidate_springs g rs = Ok l.
Proof.
  induction rs as [|r rs IH]; intros H; cbn [candidate_springs].
  - eauto.
  - destruct (H r) as [c ->]; [left|]. cbn [bind].
    destruct IH as [tl ->]; [intros r' Hr'; apply H; right; exact Hr'|].
    cbn [bind]. eauto.
Qed.

Lemma walk_springs_total (w h : Z) (springs : list CellRef) :
  forall (g : Grid) (rng : Rng),
    wf_grid w h g ->
    (forall r, r ∈ springs -> in_bounds w h (fst r) (snd r) = true) ->
    exists g' rng' log,
      walk_springs w h g rng springs = Ok (g', rng', log) /\ wf_grid w h g'.
Proof.
  induction springs as [|spring rest IH]; intros g rng Hwf Hin; cbn [walk_springs].
  - eauto.
  - assert (Hb : in_bounds w h (fst spring) (snd spring) = true) by (apply Hin; left).
    destruct (deref_wf w h g (fst spring) (snd spring) Hwf Hb) as (s & Hs & Hx & Hy).
    unfold deref. rewrite Hs. cbn [bind]. rewrite Hx, Hy, Hs. cbn [bind].
    destruct (is_river s).
    + apply IH; [exact Hwf|]. intros r Hr. apply Hin. right. exact Hr.
    + destruct (river_walk_total RIVER_MAX_STEPS w h g rng (fst spring, snd spring) 0 []
                  Hwf Hb) as (r & Hr & Hwf' & _).
      rewrite Hr. cbn [bind].
      destruct (IH (walk_grid r) (walk_rng r) Hwf') as (g' & rng' & log & E & Hwf'').
      { intros r' Hr'. apply Hin. right. exact Hr'. }
      rewrite E. cbn [bind]. eauto.
Qed.

Lemma generate_rivers_total (world : WorldGenerator) (rng : Rng) :
  wf_world world -> 0 <= width world * height world < 2 ^ 63 ->
  exists world' rng',
    generate_rivers world rng = Ok (world', rng') /\
    width world' = width world /\ height world' = height world /\ wf_world world'.
Proof.
  intros Hwf Hdim. unfold wf_world in Hwf.
  destruct (candidate_springs_total (grid world) (all_refs (width world) (height world)))
    as [cands Hc].
  { intros r Hr. apply elem_of_all_refs in Hr.
    destruct (deref_wf _ _ _ _ _ Hwf Hr) as (c & Hc & _). exists c. exact Hc. }
  pose proof (candidate_springs_spec _ _ _ Hc) as [_ Hmem].
  assert (Hsel : exists springs rng1,
             select_springs world rng = Ok (springs, rng1) /\
             forall r, r ∈ springs ->
                       in_bounds (width world) (height world) (fst r) (snd r) = true).
  { unfold select_springs. rewrite Hc. cbn [bind]. destruct cands as [|c0 cs].
    - do 2 eexists. split; [reflexivity|]. intros r Hr. inversion Hr.
    - pose proof (shuffle_Permutation rng (c0 :: cs)) as Hp.
      destruct (shuffle rng (c0 :: cs)) as [shuffled rng1]. cbn [fst] in Hp.
      destruct (target_springs_total _ _ Hdim) as [t ->]. cbn [bind].
      do 2 eexists. split; [reflexivity|]. intros r Hr.
      apply elem_of_all_refs, Hmem. rewrite <- Hp.
      eapply subseteq_take. exact Hr. }
  destruct Hsel as (springs & rng1 & Hsel & Hin).
  unfold generate_rivers, generate_rivers_log. rewrite Hsel. cbn [bind].
  destruct (walk_springs_total _ _ springs (grid world) rng1 Hwf Hin)
    as (g' & rng' & log & E & Hwf').
  rewrite E. cbn [bind]. do 2 eexists. split; [reflexivity|]. auto.
Qed.

Lemma assign_biomes_total (world : WorldGenerator) :
  wf_world world ->
  exists world',
    assign_biomes world = Ok world' /\
    width world' = width world /\ height world' = height world /\ wf_world world'.
Proof.
  intros [Hs Hpop].
  assert (H : exists world', assign_biomes world = Ok world').
  { unfold assign_biomes.
    destruct (cell_pass_total (fun c => Ok (set_terrain (biome_of c) c))
                (width world) (height world) (grid world)) as [g' E].
    - eauto.
    - exact Hs.
    - intros i j Hi Hj. destruct (Hpop i j Hi Hj) as (c & Hc & _). eauto.
    - change (for_cells (width world) (height world)
                (fun cx cy g =>
                   let* h := get_cell g cx cy in
                   store_cell g cx cy (set_terrain (biome_of h) h))
                (grid world) = Ok g') in E.
      rewrite E. cbn [bind]. eauto. }
  destruct H as [world' H]. exists world'. split; [exact H|].
  apply assign_biomes_spec in H as (Ew & Eh & Hsh & Hcells & _).
  split; [exact Ew|]. split; [exact Eh|].
  unfold wf_world, wf_grid. rewrite Ew, Eh. split; [auto|].
  intros i j Hi Hj. destruct (Hcells i j Hi Hj) as (c & Hc & Hc').
  destruct (Hpop i j Hi Hj) as (c0 & Hc0 & Hx & Hy).
  rewrite Hc in Hc0. injection Hc0 as <-.
  exists (set_terrain (biome_of c) c). split; [exact Hc'|]. split; assumption.
Qed.

(** ** The whole pipeline *)

Lemma generate_total (ext : Externals) (seeds : Seeds) (w h : Z) (rng : Rng) :
  0 < w -> 0 < h -> w * h < 2 ^ 63 -> 0 <= SEED_ELEVATION seeds < 2 ^ 63 ->
  exists world rng',
    generate ext seeds w h rng = Ok (world, rng') /\
    width world = w /\ height world = h /\ wf_world world.
Proof.
  intros Hw Hh Hwh Hseed.
  assert (Hb : w < 2 ^ 63 /\ h < 2 ^ 63).
  { change (2 ^ 63) with 9223372036854775808 in *. nia. }
  destruct Hb as [Hbw Hbh].
  unfold generate.
  destruct (WorldGenerator_init w h) as [world0|e] eqn:H0; [|discriminate H0].
  cbn [bind].
  destruct (generate_base_layers_total ext seeds w h world0 Hseed ltac:(lia) ltac:(lia) H0)
    as (world1 & H1 & Ew1 & Eh1 & Hwf1).
  rewrite H1. cbn [bind].
  destruct (generate_rivers_total world1 rng Hwf1) as (world2 & rng' & H2 & Ew2 & Eh2 & Hwf2).
  { rewrite Ew1, Eh1. lia. }
  rewrite H2. cbn [bind].
  destruct (assign_biomes_total world2 Hwf2) as (world3 & H3 & Ew3 & Eh3 & Hwf3).
  rewrite H3. cbn [bind].
  exists world3, rng'. split; [reflexivity|]. split; [congruence|]. split; [congruence|].
  exact Hwf3.
Qed.

Lemma py_range_nonpos (n : Z) : n <= 0 -> py_range n = [].
Proof. intros H. unfold py_range. replace (Z.to_nat n) with O by lia. reflexivity. Qed.

Lemma for_each_skip {St : Type} (l : list Z) (body : Z -> St -> result St) (s : St) :
  (forall i t, body i t = Ok t) -> for_each l body s = Ok s.
Proof.
  intros H. induction l as [|i l IH]; cbn [for_each]; [reflexivity|].
  rewrite H. exact IH.
Qed.

Lemma for_cells_empty {St : Type} (w h : Z) (body : Z -> Z -> St -> result St) (s : St) :
  w <= 0 \/ h <= 0 -> for_cells w h body s = Ok s.
Proof.
  intros [H|H]; unfold for_cells.
  - rewrite (py_range_nonpos w H). reflexivity.
  - apply for_each_skip. intros i t. rewrite (py_range_nonpos h H). reflexivity.
Qed.

Lemma all_refs_empty (w h : Z) : w <= 0 \/ h <= 0 -> all_refs w h = [].
Proof.
  intros [H|H]; unfold all_refs.
  - rewrite (py_range_nonpos w H). reflexivity.
  - rewrite (py_range_nonpos h H). induction (py_range w) as [|z l IH]; [reflexivity|exact IH].
Qed.

Lemma init_no_cell (w h : Z) (world : WorldGenerator) :
  WorldGenerator_init w h = Ok world ->
  forall cx cy c, get_cell (grid world) cx cy <> Ok c.
Proof.
  intros [= <-] cx cy c H. apply get_cell_cell_at in H as (i & j & H).
  unfold cell_at, slot_at in H. cbn [grid] in H.
  rewrite list_lookup_fmap in H. destruct (py_range w !! i); cbn in H; [|discriminate].
  rewrite list_lookup_fmap in H. destruct (py_range h !! j); discriminate.
Qed.

Lemma generate_empty (ext : Externals) (seeds : Seeds) (w h : Z) (rng : Rng)
    (world : WorldGenerator) :
  w <= 0 \/ h <= 0 ->
  WorldGenerator_init w h = Ok world ->
  generate ext seeds w h rng = Ok (world, rng).
Proof.
  intros He H0. unfold generate. rewrite H0. cbn [bind].
  injection H0 as <-.
  unfold generate_base_layers. cbn [width height grid].
  rewrite for_cells_empty by exact He. cbn [bind].
  rewrite for_cells_empty by exact He. cbn [bind].
  unfold generate_rivers, generate_rivers_log, select_springs. cbn [width height grid].
  rewrite all_refs_empty by exact He. cbn [candidate_springs bind walk_springs].
  unfold assign_biomes. cbn [width height grid].
  rewrite for_cells_empty by exact He. reflexivity.
Qed.

Lemma randbelow_lt (g : Rng) (n : nat) : (0 < n)%nat -> ((randbelow g n).1 < n)%nat.
Proof.
  intros H. destruct g as [|r g]; cbn [randbelow fst]; [exact H|].
  apply Nat.mod_upper_bound. lia.
Qed.

Lemma draw_seeds_range (rng : Rng) : 0 <= SEED_ELEVATION (draw_seeds rng).1 <= 10000.
Proof.
  unfold draw_seeds.
  pose proof (randbelow_lt rng (Z.to_nat 10001) ltac:(lia)) as H.
  destruct (randbelow rng (Z.to_nat 10001)) as [a rng1].
  destruct (randbelow rng1 (Z.to_nat 10001)) as [b rng2].
  destruct (randbelow rng2 (Z.to_nat 10001)) as [c rng3].
  cbn [fst SEED_ELEVATION] in *. lia.
Qed.

(** ** Generation as a whole: what can and cannot raise *)

(** X1: with positive dimensions (fewer than 2^63 cells) and an elevation
    seed in range, the three passes run to the end: no division by zero, no
    index out of range, no conversion overflow; every slot of the rectangle
    then holds a cell that knows its own coordinates. *)
Theorem generate_populates_grid (ext : Externals) (seeds : Seeds) (w h : Z) (rng : Rng) :
  0 < w -> 0 < h -> w * h < 2 ^ 63 -> 0 <= SEED_ELEVATION seeds < 2 ^ 63 ->
  exists world rng',
    generate ext seeds w h rng = Ok (world, rng') /\
    width world = w /\ height world = h /\
    forall cx cy, 0 <= cx < w -> 0 <= cy < h ->
      exists c, get_cell (grid world) cx cy = Ok c /\ x c = cx /\ y c = cy.
Proof.
  intros Hw Hh Hwh Hseed.
  destruct (generate_total ext seeds w h rng Hw Hh Hwh Hseed)
    as (world & rng' & H & Ew & Eh & Hwf).
  exists world, rng'. split; [exact H|]. split; [exact Ew|]. split; [exact Eh|].
  intros cx cy Hx Hy. unfold wf_world in Hwf. rewrite Ew, Eh in Hwf.
  apply (deref_wf w h); [exact Hwf|]. apply in_bounds_iff. lia.
Qed.

Lemma generate_populates_grid_witness :
  exists world rng',
    generate sample_externals sample_seeds 3 1 [O] = Ok (world, rng') /\
    width world = 3 /\ height world = 1 /\
    forall cx cy, 0 <= cx < 3 -> 0 <= cy < 1 ->
      exists c, get_cell (grid world) cx cy = Ok c /\ x c = cx /\ y c = cy.
Proof.
  apply (generate_populates_grid sample_externals sample_seeds 3 1 [O]).
  - lia.
  - lia.
  - reflexivity.
  - split; [discriminate|reflexivity].
Defined.

(** X2: the constructor accepts a non-positive width or height; the grid it
    builds has no cell, the three passes then iterate over nothing, and
    generation returns that same generator with the random generator
    untouched. *)
Theorem generate_on_empty_grid (ext : Externals) (seeds : Seeds) (w h : Z) (rng : Rng) :
  w <= 0 \/ h <= 0 ->
  exists world,
    WorldGenerator_init w h = Ok world /\
    generate ext seeds w h rng = Ok (world, rng) /\
    forall cx cy c, get_cell (grid world) cx cy <> Ok c.
Proof.
  intros He.
  destruct (WorldGenerator_init w h) as [world|e] eqn:H0; [|discriminate H0].
  exists world. split; [reflexivity|]. split.
  - apply generate_empty; assumption.
  - apply (init_no_cell w h). exact H0.
Qed.

Lemma generate_on_empty_grid_witness :
  exists world,
    WorldGenerator_init 0 5 = Ok world /\
    generate sample_externals sample_seeds 0 5 [1%nat] = Ok (world, [1%nat]) /\
    forall cx cy c, get_cell (grid world) cx cy <> Ok c.
Proof.
  apply (generate_on_empty_grid sample_externals sample_seeds 0 5 [1%nat]).
  left. lia.
Defined.

(** X3: the per-cell normalisation of pass 2 never raises, whatever
    extremes pass 1 recorded: a span [hi - lo] taken when [hi > lo] is never
    zero, and the base of either power is never negative.  It rewrites the
    three layers and nothing else. *)
Theorem normalize_cell_never_raises (ext : Externals) (acc : Extremes) (cell : HexData) :
  exists e m t,
    normalize_cell ext acc cell = Ok (set_layers e m t cell) /\
    in_unit m /\ in_unit t.
Proof.
  destruct (normalize_cell_total ext acc cell) as [cell' H].
  destruct (normalize_cell_spec ext acc cell cell' H) as (e & m & t & -> & Hm & Ht & _).
  exists e, m, t. split; [exact H|]. split; assumption.
Qed.

(** X4: the script's own run, 200 by 160 with the seeds drawn when the
    module is loaded, reaches the end of classification for every state of
    the random generator. *)
Theorem script_generation_never_raises (ext : Externals) (rng : Rng) :
  exists world rng',
    main ext rng = Ok (world, rng') /\
    width world = 200 /\ height world = 160 /\ wf_world world.
Proof.
  unfold main. pose proof (draw_seeds_range rng) as Hs.
  destruct (draw_seeds rng) as [seeds rng1]. cbn [fst] in Hs.
  destruct (generate_total ext seeds MAP_WIDTH MAP_HEIGHT rng1)
    as (world & rng' & H & Ew & Eh & Hwf); try reflexivity.
  - change (2 ^ 63) with 9223372036854775808. lia.
  - exists world, rng'. split; [exact H|]. split; [exact Ew|]. split; [exact Eh|exact Hwf].
Qed.

(** ** Neighbourhoods *)

Lemma NoDup_directions (cx : Z) : NoDup (directions cx).
Proof.
  unfold directions. destruct (negb _); apply (bool_decide_unpack _); vm_compute; exact I.
Qed.

Lemma NoDup_neighbor_refs (w h cx cy : Z) : NoDup (neighbor_refs w h cx cy).
Proof.
  unfold neighbor_refs. apply NoDup_filter, NoDup_fmap_2; [|apply NoDup_directions].
  intros [a b] [a' b'] [= H1 H2]. f_equal; lia.
Qed.

Lemma length_directions (cx : Z) : length (directions cx) = 6%nat.
Proof. unfold directions. destruct (negb _); reflexivity. Qed.

(** X5: on a populated grid [get_neighbors] never raises, for coordinates
    inside or outside the grid; it returns at most six cells, without
    repetition, all in bounds, none of them the cell itself, each one column
    and one row away at most; an interior cell gets exactly six. *)
Theorem get_neighbors_on_populated (world : WorldGenerator) (cx cy : Z) :
  wf_world world ->
  exists ns,
    get_neighbors world cx cy = Ok ns /\
    (length ns <= 6)%nat /\ NoDup ns /\
    (forall r, r ∈ ns ->
       in_bounds (width world) (height world) (fst r) (snd r) = true /\
       r <> (cx, cy) /\ -1 <= fst r - cx <= 1 /\ -1 <= snd r - cy <= 1) /\
    (interior (width world) (height world) cx cy -> length ns = 6%nat).
Proof.
  destruct world as [w h g]. unfold wf_world. cbn [width height grid]. intros Hwf.
  exists (neighbor_refs w h cx cy). split; [apply get_neighbors_wf; exact Hwf|].
  split; [|split; [apply NoDup_neighbor_refs|split]].
  - unfold neighbor_refs. etransitivity; [apply length_filter|].
    rewrite length_map, length_directions. lia.
  - intros r Hr. split; [apply (neighbor_refs_in_bounds w h cx cy); exact Hr|].
    split.
    + intros ->. exact (neighbor_refs_not_self w h cx cy Hr).
    + apply elem_of_neighbor_refs in Hr as (_ & d & Hd & ->). cbn [fst snd].
      apply directions_cases in Hd as [[_ Hd]|[_ Hd]];
        repeat (destruct Hd as [->|Hd]); try subst d; cbn [fst snd]; lia.
  - intros Hint. unfold neighbor_refs, interior in *.
    assert (E : filter (fun p => in_bounds w h (fst p) (snd p) = true)
                       (map (fun d => (cx + fst d, cy + snd d)) (directions cx))
                = map (fun d => (cx + fst d, cy + snd d)) (directions cx)).
    { induction (directions cx) as [|d l IH]; [reflexivity|].
      apply Forall_cons in Hint as [Hd Hl]. cbn [map].
      rewrite filter_cons_True by exact Hd. f_equal. apply IH. exact Hl. }
    rewrite E, length_map. apply length_directions.
Qed.

Lemma get_neighbors_on_populated_witness :
  exists ns,
    get_neighbors scenario_A 1 0 = Ok ns /\
    (length ns <= 6)%nat /\ NoDup ns /\
    (forall r, r ∈ ns ->
       in_bounds (width scenario_A) (height scenario_A) (fst r) (snd r) = true /\
       r <> (1, 0) /\ -1 <= fst r - 1 <= 1 /\ -1 <= snd r - 0 <= 1) /\
    (interior (width scenario_A) (height scenario_A) 1 0 -> length ns = 6%nat).
Proof. apply (get_neighbors_on_populated scenario_A 1 0). exact scenario_A_wf. Defined.

(** X6: [cartesian_to_axial] is one-to-one: two cells get the same axial
    pair only if they are the same cell. *)
Theorem cartesian_to_axial_one_to_one (x1 y1 x2 y2 : Z) :
  cartesian_to_axial x1 y1 = cartesian_to_axial x2 y2 <-> (x1, y1) = (x2, y2).
Proof.
  split; [|intros [= -> ->]; reflexivity].
  unfold cartesian_to_axial. cbv zeta. intros [= -> H]. f_equal.
  destruct (x2 mod 2 =? 0); lia.
Qed.

(** X7: in the axial coordinates of [cartesian_to_axial], the six cells
    [get_neighbors] looks at lie at offsets that depend on the parity of the
    column; the steps [(1, -2)] and [(-1, -1)] from an even column, and
    [(1, 1)] and [(-1, 2)] from an odd one, are not among the six unit steps
    of an axial grid. *)
Theorem neighbors_in_axial_coordinates (cx cy : Z) :
  map (axial_offset cx cy) (directions cx) =
  if cx mod 2 =? 0
  then [(0, -1); (1, -2); (1, -1); (0, 1); (-1, 0); (-1, -1)]
  else [(0, -1); (1, 0); (1, 1); (0, 1); (-1, 2); (-1, 1)].
Proof.
  unfold directions.
  destruct (Z.eqb_spec (cx mod 2) 0) as [E|E]; cbn [negb map directions_even directions_odd];
    unfold axial_offset, cartesian_to_axial; cbv zeta; cbn [fst snd];
    rewrite ?Z.add_0_r;
    repeat match goal with
           | |- context [?a mod 2 =? 0] => destruct (Z.eqb_spec (a mod 2) 0)
           end;
    repeat (f_equal; try (Z.to_euclidean_division_equations; lia));
    exfalso; Z.to_euclidean_division_equations; lia.
Qed.

(** ** Hydrology only raises flags *)

Lemma flags_raised_refl (c : HexData) : flags_raised c c.
Proof. unfold flags_raised. repeat split; auto. Qed.

Lemma flags_raised_trans (a b c : HexData) :
  flags_raised a b -> flags_raised b c -> flags_raised a c.
Proof.
  unfold flags_raised.
  intros (H1 & H2 & H3 & H4 & H5 & H6 & H7 & H8 & H9 & H10)
         (K1 & K2 & K3 & K4 & K5 & K6 & K7 & K8 & K9 & K10).
  repeat split; try congruence; auto.
Qed.

Lemma grid_flags_raised_refl (g : Grid) : grid_flags_raised g g.
Proof.
  split; [auto|]. intros i j. destruct (slot_at g i j) as [[c|]|]; auto.
  exists c. split; [reflexivity|apply flags_raised_refl].
Qed.

Lemma grid_flags_raised_trans (g1 g2 g3 : Grid) :
  grid_flags_raised g1 g2 -> grid_flags_raised g2 g3 -> grid_flags_raised g1 g3.
Proof.
  intros [S1 H1] [S2 H2]. split; [auto|]. intros i j.
  specialize (H1 i j). specialize (H2 i j).
  destruct (slot_at g1 i j) as [[c|]|].
  - destruct H1 as (c' & E & R). rewrite E in H2. destruct H2 as (c'' & E' & R').
    exists c''. split; [exact E'|]. eapply flags_raised_trans; eauto.
  - rewrite H1 in H2. exact H2.
  - rewrite H1 in H2. exact H2.
Qed.

Lemma update_cell_flags_raised (g g' : Grid) (r : CellRef) (f : HexData -> HexData) :
  (forall c, flags_raised c (f c)) ->
  update_cell g r f = Ok g' -> grid_flags_raised g g'.
Proof.
  intros Hf H. apply update_cell_spec in H as (i & j & c & _ & Hc & Hs & _ & Hsh).
  split; [exact Hsh|]. intros i' j'. rewrite Hs.
  destruct (decide (i' = i /\ j' = j)) as [[-> ->]|Hne].
  - unfold cell_at in Hc. destruct (slot_at g i j) as [[c0|]|]; try discriminate.
    injection Hc as ->. exists (f c). split; [reflexivity|apply Hf].
  - destruct (slot_at g i' j') as [[c0|]|]; auto.
    exists c0. split; [reflexivity|apply flags_raised_refl].
Qed.

Lemma set_is_river_raises (c : HexData) : flags_raised c (set_is_river c).
Proof. unfold flags_raised. cbn. repeat split; auto. Qed.

Lemma set_is_lake_raises (c : HexData) : flags_raised c (set_is_lake c).
Proof. unfold flags_raised. cbn. repeat split; auto. Qed.

Lemma river_walk_flags_raised (fuel : nat) :
  forall (w h : Z) (g : Grid) (rng : Rng) (cur : CellRef) (steps : nat)
         (path : list CellRef) (r : WalkResult),
    river_walk fuel w h g rng cur steps path = Ok r ->
    grid_flags_raised g (walk_grid r).
Proof.
  induction fuel as [|fuel IH]; intros w h g rng cur steps path r H; simpl in H.
  - injection H as <-. apply grid_flags_raised_refl.
  - apply bind_Ok in H as (g1 & Hu & H).
    pose proof (update_cell_flags_raised _ _ _ _ set_is_river_raises Hu) as H1.
    apply bind_Ok in H as (ns & Hn & H).
    destruct ns as [|n ns].
    + injection H as <-. exact H1.
    + destruct (shuffle rng (n :: ns)) as [shuffled rng1].
      apply bind_Ok in H as (lowest & Hmin & H).
      apply bind_Ok in H as (lo & Hlo & H).
      apply bind_Ok in H as (cc & Hcc & H).
      destruct (geb (elevation lo) (elevation cc)).
      * apply bind_Ok in H as (g2 & Hu2 & H). injection H as <-. cbn [walk_grid].
        eapply grid_flags_raised_trans; [exact H1|].
        exact (update_cell_flags_raised _ _ _ _ set_is_lake_raises Hu2).
      * destruct (elevation lo <? 0.3)%float.
        -- apply bind_Ok in H as (g2 & Hu2 & H). injection H as <-. cbn [walk_grid].
           eapply grid_flags_raised_trans; [exact H1|].
           exact (update_cell_flags_raised _ _ _ _ set_is_river_raises Hu2).
        -- eapply grid_flags_raised_trans; [exact H1|]. eapply IH. exact H.
Qed.

Lemma walk_springs_flags_raised (w h : Z) (springs : list CellRef) :
  forall (g : Grid) (rng : Rng) (g' : Grid) (rng' : Rng) (log : list WalkResult),
    walk_springs w h g rng springs = Ok (g', rng', log) ->
    grid_flags_raised g g'.
Proof.
  induction springs as [|spring rest IH]; intros g rng g' rng' log H.
  - injection H as <- <- <-. apply grid_flags_raised_refl.
  - cbn [walk_springs] in H.
    apply bind_Ok in H as (s & Hs & H).
    apply bind_Ok in H as (at_spring & Hat & H).
    destruct (is_river at_spring).
    + eapply IH; eauto.
    + apply bind_Ok in H as (r & Hr & H).
      apply bind_Ok in H as ([[g2 rng2] log2] & Hw & H).
      injection H as <- <- <-.
      eapply grid_flags_raised_trans; [|eapply IH; exact Hw].
      exact (river_walk_flags_raised _ _ _ _ _ _ _ _ _ Hr).
Qed.

(** X8: hydrology changes no coordinate, layer, terrain, road level or
    dominion of any cell, creates and removes no cell, and never clears a
    flag: all it does is raise [is_river] and [is_lake]. *)
Theorem generate_rivers_only_raises_flags (world world' : WorldGenerator)
    (rng rng' : Rng) :
  generate_rivers world rng = Ok (world', rng') ->
  width world' = width world /\ height world' = height world /\
  grid_flags_raised (grid world) (grid world').
Proof.
  intros H. apply generate_rivers_as_log in H as [log H].
  apply generate_rivers_log_grid in H as (Ew & Eh & springs & rng1 & _ & Hw).
  split; [exact Ew|]. split; [exact Eh|].
  eapply walk_springs_flags_raised. exact Hw.
Qed.

Lemma generate_rivers_only_raises_flags_witness :
  width sample_rivers = width sample_layers /\
  height sample_rivers = height sample_layers /\
  grid_flags_raised (grid sample_layers) (grid sample_rivers).
Proof.
  apply (generate_rivers_only_raises_flags sample_layers sample_rivers [O] []).
  vm_compute. reflexivity.
Defined.

(** ** Rivers run downhill *)

Lemma cell_at_slot_at (g : Grid) (i j : nat) (c : HexData) :
  cell_at g i j = Some c <-> slot_at g i j = Some (Some c).
Proof.
  unfold cell_at. destruct (slot_at g i j) as [[c0|]|]; split; congruence.
Qed.

Lemma cell_at_flags_raised (g g' : Grid) (i j : nat) (c : HexData) :
  grid_flags_raised g g' -> cell_at g i j = Some c ->
  exists c', cell_at g' i j = Some c' /\ flags_raised c c'.
Proof.
  intros [_ H] Hc. specialize (H i j). apply cell_at_slot_at in Hc. rewrite Hc in H.
  destruct H as (c' & E & R). exists c'. split; [apply cell_at_slot_at; exact E|exact R].
Qed.

Lemma deref_flags_raised (g g' : Grid) (p : CellRef) (c : HexData) :
  grid_flags_raised g g' -> 0 <= fst p -> 0 <= snd p -> deref g p = Ok c ->
  exists c', deref g' p = Ok c' /\ flags_raised c c'.
Proof.
  intros H Hx Hy Hd. unfold deref in *.
  apply get_cell_nonneg in Hd; [|exact Hx|exact Hy].
  destruct (cell_at_flags_raised _ _ _ _ _ H Hd) as (c' & Hc' & R).
  exists c'. split; [|exact R]. apply get_cell_nonneg; assumption.
Qed.

Lemma flows_to_flags_raised (w h : Z) (g g' : Grid) (a b : CellRef) :
  grid_flags_raised g g' -> in_bounds w h (fst a) (snd a) = true ->
  flows_to w h g a b -> flows_to w h g' a b.
Proof.
  intros H Ha (Hn & ca & cb & Hca & Hcb & Hge).
  apply in_bounds_iff in Ha as [Hax Hay].
  pose proof (neighbor_refs_in_bounds _ _ _ _ _ Hn) as Hb.
  apply in_bounds_iff in Hb as [Hbx Hby].
  destruct (deref_flags_raised g g' a ca H ltac:(lia) ltac:(lia) Hca) as (ca' & Hca' & Ra).
  destruct (deref_flags_raised g g' b cb H ltac:(lia) ltac:(lia) Hcb) as (cb' & Hcb' & Rb).
  split; [exact Hn|]. exists ca', cb'. split; [exact Hca'|]. split; [exact Hcb'|].
  destruct Ra as (_ & _ & -> & _). destruct Rb as (_ & _ & -> & _). exact Hge.
Qed.

Lemma river_cell_flags_raised (w h : Z) (g g' : Grid) (p : CellRef) :
  grid_flags_raised g g' ->
  in_bounds w h (fst p) (snd p) = true /\
    (exists c, deref g p = Ok c /\ is_river c = true) ->
  in_bounds w h (fst p) (snd p) = true /\
    (exists c, deref g' p = Ok c /\ is_river c = true).
Proof.
  intros H [Hb (c & Hc & Hr)]. split; [exact Hb|].
  apply in_bounds_iff in Hb as [Hx Hy].
  destruct (deref_flags_raised g g' p c H ltac:(lia) ltac:(lia) Hc) as (c' & Hc' & R).
  exists c'. split; [exact Hc'|]. apply R. exact Hr.
Qed.

Lemma river_walk_path (fuel : nat) :
  forall (w h : Z) (g : Grid) (rng : Rng) (cur : CellRef) (steps : nat)
         (path : list CellRef) (r : WalkResult),
    wf_grid w h g -> in_bounds w h (fst cur) (snd cur) = true ->
    river_walk fuel w h g rng cur steps path = Ok r ->
    exists rest,
      walk_path r = path ++ rest /\
      (fuel = O -> rest = []) /\
      (fuel <> O -> head rest = Some cur) /\
      downhill w h (walk_grid r) rest /\
      Forall (fun p => in_bounds w h (fst p) (snd p) = true /\
                       exists c, deref (walk_grid r) p = Ok c /\ is_river c = true) rest.
Proof.
  induction fuel as [|fuel IH]; intros w h g rng cur steps path r Hwf Hb H.
  - cbn [river_walk] in H. injection H as <-. exists []. cbn [walk_path].
    rewrite app_nil_r. repeat split; auto; congruence.
  - destruct (update_cell_wf w h g cur set_is_river Hwf Hb)
      as (g1 & c0 & Hu & Hd0 & Hwf1 & Hcell1); [intros c; split; reflexivity|].
    pose proof (get_neighbors_wf w h g1 (fst cur) (snd cur) Hwf1) as Hn.
    destruct (update_cell_deref _ _ _ _ Hu) as (c0' & Hd0' & Hcc).
    assert (c0' = c0) by congruence. subst c0'. clear Hd0'.
    assert (Hcur1 : in_bounds w h (fst cur) (snd cur) = true /\
                    exists c, deref g1 cur = Ok c /\ is_river c = true).
    { split; [exact Hb|]. exists (set_is_river c0). split; [exact Hcc|reflexivity]. }
    cbn [river_walk] in H. rewrite Hu in H. cbn [bind] in H.
    rewrite Hn in H. cbn [bind] in H.
    destruct (neighbor_refs w h (fst cur) (snd cur)) as [|n ns] eqn:En.
    + injection H as <-. exists [cur]. cbn [walk_path walk_grid].
      split; [reflexivity|]. split; [discriminate|]. split; [reflexivity|].
      split; [exact I|]. constructor; [exact Hcur1|constructor].
    + pose proof (shuffle_Permutation rng (n :: ns)) as Hperm.
      destruct (shuffle rng (n :: ns)) as [shuffled rng1] eqn:Hsh. cbn [fst] in Hperm.
      destruct (Permutation_cons_inv_shape _ _ _ Hperm) as (s0 & ss & ->).
      destruct (min_by_elevation_total g1 s0 ss) as (lowest & Hmin & Hlow).
      { intros r' Hr'. rewrite Hperm, <- En in Hr'. apply neighbor_refs_in_bounds in Hr'.
        destruct (deref_wf _ _ _ _ _ Hwf1 Hr') as (c & Hc & _). eauto. }
      rewrite Hperm, <- En in Hlow.
      pose proof (neighbor_refs_in_bounds _ _ _ _ _ Hlow) as Hlb.
      destruct (deref_wf _ _ _ _ _ Hwf1 Hlb) as (lo & Hlo & Hlx & Hly).
      rewrite Hmin in H. cbn [bind] in H.
      unfold deref in H at 1. rewrite Hlo in H. cbn [bind] in H.
      rewrite Hcc in H. cbn [bind] in H.
      assert (Hflow : geb (elevation lo) (elevation (set_is_river c0)) = false ->
                      flows_to w h g1 cur lowest).
      { intros Hge. split; [exact Hlow|].
        exists (set_is_river c0), lo. split; [exact Hcc|]. split; [exact Hlo|exact Hge]. }
      destruct (geb (elevation lo) (elevation (set_is_river c0))) eqn:Hge.
      * apply bind_Ok in H as (g2 & Hu2 & H). injection H as <-.
        pose proof (update_cell_flags_raised _ _ _ _ set_is_lake_raises Hu2) as H12.
        exists [cur]. cbn [walk_path walk_grid].
        split; [reflexivity|]. split; [discriminate|]. split; [reflexivity|].
        split; [exact I|]. constructor; [|constructor].
        exact (river_cell_flags_raised w h _ _ _ H12 Hcur1).
      * destruct (elevation lo <? 0.3)%float eqn:Hsea.
        -- apply bind_Ok in H as (g2 & Hu2 & H). injection H as <-.
           pose proof (update_cell_flags_raised _ _ _ _ set_is_river_raises Hu2) as H12.
           destruct (update_cell_deref _ _ _ _ Hu2) as (lo' & Hdl & Hdl').
           exists [cur; lowest]. cbn [walk_path walk_grid].
           split; [rewrite <- app_assoc; reflexivity|]. split; [discriminate|].
           split; [reflexivity|]. split.
           { cbn [downhill]. split; [|exact I].
             apply (flows_to_flags_raised w h g1); [exact H12|exact Hb|].
             apply Hflow. reflexivity. }
           constructor; [exact (river_cell_flags_raised w h _ _ _ H12 Hcur1)|].
           constructor; [|constructor]. split; [exact Hlb|].
           exists (set_is_river lo'). split; [exact Hdl'|reflexivity].
        -- assert (Hnext : (x lo, y lo) = lowest).
           { rewrite Hlx, Hly. destruct lowest; reflexivity. }
           rewrite Hnext in H.
           pose proof (river_walk_flags_raised _ _ _ _ _ _ _ _ _ H) as H1f.
           destruct (IH w h g1 rng1 lowest (S steps) (path ++ [cur]) r Hwf1 Hlb H)
             as (rest & Ep & Hz & Hhd & Hdown & Hall).
           exists (cur :: rest).
           split; [rewrite Ep, <- app_assoc; reflexivity|]. split; [discriminate|].
           split; [reflexivity|]. split.
           { cbn [downhill]. destruct rest as [|b tl]; [exact I|].
             split; [|exact Hdown].
             assert (b = lowest).
             { destruct fuel as [|fuel']; [specialize (Hz eq_refl); discriminate|].
               specialize (Hhd ltac:(discriminate)). cbn in Hhd. congruence. }
             subst b.
             apply (flows_to_flags_raised w h g1); [exact H1f|exact Hb|].
             apply Hflow. reflexivity. }
           constructor; [|exact Hall].
           exact (river_cell_flags_raised w h _ _ _ H1f Hcur1).
Qed.

Lemma not_nan_SF (v : float) : is_nan v = false -> Prim2SF v <> S754_nan.
Proof.
  unfold is_nan. rewrite FloatAxioms.eqb_spec. intros H E. rewrite E in H. discriminate H.
Qed.

Lemma SFcompare_not_le (a b : spec_float) :
  a <> S754_nan -> b <> S754_nan ->
  SFleb a b = false -> SFltb b a = true.
Proof.
  unfold SFleb, SFltb.
  destruct a as [sa|sa| |sa ma ea], b as [sb|sb| |sb mb eb];
    cbn [SFcompare]; try congruence;
    try destruct sa; try destruct sb; try discriminate; try reflexivity.
  all: intros _ _.
  all: rewrite (Z.compare_antisym ea eb).
  all: change (Pos.compare_cont Eq mb ma) with (mb ?= ma)%positive.
  all: change (Pos.compare_cont Eq ma mb) with (ma ?= mb)%positive.
  all: rewrite (Pos.compare_antisym ma mb).
  all: destruct (ea ?= eb); cbn [CompOpp]; try discriminate; try reflexivity.
  all: destruct (ma ?= mb)%positive; cbn [CompOpp]; try discriminate; reflexivity.
Qed.

Lemma float_not_leb_ltb (a b : float) :
  is_nan a = false -> is_nan b = false ->
  (a <=? b)%float = false -> (b <? a)%float = true.
Proof.
  intros Ha Hb. rewrite leb_spec, ltb_spec.
  apply SFcompare_not_le; apply not_nan_SF; assumption.
Qed.

Lemma downhill_lookup (w h : Z) (g : Grid) (l : list CellRef) :
  downhill w h g l ->
  forall k a b, l !! k = Some a -> l !! S k = Some b -> flows_to w h g a b.
Proof.
  induction l as [|a0 [|b0 tl] IH]; intros Hd k a b Ha Hb.
  - rewrite lookup_nil in Ha. discriminate.
  - destruct k; cbn in Hb; discriminate.
  - cbn [downhill] in Hd. destruct Hd as [Hf Hd]. destruct k as [|k].
    + cbn in Ha, Hb. injection Ha as <-. injection Hb as <-. exact Hf.
    + apply (IH Hd k); assumption.
Qed.

(** X9: a walk on a populated grid starts at its spring, and each cell it
    flags is followed by one of that cell's neighbours for which the test
    [lowest.elevation >= current.elevation] failed; where neither of the
    two elevations is a NaN, that neighbour is strictly lower.  The walk
    never jumps; every cell on its path is in bounds and ends flagged
    [is_river]. *)
Theorem river_runs_downhill (world : WorldGenerator) (rng : Rng) (spring : CellRef) :
  wf_world world ->
  in_bounds (width world) (height world) (fst spring) (snd spring) = true ->
  exists r,
    river_walk RIVER_MAX_STEPS (width world) (height world) (grid world) rng spring 0 []
      = Ok r /\
    head (walk_path r) = Some spring /\
    downhill (width world) (height world) (walk_grid r) (walk_path r) /\
    (forall k a b ca cb,
       walk_path r !! k = Some a -> walk_path r !! S k = Some b ->
       deref (walk_grid r) a = Ok ca -> deref (walk_grid r) b = Ok cb ->
       is_nan (elevation ca) = false -> is_nan (elevation cb) = false ->
       (elevation cb <? elevation ca)%float = true) /\
    forall p, p ∈ walk_path r ->
      in_bounds (width world) (height world) (fst p) (snd p) = true /\
      exists c, deref (walk_grid r) p = Ok c /\ is_river c = true.
Proof.
  intros Hwf Hb. unfold wf_world in Hwf.
  destruct (river_walk_total RIVER_MAX_STEPS _ _ _ rng spring 0%nat [] Hwf Hb)
    as (r & Hr & _).
  exists r. split; [exact Hr|].
  destruct (river_walk_path _ _ _ _ _ _ _ _ _ Hwf Hb Hr) as (rest & Ep & _ & Hhd & Hd & Hall).
  cbn [app] in Ep. rewrite Ep. split; [apply Hhd; discriminate|]. split; [exact Hd|].
  split.
  - intros k a b ca cb Ha Hb' Hca Hcb Na Nb.
    destruct (downhill_lookup _ _ _ _ Hd k a b Ha Hb') as (_ & ca' & cb' & Hca' & Hcb' & Hge).
    assert (ca' = ca) by congruence. assert (cb' = cb) by congruence. subst ca' cb'.
    unfold geb in Hge. apply float_not_leb_ltb; assumption.
  - intros p Hp. rewrite Forall_forall in Hall. apply Hall. exact Hp.
Qed.

Lemma river_runs_downhill_witness :
  exists r,
    river_walk RIVER_MAX_STEPS (width scenario_A) (height scenario_A) (grid scenario_A)
      [] (0, 0) 0 [] = Ok r /\
    head (walk_path r) = Some (0, 0) /\
    downhill (width scenario_A) (height scenario_A) (walk_grid r) (walk_path r) /\
    (forall k a b ca cb,
       walk_path r !! k = Some a -> walk_path r !! S k = Some b ->
       deref (walk_grid r) a = Ok ca -> deref (walk_grid r) b = Ok cb ->
       is_nan (elevation ca) = false -> is_nan (elevation cb) = false ->
       (elevation cb <? elevation ca)%float = true) /\
    forall p, p ∈ walk_path r ->
      in_bounds (width scenario_A) (height scenario_A) (fst p) (snd p) = true /\
      exists c, deref (walk_grid r) p = Ok c /\ is_river c = true.
Proof.
  apply (river_runs_downhill scenario_A [] (0, 0)).
  - exact scenario_A_wf.
  - reflexivity.
Defined.

(** ** Where there is a spring line there is a river *)

Lemma all_refs_elem_of (w h cx cy : Z) :
  in_bounds w h cx cy = true -> (cx, cy) ∈ all_refs w h.
Proof.
  intros H. apply in_bounds_iff in H as [Hx Hy].
  unfold all_refs. apply list_elem_of_In, in_flat_map. exists cx. split.
  - unfold py_range. apply in_map_iff. exists (Z.to_nat cx). split; [lia|].
    apply in_seq. lia.
  - apply in_map_iff. exists cy. split; [reflexivity|].
    unfold py_range. apply in_map_iff. exists (Z.to_nat cy). split; [lia|].
    apply in_seq. lia.
Qed.

Lemma walk_springs_first (w h : Z) (g g' : Grid) (rng rng' : Rng) (s : CellRef)
    (rest : list CellRef) (log : list WalkResult) :
  wf_grid w h g -> in_bounds w h (fst s) (snd s) = true ->
  walk_springs w h g rng (s :: rest) = Ok (g', rng', log) ->
  exists c c', deref g s = Ok c /\ deref g' s = Ok c' /\
               flags_raised c c' /\ is_river c' = true.
Proof.
  intros Hwf Hb H.
  pose proof Hb as Hb'. apply in_bounds_iff in Hb' as [Hx Hy].
  destruct (deref_wf w h g (fst s) (snd s) Hwf Hb) as (c & Hc & Hcx & Hcy).
  cbn [walk_springs] in H. unfold deref in H at 1. rewrite Hc in H. cbn [bind] in H.
  rewrite Hcx, Hcy, Hc in H. cbn [bind] in H.
  destruct (is_river c) eqn:Hr.
  - apply walk_springs_flags_raised in H.
    destruct (deref_flags_raised g g' s c H ltac:(lia) ltac:(lia) Hc) as (c' & Hc' & R).
    exists c, c'. split; [exact Hc|]. split; [exact Hc'|]. split; [exact R|].
    apply R. exact Hr.
  - apply bind_Ok in H as (r & Hw & H).
    apply bind_Ok in H as ([[g2 rng2] log2] & Hrest & H). injection H as <- <- <-.
    replace (fst s, snd s) with s in Hw by (destruct s; reflexivity).
    pose proof (river_walk_flags_raised _ _ _ _ _ _ _ _ _ Hw) as H1.
    destruct (river_walk_path _ _ _ _ _ _ _ _ _ Hwf Hb Hw)
      as (path & Ep & _ & Hhd & _ & Hall).
    specialize (Hhd ltac:(discriminate)).
    destruct path as [|p tl]; [discriminate|]. cbn in Hhd. injection Hhd as ->.
    apply Forall_cons in Hall as [[_ (c1 & Hc1 & Hr1)] _].
    destruct (deref_flags_raised g (walk_grid r) s c H1 ltac:(lia) ltac:(lia) Hc)
      as (c1' & Hc1' & R1).
    assert (c1' = c1) by congruence. subst c1'.
    apply walk_springs_flags_raised in Hrest.
    destruct (deref_flags_raised (walk_grid r) g2 s c1 Hrest ltac:(lia) ltac:(lia) Hc1)
      as (c' & Hc' & R2).
    exists c, c'. split; [exact Hc|]. split; [exact Hc'|].
    split; [eapply flags_raised_trans; eauto|]. apply R2. exact Hr1.
Qed.

Lemma select_springs_nonempty (world : WorldGenerator) (rng rng1 : Rng)
    (springs : list CellRef) (p : CellRef) (c : HexData) :
  select_springs world rng = Ok (springs, rng1) ->
  p ∈ all_refs (width world) (height world) ->
  deref (grid world) p = Ok c -> geb (elevation c) SPRING_MIN_ELEVATION = true ->
  exists s rest cs,
    springs = s :: rest /\
    in_bounds (width world) (height world) (fst s) (snd s) = true /\
    deref (grid world) s = Ok cs /\ geb (elevation cs) SPRING_MIN_ELEVATION = true.
Proof.
  intros H Hp Hc Hge. unfold select_springs in H.
  apply bind_Ok in H as (cands & Hcands & H).
  pose proof (candidate_springs_spec _ _ _ Hcands) as [_ Hmem].
  assert (Hin : p ∈ cands) by (apply Hmem; eauto).
  destruct cands as [|c0 cs0]; [inversion Hin|].
  pose proof (shuffle_Permutation rng (c0 :: cs0)) as Hperm.
  destruct (shuffle rng (c0 :: cs0)) as [shuffled rng2]. cbn [fst] in Hperm.
  apply bind_Ok in H as (t & Ht & H). injection H as <- <-.
  apply target_springs_Ok in Ht as (cells & n & _ & _ & ->).
  destruct (Permutation_cons_inv_shape _ _ _ Hperm) as (s & rest & ->).
  assert (Hn : Z.to_nat (Z.min (Z.of_nat (length (s :: rest))) (Z.max 1 n))
               = S (Nat.pred (Z.to_nat (Z.min (Z.of_nat (length (s :: rest))) (Z.max 1 n))))).
  { cbn [length]. lia. }
  rewrite Hn. cbn [take].
  assert (Hs : s ∈ c0 :: cs0) by (rewrite <- Hperm; left).
  apply Hmem in Hs as (Hall & cs & Hcs & Hges).
  exists s, (take (Nat.pred (Z.to_nat (Z.min (Z.of_nat (length (s :: rest))) (Z.max 1 n)))) rest), cs.
  split; [reflexivity|]. split; [apply elem_of_all_refs; exact Hall|]. split; assumption.
Qed.

(** X10: on a populated grid (fewer than 2^63 cells) with at least one cell
    at or above the spring line 0.7, hydrology returns with at least one
    such cell flagged [is_river]: the first spring of the shuffled
    selection is either a river already or the start of a walk. *)
Theorem spring_line_gets_a_river (world : WorldGenerator) (rng : Rng) (p : CellRef)
    (c : HexData) :
  wf_world world -> 0 <= width world * height world < 2 ^ 63 ->
  in_bounds (width world) (height world) (fst p) (snd p) = true ->
  deref (grid world) p = Ok c -> geb (elevation c) SPRING_MIN_ELEVATION = true ->
  exists world' rng' s c',
    generate_rivers world rng = Ok (world', rng') /\
    deref (grid world') s = Ok c' /\
    geb (elevation c') SPRING_MIN_ELEVATION = true /\ is_river c' = true.
Proof.
  intros Hwf Hdim Hb Hc Hge.
  destruct (generate_rivers_total world rng Hwf Hdim) as (world' & rng' & H & _).
  exists world', rng'.
  pose proof H as H'. apply generate_rivers_as_log in H' as [log H'].
  apply generate_rivers_log_grid in H' as (_ & _ & springs & rng1 & Hsel & Hw).
  destruct (select_springs_nonempty world rng rng1 springs p c Hsel) as
    (s & rest & cs & -> & Hsb & Hcs & Hges); [|exact Hc|exact Hge|].
  { destruct p. apply all_refs_elem_of. exact Hb. }
  destruct (walk_springs_first _ _ _ _ _ _ _ _ _ Hwf Hsb Hw) as (c1 & c' & Hc1 & Hc' & R & Hr).
  assert (c1 = cs) by congruence. subst c1.
  exists s, c'. split; [exact H|]. split; [exact Hc'|]. split; [|exact Hr].
  destruct R as (_ & _ & -> & _). exact Hges.
Qed.

Lemma spring_line_gets_a_river_witness :
  exists world' rng' s c',
    generate_rivers scenario_A [] = Ok (world', rng') /\
    deref (grid world') s = Ok c' /\
    geb (elevation c') SPRING_MIN_ELEVATION = true /\ is_river c' = true.
Proof.
  apply (spring_line_gets_a_river scenario_A [] (0, 0)
           (new_HexData 0 0 0.9 0.5 0.5 DEEP_SEA)).
  - exact scenario_A_wf.
  - split; [discriminate|reflexivity].
  - reflexivity.
  - reflexivity.
  - reflexivity.
Defined.

(** ** The order of binary64 *)

Lemma SFcompare_Lt_trans (a b c : spec_float) :
  SFcompare a b = Some Lt -> SFcompare b c = Some Lt -> SFcompare a c = Some Lt.
Proof.
  destruct a as [sa|sa| |sa ma ea], b as [sb|sb| |sb mb eb], c as [sc|sc| |sc mc ec];
    cbn [SFcompare]; try discriminate;
    try destruct sa; try destruct sb; try destruct sc;
    try discriminate; try reflexivity.
  all: change (Pos.compare_cont Eq) with Pos.compare.
  all: destruct (Z.compare_spec ea eb), (Z.compare_spec eb ec), (Z.compare_spec ea ec);
    try discriminate; try reflexivity; try (exfalso; lia); subst.
  all: destruct (Pos.compare_spec ma mb), (Pos.compare_spec mb mc), (Pos.compare_spec ma mc);
    cbn [CompOpp]; try discriminate; try reflexivity; try (exfalso; lia); subst;
    try (exfalso; lia).
Qed.

Lemma float_ltb_trans (a b c : float) :
  (a <? b)%float = true -> (b <? c)%float = true -> (a <? c)%float = true.
Proof.
  rewrite !ltb_spec. unfold SFltb. intros H1 H2.
  destruct (SFcompare (Prim2SF a) (Prim2SF b)) as [[| |]|] eqn:E1; try discriminate.
  destruct (SFcompare (Prim2SF b) (Prim2SF c)) as [[| |]|] eqn:E2; try discriminate.
  rewrite (SFcompare_Lt_trans _ _ _ E1 E2). reflexivity.
Qed.

(** ** Sea level *)

(** X11: a cell is classified as water ([DEEP_SEA] or [SEA]) exactly when
    its elevation is below 0.30, whatever its moisture, temperature and
    flags; it is [DEEP_SEA] exactly when the elevation is below 0.15. *)
Theorem sea_exactly_below_sea_level (h : HexData) :
  (biome_of h = DEEP_SEA \/ biome_of h = SEA <-> (elevation h <? 0.30)%float = true) /\
  (biome_of h = DEEP_SEA <-> (elevation h <? 0.15)%float = true).
Proof.
  unfold biome_of. cbv zeta.
  destruct (elevation h <? 0.15)%float eqn:E1.
  - assert (E2 : (elevation h <? 0.30)%float = true).
    { apply (float_ltb_trans _ 0.15%float); [exact E1|reflexivity]. }
    rewrite E2. split; split; auto.
  - destruct (elevation h <? 0.30)%float eqn:E2.
    + split; split; auto; discriminate.
    + unfold gtb.
      repeat match goal with
             | |- context [if ?c then _ else _] => destruct c
             end;
        (split; split; [intros [H|H]; discriminate|discriminate|discriminate|discriminate]).
Qed.

(** ** Classification can be run again *)

Lemma grid_ext (g g' : Grid) (nw nh : nat) :
  shape g nw nh -> shape g' nw nh ->
  (forall i j, slot_at g i j = slot_at g' i j) -> g = g'.
Proof.
  intros [L C] [L' C'] H. apply list_eq. intros i.
  destruct (g !! i) as [col|] eqn:E, (g' !! i) as [col'|] eqn:E'.
  - f_equal. apply list_eq. intros j. specialize (H i j).
    unfold slot_at in H. rewrite E, E' in H. exact H.
  - apply lookup_lt_Some in E. apply lookup_ge_None in E'. lia.
  - apply lookup_lt_Some in E'. apply lookup_ge_None in E. lia.
  - reflexivity.
Qed.

Lemma set_terrain_biome_twice (c : HexData) :
  set_terrain (biome_of (set_terrain (biome_of c) c)) (set_terrain (biome_of c) c)
  = set_terrain (biome_of c) c.
Proof. reflexivity. Qed.

(** X12: classification reads only the layers and the two flags, never the
    terrain it is about to overwrite: on a populated grid, running
    [assign_biomes] a second time returns the very same generator. *)
Theorem assign_biomes_idempotent (world world' : WorldGenerator) :
  wf_world world -> assign_biomes world = Ok world' -> assign_biomes world' = Ok world'.
Proof.
  intros Hwf H.
  destruct (assign_biomes_total world Hwf) as (w1 & H1 & _ & _ & Hwf').
  assert (w1 = world') by congruence. subst w1. clear H1.
  destruct (assign_biomes_total world' Hwf') as (world'' & H2 & _ & _ & Hwf'').
  rewrite H2. f_equal.
  apply assign_biomes_spec in H as (Ew & Eh & _ & Hcells & _).
  apply assign_biomes_spec in H2 as (Ew2 & Eh2 & _ & Hcells2 & Hrest2).
  destruct world' as [w' h' g'], world'' as [w'' h'' g'']. cbn [width height grid] in *.
  subst w'' h''. f_equal.
  destruct Hwf' as [Hs' _], Hwf'' as [Hs'' _]. cbn [width height grid] in *.
  apply (grid_ext _ _ _ _ Hs'' Hs'). intros i j.
  destruct (decide ((i < Z.to_nat w')%nat /\ (j < Z.to_nat h')%nat)) as [[Hi Hj]|Hn].
  - destruct (Hcells2 i j Hi Hj) as (c' & Hc' & Hc'').
    rewrite Ew in Hi. rewrite Eh in Hj. destruct (Hcells i j Hi Hj) as (c & Hc & Hc1).
    assert (c' = set_terrain (biome_of c) c) by congruence. subst c'.
    rewrite set_terrain_biome_twice in Hc''.
    apply cell_at_slot_at in Hc'', Hc1. congruence.
  - apply Hrest2. exact Hn.
Qed.

Lemma assign_biomes_idempotent_witness :
  assign_biomes scenario_A_classified = Ok scenario_A_classified.
Proof.
  apply (assign_biomes_idempotent scenario_A scenario_A_classified).
  - exact scenario_A_wf.
  - vm_compute. reflexivity.
Defined.

(** ** What the JSON export carries *)

Lemma export_hex_dict_feature (hex : HexData) :
  dict_get "feature" (export_hex_dict hex) =
  if is_river hex then Some (JStr "River")
  else if is_lake hex then Some (JStr "Lake")
  else None.
Proof.
  unfold export_hex_dict. cbv zeta. destruct (is_river hex), (is_lake hex); reflexivity.
Qed.

Lemma export_hex_dict_axial (hex : HexData) :
  axial_key (export_hex_dict hex) =
  (Some (JInt (fst (cartesian_to_axial (x hex) (y hex)))),
   Some (JInt (snd (cartesian_to_axial (x hex) (y hex))))).
Proof.
  unfold export_hex_dict, axial_key. cbv zeta.
  destruct (is_river hex), (is_lake hex); reflexivity.
Qed.

Lemma export_row_Ok (row : list (option HexData)) :
  forall (acc out : list HexDict),
    export_row row acc = Ok out ->
    exists cs, row = map Some cs /\ out = acc ++ map export_hex_dict cs.
Proof.
  induction row as [|[c|] row IH]; intros acc out H; cbn [export_row] in H.
  - injection H as <-. exists []. rewrite app_nil_r. auto.
  - apply IH in H as (cs & -> & ->). exists (c :: cs).
    rewrite <- app_assoc. auto.
  - discriminate.
Qed.

Lemma export_rows_Ok (g : Grid) :
  forall (acc out : list HexDict),
    export_rows g acc = Ok out ->
    exists css, g = map (map Some) css /\ out = acc ++ map export_hex_dict (concat css).
Proof.
  induction g as [|row g IH]; intros acc out H; cbn [export_rows] in H.
  - injection H as <-. exists []. rewrite app_nil_r. auto.
  - apply bind_Ok in H as (acc' & Hr & H).
    apply export_row_Ok in Hr as (cs & -> & ->).
    apply IH in H as (css & -> & ->). exists (cs :: css).
    cbn [concat map]. rewrite map_app, <- app_assoc. auto.
Qed.

Lemma export_rows_total (css : list (list HexData)) (acc : list HexDict) :
  export_rows (map (map Some) css) acc = Ok (acc ++ map export_hex_dict (concat css)).
Proof.
  revert acc. induction css as [|cs css IH]; intros acc; cbn [map export_rows concat].
  - rewrite app_nil_r. reflexivity.
  - assert (E : forall a, export_row (map Some cs) a = Ok (a ++ map export_hex_dict cs)).
    { induction cs as [|c cs IHc]; intros a; cbn [map export_row].
      - rewrite app_nil_r. reflexivity.
      - rewrite IHc, <- app_assoc. reflexivity. }
    rewrite E. cbn [bind]. rewrite IH, map_app, <- app_assoc. reflexivity.
Qed.

Lemma cells_of_grid (g : Grid) (css : list (list HexData)) (i j : nat) (c : HexData) :
  g = map (map Some) css ->
  (cell_at g i j = Some c <-> exists cs, css !! i = Some cs /\ cs !! j = Some c).
Proof.
  intros ->. unfold cell_at, slot_at. rewrite list_lookup_fmap.
  destruct (css !! i) as [cs|]; cbn.
  - rewrite list_lookup_fmap. destruct (cs !! j) as [c'|] eqn:E; cbn.
    + split; [intros [= ->]; eauto|intros (cs' & [= <-] & H); congruence].
    + split; [discriminate|intros (cs' & [= <-] & H); congruence].
  - split; [discriminate|intros (cs' & H & _); discriminate].
Qed.

Lemma generate_lake_implies_river (ext : Externals) (seeds : Seeds) (w h : Z)
    (rng rng' : Rng) (world : WorldGenerator) :
  generate ext seeds w h rng = Ok (world, rng') -> lake_implies_river (grid world).
Proof.
  unfold generate. intros H.
  apply bind_Ok in H as (w0 & H0 & H). apply bind_Ok in H as (w1 & H1 & H).
  apply bind_Ok in H as ([w2 rng2] & H2 & H). apply bind_Ok in H as (w3 & H3 & H).
  injection H as <- <-.
  apply init_shape in H0 as (Hw & Hh & Hs & _).
  apply generate_base_layers_spec in H1 as (_ & _ & Hs1 & Hcells).
  rewrite Hw, Hh in Hcells. specialize (Hs1 _ _ Hs).
  assert (Hinv1 : lake_implies_river (grid w1)).
  { intros i j c Hc Hl.
    destruct (cell_at_in_shape _ _ _ _ _ _ Hs1 Hc) as [Hi Hj].
    destruct (Hcells i j Hi Hj) as (c1 & Hc1 & _ & _ & Hr & Hl1 & _).
    rewrite Hc in Hc1. injection Hc1 as <-. congruence. }
  apply (assign_biomes_keeps_invariant _ _ H3).
  exact (generate_rivers_keeps_invariant _ _ _ _ H2 Hinv1).
Qed.

(** X13: on a generated world the JSON export never carries the feature
    "Lake": the export tests [is_river] first, and generation flags a lake
    only on a cell it has flagged as river, so every lake is exported as
    "River" with the details "Fresh water source". *)
Theorem export_json_never_says_lake (ext : Externals) (seeds : Seeds) (w h : Z)
    (rng rng' : Rng) (world : WorldGenerator) (hex_data : list HexDict) :
  generate ext seeds w h rng = Ok (world, rng') ->
  export_json world = Ok hex_data ->
  Forall (fun d => dict_get "feature" d <> Some (JStr "Lake") /\
                   dict_get "details" d <> Some (JStr "Standing water")) hex_data.
Proof.
  intros Hg He. apply generate_lake_implies_river in Hg.
  unfold export_json in He. apply export_rows_Ok in He as (css & Eg & ->).
  cbn [app]. apply Forall_forall. intros d Hd.
  apply list_elem_of_fmap in Hd as (c & -> & Hc).
  apply list_elem_of_In, in_concat in Hc as (cs & Hcs & Hc).
  apply list_elem_of_In, list_elem_of_lookup in Hcs as [i Hi].
  apply list_elem_of_In, list_elem_of_lookup in Hc as [j Hj].
  assert (Hcell : cell_at (grid world) i j = Some c).
  { apply (cells_of_grid _ css); [exact Eg|]. eauto. }
  specialize (Hg i j c Hcell).
  unfold export_hex_dict. cbv zeta.
  destruct (is_river c) eqn:Hr.
  - split; discriminate.
  - destruct (is_lake c) eqn:Hl; [specialize (Hg eq_refl); discriminate|].
    split; discriminate.
Qed.

Lemma export_json_never_says_lake_witness :
  Forall (fun d => dict_get "feature" d <> Some (JStr "Lake") /\
                   dict_get "details" d <> Some (JStr "Standing water")) sample_export.
Proof.
  apply (export_json_never_says_lake sample_externals sample_seeds 3 1 [O] []
           sample_world sample_export).
  - vm_compute. reflexivity.
  - vm_compute. reflexivity.
Defined.

(** ** One entry per cell, in the order of the grid *)

Lemma cartesian_to_axial_pair (x1 y1 x2 y2 : Z) :
  cartesian_to_axial x1 y1 = cartesian_to_axial x2 y2 -> (x1, y1) = (x2, y2).
Proof.
  unfold cartesian_to_axial. cbv zeta. intros [= -> H]. f_equal.
  destruct (x2 mod 2 =? 0); lia.
Qed.

Lemma export_row_total (row : list (option HexData)) :
  forall acc, (forall s, s ∈ row -> s <> None) -> exists out, export_row row acc = Ok out.
Proof.
  induction row as [|[c|] row IH]; intros acc H; cbn [export_row].
  - eauto.
  - apply IH. intros s Hs. apply H. right. exact Hs.
  - exfalso. apply (H None); [left|reflexivity].
Qed.

Lemma export_rows_slots_total (g : Grid) :
  forall acc, (forall col s, col ∈ g -> s ∈ col -> s <> None) ->
              exists out, export_rows g acc = Ok out.
Proof.
  induction g as [|col g IH]; intros acc H; cbn [export_rows].
  - eauto.
  - destruct (export_row_total col acc) as [acc' ->]; [intros s Hs; apply (H col); [left|exact Hs]|].
    cbn [bind]. apply IH. intros col' s Hc Hs. apply (H col'); [right; exact Hc|exact Hs].
Qed.

Lemma wf_grid_slots (w h : Z) (g : Grid) (col : list (option HexData)) (s : option HexData) :
  wf_grid w h g -> col ∈ g -> s ∈ col -> s <> None.
Proof.
  intros [[HL HC] Hpop] Hc Hs.
  apply list_elem_of_lookup in Hc as [i Hi]. apply list_elem_of_lookup in Hs as [j Hj].
  pose proof (lookup_lt_Some _ _ _ Hi) as Hil. pose proof (lookup_lt_Some _ _ _ Hj) as Hjl.
  rewrite (HC _ _ Hi) in Hjl. rewrite HL in Hil.
  destruct (Hpop i j Hil Hjl) as (c & Hcell & _).
  unfold cell_at, slot_at in Hcell. rewrite Hi, Hj in Hcell.
  destruct s; [discriminate|discriminate].
Qed.

Lemma column_coordinates (i : Z) (cs : list HexData) :
  forall b : nat,
    (forall k c, cs !! k = Some c -> x c = i /\ y c = Z.of_nat (b + k)) ->
    map (fun c => (x c, y c)) cs = map (fun cy => (i, cy)) (map Z.of_nat (seq b (length cs))).
Proof.
  induction cs as [|c cs IH]; intros b H; [reflexivity|].
  cbn [map length seq]. f_equal.
  - destruct (H O c eq_refl) as [-> ->]. f_equal. lia.
  - apply IH. intros k c' Hk. destruct (H (S k) c' Hk) as [-> ->]. split; [reflexivity|lia].
Qed.

Lemma grid_coordinates (nh : nat) (css : list (list HexData)) :
  forall a : nat,
    (forall k cs, css !! k = Some cs ->
       length cs = nh /\
       forall j c, cs !! j = Some c -> x c = Z.of_nat (a + k) /\ y c = Z.of_nat j) ->
    map (fun c => (x c, y c)) (concat css) =
    flat_map (fun cx => map (fun cy => (cx, cy)) (map Z.of_nat (seq 0 nh)))
             (map Z.of_nat (seq a (length css))).
Proof.
  induction css as [|cs css IH]; intros a H; [reflexivity|].
  cbn [concat length seq map flat_map]. rewrite map_app. f_equal.
  - destruct (H O cs eq_refl) as [Hlen Hc]. rewrite <- Hlen.
    rewrite Nat.add_0_r in Hc. apply column_coordinates.
    intros k c Hk. exact (Hc k c Hk).
  - apply IH. intros k cs' Hk. destruct (H (S k) cs' Hk) as [Hlen Hc].
    split; [exact Hlen|]. intros j c Hj. destruct (Hc j c Hj) as [-> ->].
    split; [f_equal; lia|reflexivity].
Qed.

Lemma NoDup_py_range (n : Z) : NoDup (py_range n).
Proof.
  unfold py_range. apply NoDup_fmap_2; [intros a b; apply Nat2Z.inj|apply NoDup_seq].
Qed.

Lemma NoDup_all_refs (w h : Z) : NoDup (all_refs w h).
Proof.
  unfold all_refs.
  change (NoDup (py_range w ≫= fun cx => map (fun cy => (cx, cy)) (py_range h))).
  apply NoDup_bind.
  - intros x1 x2 p _ _ H1 H2.
    apply list_elem_of_fmap in H1 as (y1 & -> & _).
    apply list_elem_of_fmap in H2 as (y2 & [= -> _] & _). reflexivity.
  - intros cx _. apply NoDup_fmap_2; [intros a b [= ->]; reflexivity|apply NoDup_py_range].
  - apply NoDup_py_range.
Qed.

Lemma export_json_populated (w h : Z) (g : Grid) :
  wf_grid w h g ->
  exists css,
    g = map (map Some) css /\
    export_rows g [] = Ok (map export_hex_dict (concat css)) /\
    map (fun c => (x c, y c)) (concat css) = all_refs w h.
Proof.
  intros Hwf.
  destruct (export_rows_slots_total g []) as [out H];
    [intros col s; apply (wf_grid_slots w h g); exact Hwf|].
  apply export_rows_Ok in H as (css & Eg & ->). cbn [app].
  exists css. split; [exact Eg|]. split; [rewrite Eg; apply (export_rows_total css [])|].
  destruct Hwf as [[HL HC] Hpop].
  assert (Hlen : length css = Z.to_nat w) by (rewrite <- HL, Eg, length_map; reflexivity).
  unfold all_refs, py_range. rewrite <- Hlen. apply grid_coordinates.
  intros k cs Hk. cbn [Nat.add].
  assert (Hcol : g !! k = Some (map Some cs)) by (rewrite Eg, list_lookup_fmap, Hk; reflexivity).
  split; [rewrite <- (HC _ _ Hcol), length_map; reflexivity|].
  intros j c Hj.
  assert (Hcell : cell_at g k j = Some c) by (apply (cells_of_grid g css); eauto).
  pose proof (lookup_lt_Some _ _ _ Hk) as Hkl. pose proof (lookup_lt_Some _ _ _ Hj) as Hjl.
  assert (Hjh : (j < Z.to_nat h)%nat).
  { rewrite <- (HC _ _ Hcol), length_map. exact Hjl. }
  rewrite Hlen in Hkl.
  destruct (Hpop k j Hkl Hjh) as (c' & Hc' & Hx & Hy).
  assert (c' = c) by congruence. subst c'. auto.
Qed.

(** X14: on a populated grid the export never raises and lists one
    dictionary per cell, column after column; the entry of cell [(x, y)]
    carries [cartesian_to_axial(x, y)] under "q" and "r", and no two entries
    carry the same pair. *)
Theorem export_json_one_entry_per_cell (world : WorldGenerator) :
  wf_world world ->
  exists hex_data,
    export_json world = Ok hex_data /\
    map axial_key hex_data =
      map (fun p => (Some (JInt (fst (cartesian_to_axial (fst p) (snd p)))),
                     Some (JInt (snd (cartesian_to_axial (fst p) (snd p))))))
          (all_refs (width world) (height world)) /\
    NoDup (map axial_key hex_data).
Proof.
  intros Hwf. unfold wf_world in Hwf.
  destruct (export_json_populated _ _ _ Hwf) as (css & _ & He & Hxy).
  exists (map export_hex_dict (concat css)). split; [exact He|].
  assert (E : map axial_key (map export_hex_dict (concat css)) =
              map (fun p => (Some (JInt (fst (cartesian_to_axial (fst p) (snd p)))),
                             Some (JInt (snd (cartesian_to_axial (fst p) (snd p))))))
                  (all_refs (width world) (height world))).
  { rewrite <- Hxy, !map_map. apply map_ext. intros c. apply export_hex_dict_axial. }
  split; [exact E|]. rewrite E.
  apply NoDup_fmap_2; [|apply NoDup_all_refs].
  intros [x1 y1] [x2 y2] [= H1 H2]. cbn [fst snd] in *.
  apply cartesian_to_axial_pair. apply injective_projections; assumption.
Qed.

Lemma export_json_one_entry_per_cell_witness :
  exists hex_data,
    export_json scenario_A = Ok hex_data /\
    map axial_key hex_data =
      map (fun p => (Some (JInt (fst (cartesian_to_axial (fst p) (snd p)))),
                     Some (JInt (snd (cartesian_to_axial (fst p) (snd p))))))
          (all_refs (width scenario_A) (height scenario_A)) /\
    NoDup (map axial_key hex_data).
Proof. apply (export_json_one_entry_per_cell scenario_A). exact scenario_A_wf. Defined.

(** ** The ASCII map *)

Lemma string_length_app (a b : string) :
  String.length (a +:+ b) = (String.length a + String.length b)%nat.
Proof.
  induction a as [|c a IH]; [reflexivity|].
  change (S (String.length (a +:+ b)) = S (String.length a + String.length b)).
  f_equal. exact IH.
Qed.

Lemma cell_char_length (c : HexData) : String.length (cell_char c) = 1%nat.
Proof.
  unfold cell_char. destruct (is_lake c); [reflexivity|].
  destruct (is_river c && not_sea (terrain c)); [reflexivity|].
  destruct (terrain c); reflexivity.
Qed.

Lemma effective_bounds (size : Z) (slice : option Z) :
  0 < size -> 1 <= effective size slice <= size.
Proof. intros H. unfold effective. destruct slice; lia. Qed.

Lemma plain_row_total (w : WorldGenerator) (ew cy : Z) :
  wf_world w -> 0 <= ew <= width w -> 0 <= cy < height w ->
  exists row, plain_row w ew cy = Ok row /\
              Z.of_nat (String.length row) = 2 * ew + cy mod 2.
Proof.
  intros Hwf Hew Hcy. unfold plain_row.
  destruct (for_each_total
              (fun k (s : string) => Z.of_nat (String.length s) = 2 * Z.of_nat k + cy mod 2)
              ew
              (fun cx plain_line =>
                 let* cell := get_cell (grid w) cx cy in
                 Ok (plain_line +:+ (cell_char cell +:+ " ")))
              (if negb (cy mod 2 =? 0) then " " else "")) as (row & Hrow & Hlen).
  - pose proof (Z.mod_pos_bound cy 2 ltac:(lia)).
    destruct (cy mod 2 =? 0) eqn:E; cbn; lia.
  - intros k s1 Hk Hs1.
    destruct (deref_wf (width w) (height w) (grid w) (Z.of_nat k) cy Hwf) as (c & Hc & _).
    { apply in_bounds_iff. lia. }
    rewrite Hc. cbn [bind]. eexists; split; [reflexivity|].
    rewrite !string_length_app, cell_char_length. cbn [String.length]. lia.
  - exists row. split; [exact Hrow|]. lia.
Qed.

Lemma str_rstrip_app (a b : string) :
  str_rstrip b <> EmptyString -> str_rstrip (a +:+ b) = a +:+ str_rstrip b.
Proof.
  intros Hb. induction a as [|c a IH]; [reflexivity|].
  change (String c a +:+ b) with (String c (a +:+ b)).
  cbn [str_rstrip]. rewrite IH.
  change (String c a +:+ str_rstrip b) with (String c (a +:+ str_rstrip b)).
  destruct (a +:+ str_rstrip b) eqn:E; [|reflexivity].
  destruct a; [|discriminate]. contradiction.
Qed.

Lemma heading_strip (X : string) :
  String.length (str_strip (newline +:+ "--- WORLD MAP " +:+ X +:+ " ---")) =
  (String.length (newline +:+ "--- WORLD MAP " +:+ X +:+ " ---") - 1)%nat.
Proof.
  unfold str_strip.
  change (newline +:+ "--- WORLD MAP " +:+ X +:+ " ---")
    with (String (Ascii.ascii_of_nat 10) (String (Ascii.ascii_of_nat 45) ("-- WORLD MAP " +:+ X +:+ " ---"))).
  cbn [str_lstrip String.length].
  change (is_py_space (Ascii.ascii_of_nat 10)) with true.
  change (is_py_space (Ascii.ascii_of_nat 45)) with false. cbv iota.
  change (String (Ascii.ascii_of_nat 45) ("-- WORLD MAP " +:+ X +:+ " ---"))
    with ("--- WORLD MAP " +:+ X +:+ " ---").
  assert (E : str_rstrip (X +:+ " ---") = X +:+ " ---").
  { rewrite str_rstrip_app by discriminate. reflexivity. }
  rewrite str_rstrip_app.
  - rewrite E. reflexivity.
  - rewrite E. destruct X; discriminate.
Qed.

Lemma map_heading_strip (w : WorldGenerator) (ew eh : Z) :
  String.length (str_strip (map_heading w ew eh)) =
  (String.length (map_heading w ew eh) - 1)%nat.
Proof. unfold map_heading. cbv zeta. apply heading_strip. Qed.

Lemma render_rows_total (w : WorldGenerator) (ew eh : Z) (heading : string) :
  wf_world w -> 0 <= ew <= width w -> 0 <= eh <= height w ->
  exists rows,
    for_each (py_range eh)
      (fun cy plain_lines =>
         let* plain_line := plain_row w ew cy in
         Ok (plain_lines ++ [plain_line]))
      [heading] = Ok (heading :: rows) /\
    length rows = Z.to_nat eh /\
    forall k row, rows !! k = Some row ->
      Z.of_nat (String.length row) = 2 * ew + Z.of_nat k mod 2.
Proof.
  intros Hwf Bw Bh.
  destruct (for_each_total
              (fun k (ls : list string) =>
                 exists rows, ls = heading :: rows /\ length rows = k /\
                   forall j row, rows !! j = Some row ->
                     Z.of_nat (String.length row) = 2 * ew + Z.of_nat j mod 2)
              eh
              (fun cy plain_lines =>
                 let* plain_line := plain_row w ew cy in
                 Ok (plain_lines ++ [plain_line]))
              [heading]) as (ls & Hls & rows & -> & Hlen & Hrows).
  - exists []. split; [reflexivity|]. split; [reflexivity|].
    intros j row H. rewrite lookup_nil in H. discriminate.
  - intros k s1 Hk (rows & -> & Hlen & Hrows).
    destruct (plain_row_total w ew (Z.of_nat k) Hwf) as (row & Hrow & Hl); [lia|lia|].
    rewrite Hrow. cbn [bind]. eexists; split; [reflexivity|].
    exists (rows ++ [row]). split; [reflexivity|].
    split; [rewrite length_app; cbn; lia|].
    intros j r Hj. apply lookup_app_Some in Hj as [Hj|[Hge Hj]].
    + apply Hrows; exact Hj.
    + apply list_lookup_singleton_Some in Hj as [Hj ->].
      replace j with k by lia. exact Hl.
  - exists rows. split; [exact Hls|]. split; [exact Hlen|exact Hrows].
Qed.

(** X15: on a populated world of positive size the map is drawn without an
    error, for every slice: the heading, one line per rendered row and the
    footer.  The rendered size is the slice clamped into [1 .. dimension],
    row [k] has two characters per rendered column plus the one-space
    shift of the odd rows, and the footer is a run of dashes as long as the
    heading without its leading newline. *)
Theorem render_ascii_map_rows (w : WorldGenerator) (slice_width slice_height : option Z) :
  wf_world w -> 0 < width w -> 0 < height w ->
  let ew := effective (width w) slice_width in
  let eh := effective (height w) slice_height in
  1 <= ew <= width w /\ 1 <= eh <= height w /\
  exists rows,
    render_ascii_map w slice_width slice_height =
      Ok (map_heading w ew eh :: rows ++
          [str_repeat "-" (String.length (map_heading w ew eh) - 1)]) /\
    length rows = Z.to_nat eh /\
    forall k row, rows !! k = Some row ->
      Z.of_nat (String.length row) = 2 * ew + Z.of_nat k mod 2.
Proof.
  intros Hwf Hw Hh ew eh.
  pose proof (effective_bounds (width w) slice_width Hw) as Bw.
  pose proof (effective_bounds (height w) slice_height Hh) as Bh.
  fold ew in Bw. fold eh in Bh.
  split; [exact Bw|]. split; [exact Bh|].
  unfold render_ascii_map. fold ew eh.
  destruct (render_rows_total w ew eh (map_heading w ew eh) Hwf)
    as (rows & Hls & Hlen & Hrows); [lia|lia|].
  rewrite Hls. cbn [bind]. rewrite map_heading_strip.
  exists rows. split; [reflexivity|]. split; [exact Hlen|exact Hrows].
Qed.

Lemma render_ascii_map_rows_witness :
  exists w, wf_world w /\ 0 < width w /\ 0 < height w /\
    exists rows,
      render_ascii_map w (Some 80) (Some 40) =
        Ok (map_heading w 1 1 :: rows ++
            [str_repeat "-" (String.length (map_heading w 1 1) - 1)]) /\
      length rows = 1%nat.
Proof.
  exists (mkWorld 1 1 [[Some (new_HexData 0 0 0 0 0 PLAINS)]]).
  assert (Hwf : wf_world (mkWorld 1 1 [[Some (new_HexData 0 0 0 0 0 PLAINS)]])).
  { split.
    - split; [reflexivity|]. intros [|i] col H; [|destruct i; discriminate].
      injection H as <-. reflexivity.
    - intros i j Hi Hj. cbn in Hi, Hj.
      destruct i; [|lia]. destruct j; [|lia]. eexists; split; [reflexivity|]. split; reflexivity. }
  split; [exact Hwf|]. split; [reflexivity|]. split; [reflexivity|].
  destruct (render_ascii_map_rows _ (Some 80) (Some 40) Hwf ltac:(reflexivity) ltac:(reflexivity))
    as (_ & _ & rows & H & Hl & _).
  exists rows. split; [exact H|exact Hl].
Defined.

Lemma for_each_raise {St : Type} (body : Z -> St -> result St) (s : St) (e : exn)
    (i : Z) (l : list Z) :
  body i s = Raise e -> for_each (i :: l) body s = Raise e.
Proof. intros H. cbn [for_each]. rewrite H. reflexivity. Qed.

Lemma py_range_pos (n : Z) : 0 < n -> exists l, py_range n = 0 :: l.
Proof.
  intros H. unfold py_range. destruct (Z.to_nat n) as [|k] eqn:E; [lia|].
  cbn. eexists; reflexivity.
Qed.

Lemma effective_Some_pos (size s : Z) : 0 < effective size (Some s).
Proof. unfold effective. lia. Qed.

Lemma init_slot_IndexError (w h : Z) (world : WorldGenerator) :
  w <= 0 \/ h <= 0 ->
  WorldGenerator_init w h = Ok world ->
  get_cell (grid world) 0 0 = Raise IndexError.
Proof.
  intros He [= <-]. cbn [grid]. unfold get_cell, grid_slot.
  destruct (Z_le_gt_dec w 0) as [Hw|Hw].
  - rewrite (py_range_nonpos w Hw). reflexivity.
  - destruct He as [He|He]; [lia|].
    destruct (py_range_pos w ltac:(lia)) as (l & ->).
    rewrite (py_range_nonpos h He). reflexivity.
Qed.

(** X16: a world built with a non-positive width or height cannot be drawn
    as a preview: with both slice sizes given (the script default is
    80 by 40) the renderer asks for at least one row and column and the
    first slot read raises [IndexError].  With both slices [None] (the
    full map) it raises nothing: it returns the heading, [height] lines
    that are empty or a single space, and the footer. *)
Theorem render_ascii_map_empty_world (w h : Z) (world : WorldGenerator) (sw sh : Z) :
  w <= 0 \/ h <= 0 ->
  WorldGenerator_init w h = Ok world ->
  render_ascii_map world (Some sw) (Some sh) = Raise IndexError /\
  exists rows footer,
    render_ascii_map world None None = Ok (map_heading world w h :: rows ++ [footer]) /\
    length rows = Z.to_nat h /\
    Forall (fun row => row = EmptyString \/ row = " "%string) rows.
Proof.
  intros He H0. pose proof (init_slot_IndexError w h world He H0) as Hs.
  split.
  - unfold render_ascii_map.
    destruct (py_range_pos _ (effective_Some_pos (height world) sh)) as (l & ->).
    rewrite (for_each_raise _ _ IndexError); [reflexivity|].
    unfold plain_row.
    destruct (py_range_pos _ (effective_Some_pos (width world) sw)) as (l' & ->).
    rewrite (for_each_raise _ _ IndexError); [reflexivity|].
    rewrite Hs. reflexivity.
  - injection H0 as <-. unfold render_ascii_map.
    cbn [effective width height].
    set (world := mkWorld w h _).
    destruct (for_each_total
                (fun k (ls : list string) =>
                   exists rows, ls = map_heading world w h :: rows /\ length rows = k /\
                     Forall (fun row => row = EmptyString \/ row = " "%string) rows)
                h
                (fun cy plain_lines =>
                   let* plain_line := plain_row world w cy in
                   Ok (plain_lines ++ [plain_line]))
                [map_heading world w h]) as (ls & Hls & rows & -> & Hlen & Hrows).
    + exists []. split; [reflexivity|]. split; [reflexivity|constructor].
    + intros k s1 Hk (rows & -> & Hlen & Hrows).
      assert (Hw : w <= 0) by (destruct He; lia).
      unfold plain_row. rewrite (py_range_nonpos w Hw). cbn [for_each bind].
      eexists; split; [reflexivity|].
      exists (rows ++ [if negb (Z.of_nat k mod 2 =? 0) then " " else ""]).
      split; [reflexivity|]. split; [rewrite length_app; cbn; lia|].
      apply Forall_app. split; [exact Hrows|].
      constructor; [|constructor].
      destruct (negb (Z.of_nat k mod 2 =? 0)); [right|left]; reflexivity.
    + rewrite Hls. cbn [bind]. eexists rows, _.
      split; [reflexivity|]. split; [exact Hlen|exact Hrows].
Qed.

Lemma render_ascii_map_empty_world_witness :
  exists world, WorldGenerator_init 0 5 = Ok world /\
    render_ascii_map world (Some 80) (Some 40) = Raise IndexError.
Proof.
  eexists. split; [reflexivity|].
  apply (render_ascii_map_empty_world 0 5 _ 80 40 ltac:(left; lia) eq_refl).
Defined.

Lemma biome_of_not_sea (h : HexData) :
  not_sea (biome_of h) = negb (elevation h <? 0.30)%float.
Proof.
  unfold biome_of. cbv zeta.
  destruct (elevation h <? 0.15)%float eqn:E1.
  - assert (E2 : (elevation h <? 0.30)%float = true).
    { apply (float_ltb_trans _ 0.15%float); [exact E1|reflexivity]. }
    rewrite E2. reflexivity.
  - destruct (elevation h <? 0.30)%float eqn:E2; [reflexivity|].
    unfold gtb.
    repeat match goal with
           | |- context [if ?c then _ else _] => destruct c
           end; reflexivity.
Qed.

(** X17: what a classified cell looks like on the map: a lake is drawn
    ['O']; otherwise a river is drawn ['~'] exactly when the cell's
    elevation is not below the 0.30 sea level, so a river that reached the
    sea shows as water; every other cell shows its terrain's character. *)
Theorem classified_cell_char (c : HexData) :
  cell_char (set_terrain (biome_of c) c) =
    if is_lake c then "O"%string
    else if is_river c && negb (elevation c <? 0.30)%float then "~"%string
    else chars (biome_of c).
Proof.
  unfold cell_char. cbn [terrain is_lake is_river set_terrain].
  rewrite biome_of_not_sea. reflexivity.
Qed.

(** ** Saving to the database *)

Lemma pretty_N_char_no_comma (d : N) : pretty_N_char d <> comma.
Proof.
  unfold pretty_N_char.
  repeat match goal with
         | |- context [match ?v with _ => _ end] => destruct v
         end; discriminate.
Qed.

Lemma pretty_N_go_no_comma (n : N) :
  forall s, no_comma s -> no_comma (pretty_N_go n s).
Proof.
  induction (N.lt_wf_0 n) as [n _ IH]. intros s Hs.
  destruct (N.eq_dec n 0%N) as [->|Hn].
  - rewrite pretty_N_go_0. exact Hs.
  - rewrite pretty_N_go_step by lia. apply IH.
    + apply N.div_lt; lia.
    + constructor; [apply pretty_N_char_no_comma|exact Hs].
Qed.

Lemma pretty_N_no_comma (n : N) : no_comma (pretty n).
Proof.
  unfold pretty, pretty_N. destruct (decide (n = 0%N)).
  - repeat constructor; discriminate.
  - apply pretty_N_go_no_comma. constructor.
Qed.

Lemma pretty_Z_no_comma (z : Z) : no_comma (pretty z).
Proof.
  destruct z as [|p|p]; unfold pretty, pretty_Z.
  - repeat constructor; discriminate.
  - apply pretty_N_no_comma.
  - constructor; [discriminate|apply pretty_N_no_comma].
Qed.

Lemma comma_split (a1 : string) :
  forall a2 b1 b2,
    no_comma a1 -> no_comma a2 ->
    a1 +:+ String comma b1 = a2 +:+ String comma b2 -> a1 = a2 /\ b1 = b2.
Proof.
  induction a1 as [|c a1 IH]; intros [|c2 a2] b1 b2 H1 H2 E.
  - injection E as ->. auto.
  - exfalso. injection E as Ec _. inversion H2 as [|? ? Hc _]. congruence.
  - exfalso. injection E as Ec _. inversion H1 as [|? ? Hc _]. congruence.
  - injection E as -> E. inversion H1; inversion H2; subst.
    destruct (IH a2 b1 b2) as [-> ->]; auto.
Qed.

Lemma hex_id_inj (x1 y1 x2 y2 : Z) :
  pretty x1 +:+ "," +:+ pretty y1 = pretty x2 +:+ "," +:+ pretty y2 ->
  (x1, y1) = (x2, y2).
Proof.
  intros E.
  destruct (comma_split (pretty x1) (pretty x2) (pretty y1) (pretty y2)
              (pretty_Z_no_comma x1) (pretty_Z_no_comma x2) E) as [Ex Ey].
  apply (inj pretty) in Ex. apply (inj pretty) in Ey. congruence.
Qed.

Lemma save_rows_total (css : list (list HexData)) (acc : list DataRow) :
  save_rows (map (map Some) css) acc = Ok (acc ++ map data_row (concat css)).
Proof.
  revert acc. induction css as [|cs css IH]; intros acc; cbn [map save_rows concat].
  - rewrite app_nil_r. reflexivity.
  - assert (E : forall a, save_row (map Some cs) a = Ok (a ++ map data_row cs)).
    { induction cs as [|c cs IHc]; intros a; cbn [map save_row].
      - rewrite app_nil_r. reflexivity.
      - rewrite IHc, <- app_assoc. reflexivity. }
    rewrite E. cbn [bind]. rewrite IH, map_app, <- app_assoc. reflexivity.
Qed.

(** X18: with a database present and a populated grid, [save_to_db]
    prepares one row per cell, column after column, raising nothing; the
    row of cell [(x, y)] carries [x], [y] and the key ["x,y"], and no two
    rows share a key. *)
Theorem save_to_db_one_row_per_cell (world : WorldGenerator) :
  wf_world world ->
  exists data_rows,
    save_to_db true world = Ok (Some data_rows) /\
    map (fun r => (hex_id r, row_x r, row_y r)) data_rows =
      map (fun p => (pretty (fst p) +:+ "," +:+ pretty (snd p), fst p, snd p))
          (all_refs (width world) (height world)) /\
    NoDup (map hex_id data_rows).
Proof.
  intros Hwf. unfold wf_world in Hwf.
  destruct (export_json_populated _ _ _ Hwf) as (css & Eg & _ & Hxy).
  exists (map data_row (concat css)).
  assert (E : forall (B : Type) (f : string -> Z -> Z -> B),
            map (fun r => f (hex_id r) (row_x r) (row_y r)) (map data_row (concat css)) =
            map (fun p => f (pretty (fst p) +:+ "," +:+ pretty (snd p)) (fst p) (snd p))
                (all_refs (width world) (height world))).
  { intros B f. rewrite <- Hxy, !map_map. reflexivity. }
  split; [|split].
  - unfold save_to_db. cbn [negb]. rewrite Eg, (save_rows_total css []). reflexivity.
  - exact (E _ (fun a b c => (a, b, c))).
  - assert (E1 : map hex_id (map data_row (concat css)) =
                 map (fun p => pretty (fst p) +:+ "," +:+ pretty (snd p))
                     (all_refs (width world) (height world)))
      by exact (E _ (fun a _ _ => a)).
    rewrite E1.
    apply NoDup_fmap_2; [|apply NoDup_all_refs].
    intros [x1 y1] [x2 y2] H. cbn [fst snd] in H. apply hex_id_inj. exact H.
Qed.

Lemma save_to_db_one_row_per_cell_witness :
  exists data_rows,
    save_to_db true scenario_A = Ok (Some data_rows) /\
    map (fun r => (hex_id r, row_x r, row_y r)) data_rows =
      map (fun p => (pretty (fst p) +:+ "," +:+ pretty (snd p), fst p, snd p))
          (all_refs (width scenario_A) (height scenario_A)) /\
    NoDup (map hex_id data_rows).
Proof. apply (save_to_db_one_row_per_cell scenario_A). exact scenario_A_wf. Defined.

Lemma init_first_slot (w h : Z) (world : WorldGenerator) :
  0 < w -> 0 < h ->
  WorldGenerator_init w h = Ok world ->
  exists col g, grid world = (None :: col) :: g.
Proof.
  intros Hw Hh [= <-]. cbn [grid].
  destruct (py_range_pos w Hw) as (lw & ->). destruct (py_range_pos h Hh) as (lh & ->).
  cbn [map]. eexists _, _. reflexivity.
Qed.

Lemma effective_pos (size : Z) (slice : option Z) : 0 < size -> 0 < effective size slice.
Proof. intros H. pose proof (effective_bounds size slice H). lia. Qed.

(** X19: the output methods need a generated world.  On a world that was
    only constructed, with positive width and height, the first slot is
    still [None]: [export_json], [render_ascii_map] (for every slice) and
    [save_to_db] with a database present all raise [AttributeError];
    [save_to_db] without a database returns before it looks at the grid. *)
Theorem output_before_generation_raises (w h : Z) (world : WorldGenerator)
    (slice_width slice_height : option Z) :
  0 < w -> 0 < h ->
  WorldGenerator_init w h = Ok world ->
  export_json world = Raise AttributeError /\
  render_ascii_map world slice_width slice_height = Raise AttributeError /\
  save_to_db true world = Raise AttributeError /\
  save_to_db false world = Ok None.
Proof.
  intros Hw Hh H0.
  destruct (init_first_slot w h world Hw Hh H0) as (col & g & Eg).
  assert (Ww : width world = w) by (injection H0 as <-; reflexivity).
  assert (Wh : height world = h) by (injection H0 as <-; reflexivity).
  split; [|split; [|split]].
  - unfold export_json. rewrite Eg. reflexivity.
  - unfold render_ascii_map.
    destruct (py_range_pos _ (effective_pos (height world) slice_height ltac:(lia)))
      as (l & ->).
    rewrite (for_each_raise _ _ AttributeError); [reflexivity|].
    unfold plain_row.
    destruct (py_range_pos _ (effective_pos (width world) slice_width ltac:(lia)))
      as (l' & ->).
    rewrite (for_each_raise _ _ AttributeError); [reflexivity|].
    rewrite Eg. reflexivity.
  - unfold save_to_db. rewrite Eg. reflexivity.
  - reflexivity.
Qed.

Lemma output_before_generation_raises_witness :
  exists world, WorldGenerator_init 2 2 = Ok world /\
    export_json world = Raise AttributeError /\
    render_ascii_map world (Some 80) (Some 40) = Raise AttributeError /\
    save_to_db true world = Raise AttributeError /\
    save_to_db false world = Ok None.
Proof.
  eexists. split; [reflexivity|].
  apply (output_before_generation_raises 2 2 _ (Some 80) (Some 40)
           ltac:(reflexivity) ltac:(reflexivity) eq_refl).
Defined.

(** ** The terrain that is never assigned *)

(** X20: the classifier produces every terrain except [COAST]: no layers
    and flags are classified as [COAST], and each of the other eleven
    terrains is the class of some cell. *)
Theorem biome_of_range (t : TerrainType) :
  (exists h, biome_of h = t) <-> t <> COAST.
Proof.
  split.
  - intros [h <-]. apply biome_of_not_coast.
  - intros Ht. exists (biome_example t).
    destruct t; try reflexivity. contradiction.
Qed.

(** ** Terrain names *)

(** X21: the terrain name written by [export_json] (the enumeration value in
    lower case) and the one written by [save_to_db] (the value itself) each
    determine the terrain: two cells get the same name exactly when they
    have the same terrain. *)
Theorem terrain_names_one_to_one (a b : HexData) :
  (dict_get "terrain" (export_hex_dict a) = dict_get "terrain" (export_hex_dict b)
     <-> terrain a = terrain b) /\
  (row_terrain (data_row a) = row_terrain (data_row b) <-> terrain a = terrain b).
Proof.
  assert (E : forall h, dict_get "terrain" (export_hex_dict h) =
                        Some (JStr (str_lower (TerrainType_value (terrain h))))).
  { intros h. unfold export_hex_dict. cbv zeta.
    destruct (is_river h); [|destruct (is_lake h)]; reflexivity. }
  rewrite !E. cbn [row_terrain data_row].
  split; (split; [|intros ->; reflexivity]).
  - intros H. destruct (terrain a), (terrain b); try reflexivity; vm_compute in H; discriminate.
  - intros H. destruct (terrain a), (terrain b); try reflexivity; vm_compute in H; discriminate.
Qed.

(** ** A whole run of the script *)





(** ** The hash-based jitter stays in the unit interval *)

Lemma digits2_pos_unique (m : positive) (k : Z) :
  2 ^ (k - 1) <= Z.pos m < 2 ^ k -> Z.pos (digits2_pos m) = k.
Proof.
  intros [Hlo Hhi]. pose proof (digits2_pos_bounds m) as [Dlo Dhi].
  set (d := Z.pos (digits2_pos m)) in *.
  assert (Hd : 1 <= d) by (subst d; lia).
  assert (Hk : 0 <= k).
  { destruct (Z_lt_le_dec k 0) as [Hn|]; [|lia]. rewrite (Z.pow_neg_r 2 k Hn) in Hhi. lia. }
  destruct (Z_lt_le_dec d k) as [H1|H1].
  - assert (2 ^ d <= 2 ^ (k - 1)) by (apply Z.pow_le_mono_r; lia). lia.
  - destruct (Z_lt_le_dec k d) as [H2|H2]; [|lia].
    assert (2 ^ k <= 2 ^ (d - 1)) by (apply Z.pow_le_mono_r; lia). lia.
Qed.

Lemma binary_round_aux_exact (s : bool) (p : positive) (e : Z) :
  shift_of (Z.pos p) e = 0 -> e <= emax - prec ->
  binary_round_aux prec emax s (Z.pos p) e loc_Exact = S754_finite s p e.
Proof.
  intros Hs He.
  assert (E1 : shr_fexp prec emax (Z.pos p) e loc_Exact =
               (shr_record_of_loc (Z.pos p) loc_Exact, e)).
  { unfold shr_fexp, shr. unfold shift_of in Hs.
    destruct (fexp prec emax (Zdigits2 (Z.pos p) + e) - e) as [|q|q]; [reflexivity|lia|reflexivity]. }
  unfold binary_round_aux. rewrite E1.
  cbn [shr_record_of_loc shr_m loc_of_shr_record round_nearest_even].
  rewrite E1. cbn [shr_record_of_loc shr_m].
  apply Z.leb_le in He. rewrite He. reflexivity.
Qed.

(** Rounding a mantissa that fits in 53 bits only shifts it left. *)
Lemma binary_round_exact (s : bool) (p : positive) (e : Z) :
  Z.pos (digits2_pos p) <= 53 ->
  emin <= Z.pos (digits2_pos p) + e - 53 ->
  Z.pos (digits2_pos p) + e - 53 <= emax - prec ->
  exists p',
    binary_round prec emax s p e = S754_finite s p' (Z.pos (digits2_pos p) + e - 53) /\
    Z.pos p' = Z.pos p * 2 ^ (53 - Z.pos (digits2_pos p)) /\
    bounded prec emax p' (Z.pos (digits2_pos p) + e - 53) = true.
Proof.
  intros Hd Hlo Hhi. unfold binary_round.
  pose proof (digits2_pos_bounds p) as [Dlo Dhi].
  set (d := Z.pos (digits2_pos p)) in *.
  assert (Hf : fexp prec emax (d + e) = d + e - 53).
  { unfold fexp, prec. unfold SpecFloat.emin, prec, emax in *. lia. }
  rewrite Hf.
  destruct (shl_align_spec p e (d + e - 53)) as [E1 E2].
  destruct (shl_align p e (d + e - 53)) as [mz ez]. cbn [fst snd] in E1, E2.
  replace (Z.min e (d + e - 53)) with (d + e - 53) in E1, E2 by lia.
  replace (e - (d + e - 53)) with (53 - d) in E2 by lia. subst ez.
  assert (Hp : 0 < 2 ^ (53 - d)) by (apply Z.pow_pos_nonneg; lia).
  assert (Hmz : Z.pos (digits2_pos mz) = 53).
  { apply digits2_pos_unique. rewrite E2. split.
    - replace (53 - 1) with ((d - 1) + (53 - d)) by lia.
      rewrite Z.pow_add_r by lia. apply Z.mul_le_mono_nonneg_r; lia.
    - replace 53 with (d + (53 - d)) at 2 by lia.
      rewrite Z.pow_add_r by lia. apply Z.mul_lt_mono_pos_r; lia. }
  assert (Hf2 : fexp prec emax (53 + (d + e - 53)) = d + e - 53).
  { unfold fexp, prec. unfold SpecFloat.emin, prec, emax in *. lia. }
  exists mz. split; [|split; [exact E2|]].
  - apply binary_round_aux_exact; [|exact Hhi].
    unfold shift_of. cbn [Zdigits2]. rewrite Hmz, Hf2. lia.
  - unfold bounded, canonical_mantissa. rewrite Hmz, Hf2, Z.eqb_refl.
    apply Z.leb_le in Hhi. rewrite Hhi. reflexivity.
Qed.

(** Rounding a value strictly below one gives at most one, of the same
    sign. *)
Lemma binary_round_small (s : bool) (g : positive) (e : Z) :
  e <= 0 -> Z.pos g < 2 ^ (- e) ->
  small s (binary_round prec emax s g e).
Proof.
  intros He Hg. unfold binary_round.
  assert (Hdg : Zdigits2 (Z.pos g) <= - e) by (apply Zdigits2_upper; lia).
  cbn [Zdigits2] in Hdg.
  set (t := fexp prec emax (Z.pos (digits2_pos g) + e)).
  assert (Ht : t <= -53).
  { subst t. unfold fexp, SpecFloat.emin, prec, emax. lia. }
  destruct (shl_align_spec g e t) as [E1 E2].
  destruct (shl_align g e t) as [mz ez]. cbn [fst snd] in E1, E2.
  assert (Hez : ez <= -53) by lia.
  assert (Hmz : Z.pos mz < 2 ^ (- ez)).
  { rewrite E2, <- E1. replace (- ez) with (- e + (e - ez)) by lia.
    rewrite Z.pow_add_r by lia. apply Z.mul_lt_mono_pos_r; [apply Z.pow_pos_nonneg; lia|exact Hg]. }
  clear E1 E2 Hg Hdg Ht t.
  destruct (round_aux_spec s (Z.pos mz) ez loc_Exact ltac:(lia)) as (m1 & Hb & ->).
  set (sh := shift_of (Z.pos mz) ez) in *.
  assert (Hsh : 0 <= sh) by (subst sh; unfold shift_of; lia).
  assert (He1 : ez + sh <= -53).
  { assert (Hd : Zdigits2 (Z.pos mz) <= - ez) by (apply Zdigits2_upper; lia).
    subst sh. unfold shift_of, fexp, SpecFloat.emin, prec, emax. lia. }
  set (e1 := ez + sh) in *.
  assert (P1 : 0 < 2 ^ sh) by (apply Z.pow_pos_nonneg; lia).
  assert (Hq : Z.pos mz / 2 ^ sh < 2 ^ (- e1)).
  { apply Z.div_lt_upper_bound; [exact P1|].
    rewrite <- Z.pow_add_r by lia. replace (sh + - e1) with (- ez) by (subst e1; lia).
    exact Hmz. }
  assert (Hq0 : 0 <= Z.pos mz / 2 ^ sh) by (apply Z.div_pos; lia).
  assert (Hm1 : 0 <= m1 <= 2 ^ (- e1)) by lia.
  set (sh2 := shift_of m1 e1) in *.
  assert (Hsh2 : 0 <= sh2) by (subst sh2; unfold shift_of; lia).
  assert (He2 : e1 + sh2 <= -52).
  { assert (Hd : Zdigits2 m1 <= - e1 + 1).
    { apply Zdigits2_upper; [lia|]. split; [lia|].
      rewrite Z.pow_add_r by lia. change (2 ^ 1) with 2.
      assert (0 < 2 ^ (- e1)) by (apply Z.pow_pos_nonneg; lia). lia. }
    subst sh2. unfold shift_of, fexp, SpecFloat.emin, prec, emax. lia. }
  assert (P2 : 0 < 2 ^ sh2) by (apply Z.pow_pos_nonneg; lia).
  assert (Hp : 0 <= m1 / 2 ^ sh2 <= 2 ^ (- (e1 + sh2))).
  { split; [apply Z.div_pos; lia|].
    apply Z.div_le_upper_bound; [exact P2|].
    rewrite <- Z.pow_add_r by lia. replace (sh2 + - (e1 + sh2)) with (- e1) by lia. lia. }
  destruct (m1 / 2 ^ sh2) as [|p|p] eqn:Ep; cbn [small]; [reflexivity| |lia].
  assert (Hle : (e1 + sh2 <=? emax - prec) = true) by (apply Z.leb_le; unfold emax, prec; lia).
  rewrite Hle. cbn [small]. split; [reflexivity|]. split; [exact He2|].
  intros E. rewrite E in Hp. change (- -52) with 52 in Hp. lia.
Qed.

Lemma finite_le_one (m : positive) (e : Z) :
  e <= -52 -> (e = -52 -> Z.pos m <= 2 ^ 52) ->
  SFleb (S754_finite false m e) (S754_finite false 4503599627370496 (-52)) = true.
Proof.
  intros He Hm. unfold SFleb, SFcompare.
  destruct (Z.compare_spec e (-52)) as [E|E|E]; [|reflexivity|lia].
  specialize (Hm E). change (2 ^ 52) with 4503599627370496 in Hm.
  destruct (Pos.compare_cont Eq m 4503599627370496) eqn:E'; [reflexivity|reflexivity|].
  apply Pos.compare_gt_iff in E'. lia.
Qed.

Lemma one_SF : Prim2SF 1 = S754_finite false 4503599627370496 (-52).
Proof. vm_compute. reflexivity. Qed.

Lemma zero_SF : Prim2SF 0 = S754_zero false.
Proof. vm_compute. reflexivity. Qed.

Lemma zero_or_small_in_unit (v : float) :
  match Prim2SF v with
  | S754_zero _ => True
  | x => small false x
  end -> in_unit v.
Proof.
  unfold in_unit. rewrite !leb_spec, zero_SF, one_SF.
  destruct (Prim2SF v) as [s|s| |s m e]; cbn [small]; try contradiction.
  - intros _. destruct s; split; reflexivity.
  - intros (-> & He & Hm). split; [reflexivity|]. apply finite_le_one; assumption.
Qed.

Lemma small_in_unit (v : float) :
  small false (Prim2SF v) -> in_unit v.
Proof.
  intros H. apply zero_or_small_in_unit.
  destruct (Prim2SF v); [exact I|exact H|exact H|exact H].
Qed.

Lemma neg_zero_SF : Prim2SF neg_zero = S754_zero true.
Proof. vm_compute. reflexivity. Qed.

Lemma signed_zero_small (s : bool) : small s (Prim2SF (if s then neg_zero else zero)).
Proof. destruct s; [rewrite neg_zero_SF|change zero with 0%float; rewrite zero_SF]; reflexivity. Qed.

(** [frac if frac != 0 else signed zero], as [modf_frac] ends. *)
Lemma frac_pick (s : bool) (r : float) :
  match Prim2SF r with
  | S754_zero _ => True
  | x => small s x
  end ->
  small s (Prim2SF (if (r =? 0)%float then (if s then neg_zero else zero) else r)).
Proof.
  rewrite eqb_zero. intros H.
  destruct (Prim2SF r) as [s'|s'| |s' m e] eqn:E.
  - apply signed_zero_small.
  - rewrite E. exact H.
  - rewrite E. exact H.
  - rewrite E. exact H.
Qed.

(** The integer part of a finite number with a negative exponent, as
    [modf_frac] rebuilds it: zero, or a number with the same exponent. *)
Lemma whole_part (s : bool) (m : positive) (e : Z) :
  bounded prec emax m e = true -> e < 0 ->
  let t := Z.shiftl (Z.pos m) e in
  let W := binary_normalize prec emax (if s then - t else t) 0 false in
  valid_binary W = true /\
  ((W = S754_zero false /\ Z.pos m < 2 ^ (- e)) \/
   (exists p, W = S754_finite s p e /\ Z.pos p = t * 2 ^ (- e) /\ 0 < t)).
Proof.
  intros Hb He t W. apply bounded_spec in Hb as (Hemin & Hm & Hn).
  assert (P : 0 < 2 ^ (- e)) by (apply Z.pow_pos_nonneg; lia).
  assert (Et : t = Z.pos m / 2 ^ (- e)) by (subst t; apply Z.shiftl_div_pow2; lia).
  pose proof (Z.div_mod (Z.pos m) (2 ^ (- e)) ltac:(lia)) as Hdm.
  pose proof (Z.mod_pos_bound (Z.pos m) (2 ^ (- e)) P) as Hmod.
  rewrite <- Et in Hdm.
  assert (Ht0 : 0 <= t) by (rewrite Et; apply Z.div_pos; lia).
  destruct t as [|tp|tp] eqn:Etp; [| |lia].
  - subst W. destruct s; cbn [Z.opp binary_normalize valid_binary];
      (split; [reflexivity|left; split; [reflexivity|lia]]).
  - assert (He52 : -52 <= e).
    { destruct (Z_lt_le_dec e (-52)) as [Hlt|]; [|lia]. exfalso.
      assert (2 ^ 53 <= 2 ^ (- e)) by (apply Z.pow_le_mono_r; lia). nia. }
    assert (Hm52 : 2 ^ 52 <= Z.pos m) by (apply Hn; unfold SpecFloat.emin, prec, emax; lia).
    assert (E52 : 2 ^ 52 = 2 ^ (52 + e) * 2 ^ (- e)).
    { rewrite <- Z.pow_add_r by lia. f_equal. lia. }
    assert (E53 : 2 ^ 53 = 2 ^ (53 + e) * 2 ^ (- e)).
    { rewrite <- Z.pow_add_r by lia. f_equal. lia. }
    assert (P52 : 0 < 2 ^ (52 + e)) by (apply Z.pow_pos_nonneg; lia).
    assert (P53 : 0 < 2 ^ (53 + e)) by (apply Z.pow_pos_nonneg; lia).
    assert (Hd : Z.pos (digits2_pos tp) = 53 + e).
    { apply digits2_pos_unique. replace (53 + e - 1) with (52 + e) by lia. split; nia. }
    destruct (binary_round_exact s tp 0) as (p & Ep & Hp & Hbp).
    { lia. }
    { unfold SpecFloat.emin, prec, emax. lia. }
    { unfold prec, emax. lia. }
    rewrite Hd in Ep, Hp, Hbp.
    replace (53 + e + 0 - 53) with e in Ep, Hbp by lia.
    replace (53 - (53 + e)) with (- e) in Hp by lia.
    assert (EW : W = S754_finite s p e).
    { subst W. destruct s; cbn [Z.opp binary_normalize]; exact Ep. }
    rewrite EW. split; [exact Hbp|]. right. exists p.
    split; [reflexivity|]. split; [exact Hp|lia].
Qed.

(** What is left after the integer part is taken away has magnitude below
    one and the sign of the argument, or is a zero. *)
Lemma sub_whole_small (s : bool) (m : positive) (e : Z) :
  bounded prec emax m e = true -> e < 0 ->
  let t := Z.shiftl (Z.pos m) e in
  let W := binary_normalize prec emax (if s then - t else t) 0 false in
  match SFsub prec emax (S754_finite s m e) W with
  | S754_zero _ => True
  | x => small s x
  end.
Proof.
  intros Hb He t W.
  destruct (whole_part s m e Hb He) as (_ & [[EW Hm]|(p & EW & Hp & Ht)]).
  - fold t in EW. fold W in EW. rewrite EW. cbn [SFsub small]. apply bounded_spec in Hb as (Hemin & Hm53 & Hn).
    split; [reflexivity|].
    assert (He53 : e <= -53).
    { destruct (Z_lt_le_dec (-53) e) as [Hgt|]; [|lia]. exfalso.
      assert (2 ^ (- e) <= 2 ^ 52) by (apply Z.pow_le_mono_r; lia).
      assert (emin < e) by (unfold SpecFloat.emin, prec, emax; lia).
      specialize (Hn ltac:(assumption)). lia. }
    split; [lia|]. intros E. lia.
  - fold t in EW, Hp, Ht. fold W in EW. rewrite EW.
    assert (P : 0 < 2 ^ (- e)) by (apply Z.pow_pos_nonneg; lia).
    assert (Et : t = Z.pos m / 2 ^ (- e)) by (subst t; apply Z.shiftl_div_pow2; lia).
    pose proof (Z.div_mod (Z.pos m) (2 ^ (- e)) ltac:(lia)) as Hdm.
    pose proof (Z.mod_pos_bound (Z.pos m) (2 ^ (- e)) P) as Hmod.
    rewrite <- Et in Hdm.
    set (f := Z.pos m mod 2 ^ (- e)) in *.
    assert (Ef : Z.pos m - Z.pos p = f) by (rewrite Hp; lia).
    unfold SFsub. cbv zeta. rewrite Z.min_id.
    destruct (shl_align_le m e e ltac:(lia)) as [E1 _].
    destruct (shl_align_le p e e ltac:(lia)) as [E2 _].
    rewrite Z.sub_diag in E1, E2. change (2 ^ 0) with 1 in E1, E2.
    rewrite Z.mul_1_r in E1, E2. rewrite E1, E2.
    assert (Ec : cond_Zopp s (Z.pos m) - cond_Zopp s (Z.pos p) = cond_Zopp s f).
    { destruct s; cbn [cond_Zopp]; lia. }
    rewrite Ec.
    destruct f as [|fp|fp] eqn:Efp; [| |lia].
    + destruct s; cbn [cond_Zopp Z.opp binary_normalize]; exact I.
    + assert (Hs : small s (binary_round prec emax s fp e))
        by (apply binary_round_small; lia).
      assert (En : binary_normalize prec emax (cond_Zopp s (Z.pos fp)) e false =
                   binary_round prec emax s fp e).
      { destruct s; reflexivity. }
      rewrite En.
      destruct (binary_round prec emax s fp e); [exact I|exact Hs|exact Hs|exact Hs].
Qed.

Lemma modf_frac_small (v : float) :
  Prim2SF v <> S754_nan -> exists s, small s (Prim2SF (modf_frac v)).
Proof.
  intros Hnan. unfold modf_frac.
  destruct (Prim2SF v) as [s|s| |s m e] eqn:Ev.
  - exists s. rewrite Ev. reflexivity.
  - exists s. apply signed_zero_small.
  - contradiction.
  - exists s. cbv zeta.
    destruct (0 <=? e) eqn:E0; [apply signed_zero_small|].
    apply Z.leb_gt in E0.
    pose proof (valid_finite v s m e Ev) as Hb.
    destruct (whole_part s m e Hb E0) as (Hv & _).
    pose proof (sub_whole_small s m e Hb E0) as Hs. cbv zeta in Hv, Hs.
    apply frac_pick. rewrite sub_spec, Ev, (Prim2SF_SF2Prim _ Hv). exact Hs.
Qed.

Lemma neg_plus_one_small (fr : float) (m : positive) (e : Z) :
  Prim2SF fr = S754_finite true m e ->
  e <= -52 -> (e = -52 -> Z.pos m <= 2 ^ 52) ->
  small false (Prim2SF (fr + 1)).
Proof.
  intros E He Hm. pose proof (valid_finite fr true m e E) as Hb.
  apply bounded_spec in Hb as (_ & Hm53 & _).
  rewrite add_spec, E, one_SF. unfold SF64add, SFadd. cbv zeta.
  replace (Z.min e (-52)) with e by lia.
  destruct (shl_align_le m e e ltac:(lia)) as [E1 _].
  destruct (shl_align_le 4503599627370496 (-52) e He) as [E2 _].
  rewrite Z.sub_diag in E1. change (2 ^ 0) with 1 in E1. rewrite Z.mul_1_r in E1.
  rewrite E1, E2. cbn [cond_Zopp].
  assert (Ep : 4503599627370496 * 2 ^ (-52 - e) = 2 ^ (- e)).
  { change 4503599627370496 with (2 ^ 52). rewrite <- Z.pow_add_r by lia. f_equal. lia. }
  rewrite Ep.
  assert (P : 2 ^ 52 <= 2 ^ (- e)) by (apply Z.pow_le_mono_r; lia).
  assert (Hg : 0 <= - Z.pos m + 2 ^ (- e) < 2 ^ (- e)).
  { split; [|lia]. destruct (Z.eq_dec e (-52)) as [->|Hne].
    - specialize (Hm eq_refl). change (- -52) with 52. lia.
    - assert (2 ^ 53 <= 2 ^ (- e)) by (apply Z.pow_le_mono_r; lia). lia. }
  destruct (- Z.pos m + 2 ^ (- e)) as [|g|g]; [reflexivity| |lia].
  cbn [binary_normalize]. apply binary_round_small; lia.
Qed.

(** X23: whatever the sine function returns, short of a NaN, the jitter
    value of [_pseudo_random] lies in the closed interval from 0 to 1; the
    upper end is attained, since a fractional part just below zero plus 1.0
    rounds to 1.0. *)
Theorem pseudo_random_in_unit :
  (forall (ext : Externals) (px py seed : float),
     is_nan (math_sin ext ((px + seed * 0.37) * 12.9898 + (py + seed * 0.71) * 78.233)
             * 43758.5453123)%float = false ->
     in_unit (_pseudo_random ext px py seed)) /\
  _pseudo_random tiny_sine_externals 1 1 1 = 1%float.
Proof.
  split; [|vm_compute; reflexivity].
  intros ext px py seed Hnan. unfold _pseudo_random. cbv zeta.
  set (raw := (math_sin ext _ * 43758.5453123)%float) in *.
  destruct (modf_frac_small raw (not_nan_SF raw Hnan)) as [s Hs].
  set (frac := modf_frac raw) in *.
  unfold geb. rewrite leb_spec, zero_SF.
  destruct (Prim2SF frac) as [s'|s'| |s' m e] eqn:E; cbn [small] in Hs; try contradiction.
  - cbn [SFleb SFcompare]. apply zero_or_small_in_unit. rewrite E. exact I.
  - destruct Hs as (-> & He & Hm). destruct s.
    + cbn [SFleb SFcompare]. apply small_in_unit.
      apply (neg_plus_one_small frac m e E He Hm).
    + cbn [SFleb SFcompare]. apply small_in_unit. rewrite E.
      cbn [small]. split; [reflexivity|]. split; assumption.
Qed.

(** ** What the random generator can change *)

(** The cells of a generated world, in terms of the cells that layer
    synthesis left: each is its layer cell with flags raised by hydrology
    and the terrain that classification reads off it. *)
Lemma generate_cells (ext : Externals) (seeds : Seeds) (w h : Z) (rng out : Rng)
    (w0 wb world : WorldGenerator) :
  WorldGenerator_init w h = Ok w0 ->
  generate_base_layers ext seeds w0 = Ok wb ->
  generate ext seeds w h rng = Ok (world, out) ->
  width world = w /\ height world = h /\
  forall i j,
    match cell_at (grid wb) i j with
    | Some b => exists r, flags_raised b r /\
                          cell_at (grid world) i j = Some (set_terrain (biome_of r) r)
    | None => cell_at (grid world) i j = None
    end.
Proof.
  intros H0 Hb H. unfold generate in H. rewrite H0 in H. cbn [bind] in H.
  rewrite Hb in H. cbn [bind] in H.
  apply bind_Ok in H as ([wr rng2] & Hr & H). apply bind_Ok in H as (w3 & Ha & H).
  injection H as <- <-.
  apply init_shape in H0 as (Ew0 & Eh0 & Hs0 & _).
  apply generate_base_layers_spec in Hb as (Ewb & Ehb & Hsb & Hcb).
  specialize (Hsb _ _ Hs0). rewrite Ew0, Eh0 in Hcb.
  apply generate_rivers_as_log in Hr as [log Hr].
  apply generate_rivers_log_grid in Hr as (Ewr & Ehr & springs & rng1 & _ & Hw).
  pose proof (walk_springs_flags_raised _ _ _ _ _ _ _ _ Hw) as Hfl.
  pose proof (proj1 Hfl _ _ Hsb) as Hsr.
  apply assign_biomes_spec in Ha as (Ew3 & Eh3 & Hs3 & Hc3 & _).
  specialize (Hs3 _ _ Hsr).
  assert (EW : width wr = w) by congruence. assert (EH : height wr = h) by congruence.
  rewrite EW, EH in Hc3.
  split; [congruence|]. split; [congruence|].
  intros i j.
  destruct (cell_at (grid wb) i j) as [b|] eqn:Eb.
  - destruct (cell_at_in_shape _ _ _ _ _ _ Hsb Eb) as [Hi Hj].
    destruct (cell_at_flags_raised _ _ _ _ _ Hfl Eb) as (r & Er & Hbr).
    destruct (Hc3 i j Hi Hj) as (c & Ec & Ec3).
    assert (c = r) by congruence. subst c.
    exists r. split; [exact Hbr|exact Ec3].
  - destruct (cell_at (grid w3) i j) as [c|] eqn:Ec; [|reflexivity]. exfalso.
    destruct (cell_at_in_shape _ _ _ _ _ _ Hs3 Ec) as [Hi Hj].
    destruct (Hcb i j Hi Hj) as (b & Eb' & _). congruence.
Qed.

Lemma biome_of_sea (c : HexData) :
  (elevation c <? 0.30)%float = true ->
  biome_of c = if (elevation c <? 0.15)%float then DEEP_SEA else SEA.
Proof.
  intros H. unfold biome_of. cbv zeta. rewrite H. reflexivity.
Qed.

(** X24: the state of the random generator can change only the water.
    Two runs with the same library functions, seeds and dimensions, from any
    two states of the generator, build the same cells up to the river and
    lake flags and the terrain read off them: coordinates, elevation,
    moisture, temperature, road level and dominion agree in every cell; a
    cell below the 0.30 sea level has the same terrain in both; and a cell
    whose two flags agree is the same cell in both. *)
Theorem random_state_only_moves_water (ext : Externals) (seeds : Seeds) (w h : Z)
    (rng1 rng2 out1 out2 : Rng) (world1 world2 : WorldGenerator) :
  generate ext seeds w h rng1 = Ok (world1, out1) ->
  generate ext seeds w h rng2 = Ok (world2, out2) ->
  width world1 = width world2 /\ height world1 = height world2 /\
  forall i j,
    match cell_at (grid world1) i j, cell_at (grid world2) i j with
    | Some c1, Some c2 =>
        x c1 = x c2 /\ y c1 = y c2 /\
        elevation c1 = elevation c2 /\ moisture c1 = moisture c2 /\
        temperature c1 = temperature c2 /\
        road_level c1 = road_level c2 /\ dominion_id c1 = dominion_id c2 /\
        ((elevation c1 <? 0.30)%float = true -> terrain c1 = terrain c2) /\
        (is_river c1 = is_river c2 -> is_lake c1 = is_lake c2 -> c1 = c2)
    | None, None => True
    | _, _ => False
    end.
Proof.
  intros H1 H2.
  assert (Hst : exists w0 wb, WorldGenerator_init w h = Ok w0 /\
                              generate_base_layers ext seeds w0 = Ok wb).
  { pose proof H1 as H. unfold generate in H.
    apply bind_Ok in H as (w0 & H0 & H). apply bind_Ok in H as (wb & Hb & _). eauto. }
  destruct Hst as (w0 & wb & H0 & Hb).
  destruct (generate_cells ext seeds w h rng1 out1 w0 wb world1 H0 Hb H1) as (Ew1 & Eh1 & Hcells1).
  destruct (generate_cells ext seeds w h rng2 out2 w0 wb world2 H0 Hb H2) as (Ew2 & Eh2 & Hcells2).
  split; [congruence|]. split; [congruence|].
  intros i j. specialize (Hcells1 i j). specialize (Hcells2 i j).
  destruct (cell_at (grid wb) i j) as [b|].
  - destruct Hcells1 as (r1 & F1 & ->). destruct Hcells2 as (r2 & F2 & ->).
    destruct F1 as (X1 & Y1 & E1 & M1 & T1 & Tr1 & R1 & D1 & _ & _).
    destruct F2 as (X2 & Y2 & E2 & M2 & T2 & Tr2 & R2 & D2 & _ & _).
    cbn [x y elevation moisture temperature road_level dominion_id terrain
         is_river is_lake set_terrain].
    repeat (split; [congruence|]).
    assert (Er : is_river r1 = is_river r2 -> is_lake r1 = is_lake r2 -> r1 = r2).
    { intros Hr Hl. destruct r1, r2. cbn in *. congruence. }
    split.
    + intros Hsea. rewrite (biome_of_sea r1 Hsea).
      assert (Hsea2 : (elevation r2 <? 0.30)%float = true) by congruence.
      rewrite (biome_of_sea r2 Hsea2). replace (elevation r2) with (elevation r1) by congruence.
      reflexivity.
    + intros Hr Hl. rewrite (Er Hr Hl). reflexivity.
  - rewrite Hcells1, Hcells2. exact I.
Qed.

Lemma random_state_only_moves_water_witness :
  exists world1 world2 out1 out2,
    generate sample_externals sample_seeds 3 1 [0%nat] = Ok (world1, out1) /\
    generate sample_externals sample_seeds 3 1 [1%nat] = Ok (world2, out2) /\
    assignments world1 <> assignments world2 /\
    forall i j,
      match cell_at (grid world1) i j, cell_at (grid world2) i j with
      | Some c1, Some c2 =>
          elevation c1 = elevation c2 /\ moisture c1 = moisture c2 /\
          temperature c1 = temperature c2
      | None, None => True
      | _, _ => False
      end.
Proof.
  destruct (generate sample_externals sample_seeds 3 1 [0%nat]) as [[w1 out1]|e] eqn:H1;
    [|vm_compute in H1; discriminate].
  destruct (generate sample_externals sample_seeds 3 1 [1%nat]) as [[w2 out2]|e] eqn:H2;
    [|vm_compute in H2; discriminate].
  exists w1, w2, out1, out2. split; [reflexivity|]. split; [reflexivity|]. split.
  - vm_compute in H1. injection H1 as <- <-.
    vm_compute in H2. injection H2 as <- <-.
    vm_compute. discriminate.
  - destruct (random_state_only_moves_water _ _ _ _ _ _ _ _ _ _ H1 H2) as (_ & _ & H).
    intros i j. specialize (H i j).
    destruct (cell_at (grid w1) i j), (cell_at (grid w2) i j); try exact H.
    destruct H as (_ & _ & He & Hm & Ht & _). auto.
Defined.
